(** * StreamingAggregation: a shallow embedding of
    velox/exec/StreamingAggregation.cpp and the properties of its
    group assignment, slot pool, kernel dispatch and output protocol. *)

From Stdlib Require Import ZArith NArith Lia String Sorted.
From stdpp Require Import base tactics option list numbers.

(** ** Errors and the result monad

    [VELOX_UNSUPPORTED] throws; a read outside a vector, through a null
    smart pointer or through a dangling row pointer is undefined in C++ and
    is made explicit here as an error result. *)

Inductive VeloxError :=
| Unsupported (message : string)
| OutOfBounds
| NullPointer
| Uninitialized.

Inductive Result (A : Type) :=
| Ok (a : A)
| Raise (e : VeloxError).

Arguments Ok {A} a.
Arguments Raise {A} e.

Definition bind {A B} (m : Result A) (k : A -> Result B) : Result B :=
  match m with
  | Ok a => k a
  | Raise e => Raise e
  end.

Declare Scope result_scope.
Delimit Scope result_scope with result.
Notation "'let*' x ':=' e 'in' k" := (bind e (fun x => k))
  (at level 10, x pattern, e at level 200, k at level 200) : result_scope.
Open Scope result_scope.

Definition require {A} (e : VeloxError) (o : option A) : Result A :=
  match o with
  | Some a => Ok a
  | None => Raise e
  end.

(** [for (x : l) { a = f(a, x); }] with an exception or a fault leaving the loop. *)
Fixpoint foldM {A B} (f : A -> B -> Result A) (l : list B) (a : A) : Result A :=
  match l with
  | [] => Ok a
  | b :: l' => let* a' := f a b in foldM f l' a'
  end.

Fixpoint mapM_result {A B} (f : A -> Result B) (l : list A) : Result (list B) :=
  match l with
  | [] => Ok []
  | a :: l' => let* b := f a in let* bs := mapM_result f l' in Ok (b :: bs)
  end.

(** ** Vectors and row batches *)

(** A nullable scalar; [None] is SQL null. *)
Definition Value := option Z.

(** [column_index_t] is an unsigned 32-bit index; [kConstantChannel] is its
    largest value and marks an argument that is a literal. *)
Definition column_index_t := N.
Definition kConstantChannel : column_index_t := 4294967295%N.

Inductive Vector :=
| FlatVector (values : list Value)
| ConstantVector (value : Value) (size : nat).

(** Modelled from the spec: reading row [index] of a column ([BaseVector.h]
    is not part of the sources). [vector_size_t] is signed, so the index is an
    integer; a constant vector answers its one value for every row. *)
Definition valueAt (v : Vector) (index : Z) : Result Value :=
  match v with
  | FlatVector values =>
      if (index <? 0)%Z then Raise OutOfBounds
      else require OutOfBounds (values !! Z.to_nat index)
  | ConstantVector value _ => Ok value
  end.

(** Modelled from the spec: [BaseVector::equalValueAt], the value equality of
    the engine: null equals null, null differs from a value. *)
Definition equalValueAt (v other : Vector) (index otherIndex : Z) : Result bool :=
  let* a := valueAt v index in
  let* b := valueAt other otherIndex in
  Ok (bool_decide (a = b)).

Record RowVector := {
  rowCount : nat;
  children : list Vector
}.

Definition childAt (batch : RowVector) (channel : column_index_t) : Result Vector :=
  require OutOfBounds (children batch !! N.to_nat channel).

Definition SelectivityVector := list bool.

Definition isValid (rows : SelectivityVector) (row : nat) : bool :=
  default false (rows !! row).

(** ** Plan node *)

Inductive Step := kPartial | kFinal | kIntermediate | kSingle.

(** Modelled from the spec: [isRawInput] and [isPartialOutput] live in the
    plan-node header; a raw-input step is partial or single, a
    partial-output step is partial or intermediate. *)
Definition isRawInput (step : Step) : bool :=
  match step with
  | kPartial | kSingle => true
  | kFinal | kIntermediate => false
  end.

Definition isPartialOutput (step : Step) : bool :=
  match step with
  | kPartial | kIntermediate => true
  | kFinal | kSingle => false
  end.

(** Modelled from the spec: typed expressions and [exprToChannel] (the
    expression-to-column resolution is not part of the sources). Expressions
    arrive resolved: a field access carries its input channel, and a literal
    resolves to [kConstantChannel]. *)
Inductive TypedExpr :=
| FieldAccessTypedExpr (channel : column_index_t)
| ConstantTypedExpr (value : Value).

Definition exprToChannel (e : TypedExpr) : column_index_t :=
  match e with
  | FieldAccessTypedExpr channel => channel
  | ConstantTypedExpr _ => kConstantChannel
  end.

Record PlanAggregate := {
  callName : string;
  callInputs : list TypedExpr;
  sortingKeys : list TypedExpr;
  distinct : bool;
  mask : option column_index_t
}.

Record AggregationNode := {
  step : Step;
  groupingKeys : list TypedExpr;
  aggregates : list PlanAggregate;
  ignoreNullKeys : bool
}.

(** [equalKeys]: true when the two rows match in all grouping key columns;
    the loop returns at the first column that differs. *)
Fixpoint equalKeys (keys : list column_index_t) (batch : RowVector) (index : Z)
    (otherBatch : RowVector) (otherIndex : Z) : Result bool :=
  match keys with
  | [] => Ok true
  | key :: keys' =>
      let* column := childAt batch key in
      let* otherColumn := childAt otherBatch key in
      let* equal := equalValueAt column otherColumn index otherIndex in
      if equal then equalKeys keys' batch index otherBatch otherIndex
      else Ok false
  end.

(** ** Collaborators: aggregate kernels, row storage, masks *)

Section StreamingAggregation.

(** The per-group state of an aggregate kernel. *)
Context {Acc : Type}.

(** Modelled from the spec: the aggregate kernel interface ([Aggregate.h] is
    not part of the sources). A kernel gives the state of a freshly
    initialized group, folds one selected input row into a state on the
    raw-input path or on the intermediate-merge path, and extracts either the
    final value or the accumulator. *)
Record Aggregate := {
  initialState : Acc;
  rawInput : Acc -> list Value -> Acc;
  intermediateInput : Acc -> list Value -> Acc;
  finalValue : Acc -> Value;
  accumulatorValue : Acc -> Value
}.

(** Modelled from the spec: [Aggregate::create(name, step, ...)], the kernel
    factory. *)
Variable createAggregate : string -> Step -> Aggregate.

(** A row pointer ([char*]): [nullptr] is 0, row [i] of the container lives at
    address [i + 1]. *)
Definition Ptr := nat.
Definition nullptr : Ptr := 0.

(** A group slot: the grouping-key values followed by one accumulator per
    aggregate; an accumulator is [None] until its kernel initialized it. *)
Record Row := {
  keys : list Value;
  accumulators : list (option Acc)
}.

Record RowContainer := {
  keyCount : nat;
  accumulatorCount : nat;
  storage : list Row
}.

Definition blankRow (rc : RowContainer) : Row :=
  {| keys := replicate (keyCount rc) None;
     accumulators := replicate (accumulatorCount rc) None |}.

Definition rowAt (rc : RowContainer) (p : Ptr) : option Row :=
  match p with
  | 0 => None
  | S i => storage rc !! i
  end.

Definition setRow (rc : RowContainer) (p : Ptr) (row : Row) : RowContainer :=
  {| keyCount := keyCount rc;
     accumulatorCount := accumulatorCount rc;
     storage := <[pred p := row]> (storage rc) |}.

(** Modelled from the spec: the row-storage collaborator ([RowContainer.h] is
    not part of the sources). [newRow] grows the buffer, [initializeRow]
    overwrites a row in place, [store] writes one key column of a row,
    [extractColumn] reads one key column of [n] rows, [clear] frees all. *)
Definition newRow (rc : RowContainer) : Ptr * RowContainer :=
  (S (length (storage rc)),
   {| keyCount := keyCount rc;
      accumulatorCount := accumulatorCount rc;
      storage := storage rc ++ [blankRow rc] |}).

Definition initializeRow (rc : RowContainer) (row : Ptr) (reuse : bool)
    : Result RowContainer :=
  let* _ := require OutOfBounds (rowAt rc row) in
  Ok (setRow rc row (blankRow rc)).

Definition store (rc : RowContainer) (decoded : Vector) (index : nat)
    (row : Ptr) (column : nat) : Result RowContainer :=
  let* value := valueAt decoded (Z.of_nat index) in
  let* r := require OutOfBounds (rowAt rc row) in
  if column <? length (keys r) then
    Ok (setRow rc row {| keys := <[column := value]> (keys r);
                         accumulators := accumulators r |})
  else Raise OutOfBounds.

Definition extractColumn (rc : RowContainer) (rows : list Ptr) (n : nat)
    (column : nat) : Result Vector :=
  if length rows <? n then Raise OutOfBounds
  else
    let* values :=
      mapM_result (fun p =>
        let* r := require OutOfBounds (rowAt rc p) in
        require OutOfBounds (keys r !! column)) (take n rows) in
    Ok (FlatVector values).

Definition clear (rc : RowContainer) : RowContainer :=
  {| keyCount := keyCount rc;
     accumulatorCount := accumulatorCount rc;
     storage := [] |}.

(** Modelled from the spec: what the vectorized kernel entry points do to the
    accumulators stored in the rows. [initializeNewGroups] sets the state of
    the listed slots; an update reads, for every selected row [r], the
    argument values at [r] and folds them into the accumulator of the group
    [groups[r]]; an extraction reads the first [n] groups. *)
Definition setAccumulator (rc : RowContainer) (aggregate : nat) (p : Ptr)
    (f : option Acc -> Result Acc) : Result RowContainer :=
  let* r := require OutOfBounds (rowAt rc p) in
  let* old := require OutOfBounds (accumulators r !! aggregate) in
  let* new := f old in
  Ok (setRow rc p {| keys := keys r;
                     accumulators := <[aggregate := Some new]> (accumulators r) |}).

Definition initializeNewGroups (kernel : Aggregate) (aggregate : nat)
    (groups : list Ptr) (indices : list nat) (rc : RowContainer)
    : Result RowContainer :=
  foldM (fun rc i =>
    let* p := require OutOfBounds (groups !! i) in
    setAccumulator rc aggregate p (fun _ => Ok (initialState kernel)))
    indices rc.

Definition argValueAt (row : nat) (arg : option Vector) : Result Value :=
  let* v := require NullPointer arg in
  valueAt v (Z.of_nat row).

Definition updateGroups (update : Acc -> list Value -> Acc) (aggregate : nat)
    (groups : list Ptr) (rows : SelectivityVector) (args : list (option Vector))
    (rc : RowContainer) : Result RowContainer :=
  foldM (fun rc row =>
    if isValid rows row then
      let* p := require OutOfBounds (groups !! row) in
      let* values := mapM_result (argValueAt row) args in
      setAccumulator rc aggregate p (fun old =>
        let* acc := require Uninitialized old in
        Ok (update acc values))
    else Ok rc)
    (seq 0 (length rows)) rc.

Definition addRawInput (kernel : Aggregate) :=
  updateGroups (rawInput kernel).

Definition addIntermediateResults (kernel : Aggregate) :=
  updateGroups (intermediateInput kernel).

Definition extractGroups (extract : Acc -> Value) (aggregate : nat)
    (groups : list Ptr) (n : nat) (rc : RowContainer) : Result Vector :=
  if length groups <? n then Raise OutOfBounds
  else
    let* values :=
      mapM_result (fun p =>
        let* r := require OutOfBounds (rowAt rc p) in
        let* slot := require OutOfBounds (accumulators r !! aggregate) in
        let* acc := require Uninitialized slot in
        Ok (extract acc)) (take n groups) in
    Ok (FlatVector values).

Definition extractValues (kernel : Aggregate) :=
  extractGroups (finalValue kernel).

Definition extractAccumulators (kernel : Aggregate) :=
  extractGroups (accumulatorValue kernel).

(** Modelled from the spec: the mask collaborator ([AggregationMasks] is not
    part of the sources). [addInput] evaluates every mask column over the
    given selection; [activeRows] answers that selection for an aggregate
    with a mask column and nothing (a null pointer) for one without. *)
Record AggregationMasks := {
  maskChannels : list (option column_index_t);
  maskedRows : list (option SelectivityVector)
}.

Definition maskBit (column : Vector) (row : nat) : bool :=
  match valueAt column (Z.of_nat row) with
  | Ok (Some z) => negb (z =? 0)%Z
  | _ => false
  end.

Definition evaluateMask (column : Vector) (rows : SelectivityVector)
    : SelectivityVector :=
  imap (fun row selected => selected && maskBit column row) rows.

Definition masksAddInput (masks : AggregationMasks) (input : RowVector)
    (rows : SelectivityVector) : Result AggregationMasks :=
  let* evaluated :=
    mapM_result (fun channel =>
      match channel with
      | Some c =>
          let* column := childAt input c in
          Ok (Some (evaluateMask column rows))
      | None => Ok None
      end) (maskChannels masks) in
  Ok {| maskChannels := maskChannels masks; maskedRows := evaluated |}.

Definition activeRows (masks : AggregationMasks) (aggregateIndex : nat)
    : option SelectivityVector :=
  mjoin (maskedRows masks !! aggregateIndex).

(** ** Calls to the collaborators, in the order the operator makes them *)

Inductive Event :=
| NewRow (row : Ptr)
| InitializeRow (row : Ptr) (reuse : bool)
| Store (index : nat) (row : Ptr) (column : nat)
| ExtractColumn (rows : list Ptr) (numRows : nat) (column : nat)
| MasksAddInput (input : RowVector) (rows : SelectivityVector)
| InitializeNewGroups (aggregate : nat) (groups : list Ptr) (indices : list nat)
| AddRawInput (aggregate : nat) (groups : list Ptr) (rows : SelectivityVector)
    (args : list (option Vector)) (mayPushdown : bool)
| AddIntermediateResults (aggregate : nat) (groups : list Ptr)
    (rows : SelectivityVector) (args : list (option Vector)) (mayPushdown : bool)
| ExtractValues (aggregate : nat) (groups : list Ptr) (numGroups : nat)
| ExtractAccumulators (aggregate : nat) (groups : list Ptr) (numGroups : nat).

(** ** The operator state *)

(** The members of the class, and [calls_], the record of the collaborator
    calls made so far. *)
#[projections(primitive)]
Record Operator := {
  outputBatchSize_ : nat;
  aggregationNode_ : option AggregationNode;
  step_ : Step;
  groupingKeys_ : list column_index_t;
  aggregates_ : list Aggregate;
  args_ : list (list column_index_t);
  constantArgs_ : list (list (option Vector));
  masks_ : option AggregationMasks;
  rows_ : option RowContainer;
  decodedKeys_ : list Vector;
  input_ : option RowVector;
  prevInput_ : option RowVector;
  inputRows_ : SelectivityVector;
  inputGroups_ : list Ptr;
  groups_ : list Ptr;
  numGroups_ : nat;
  noMoreInput_ : bool;
  calls_ : list Event
}.

Definition set_masks (x : option AggregationMasks) (op : Operator) : Operator :=
  {| outputBatchSize_ := outputBatchSize_ op; aggregationNode_ :=
     aggregationNode_ op; step_ := step_ op; groupingKeys_ := groupingKeys_ op;
     aggregates_ := aggregates_ op; args_ := args_ op; constantArgs_ :=
     constantArgs_ op; masks_ := x; rows_ := rows_ op; decodedKeys_ :=
     decodedKeys_ op; input_ := input_ op; prevInput_ := prevInput_ op;
     inputRows_ := inputRows_ op; inputGroups_ := inputGroups_ op; groups_ :=
     groups_ op; numGroups_ := numGroups_ op; noMoreInput_ := noMoreInput_ op;
     calls_ := calls_ op |}.

Definition set_rows (x : option RowContainer) (op : Operator) : Operator :=
  {| outputBatchSize_ := outputBatchSize_ op; aggregationNode_ :=
     aggregationNode_ op; step_ := step_ op; groupingKeys_ := groupingKeys_ op;
     aggregates_ := aggregates_ op; args_ := args_ op; constantArgs_ :=
     constantArgs_ op; masks_ := masks_ op; rows_ := x; decodedKeys_ :=
     decodedKeys_ op; input_ := input_ op; prevInput_ := prevInput_ op;
     inputRows_ := inputRows_ op; inputGroups_ := inputGroups_ op; groups_ :=
     groups_ op; numGroups_ := numGroups_ op; noMoreInput_ := noMoreInput_ op;
     calls_ := calls_ op |}.

Definition set_decodedKeys (x : list Vector) (op : Operator) : Operator :=
  {| outputBatchSize_ := outputBatchSize_ op; aggregationNode_ :=
     aggregationNode_ op; step_ := step_ op; groupingKeys_ := groupingKeys_ op;
     aggregates_ := aggregates_ op; args_ := args_ op; constantArgs_ :=
     constantArgs_ op; masks_ := masks_ op; rows_ := rows_ op; decodedKeys_ := x;
     input_ := input_ op; prevInput_ := prevInput_ op; inputRows_ := inputRows_
     op; inputGroups_ := inputGroups_ op; groups_ := groups_ op; numGroups_ :=
     numGroups_ op; noMoreInput_ := noMoreInput_ op; calls_ := calls_ op |}.

Definition set_input (x : option RowVector) (op : Operator) : Operator :=
  {| outputBatchSize_ := outputBatchSize_ op; aggregationNode_ :=
     aggregationNode_ op; step_ := step_ op; groupingKeys_ := groupingKeys_ op;
     aggregates_ := aggregates_ op; args_ := args_ op; constantArgs_ :=
     constantArgs_ op; masks_ := masks_ op; rows_ := rows_ op; decodedKeys_ :=
     decodedKeys_ op; input_ := x; prevInput_ := prevInput_ op; inputRows_ :=
     inputRows_ op; inputGroups_ := inputGroups_ op; groups_ := groups_ op;
     numGroups_ := numGroups_ op; noMoreInput_ := noMoreInput_ op; calls_ :=
     calls_ op |}.

Definition set_prevInput (x : option RowVector) (op : Operator) : Operator :=
  {| outputBatchSize_ := outputBatchSize_ op; aggregationNode_ :=
     aggregationNode_ op; step_ := step_ op; groupingKeys_ := groupingKeys_ op;
     aggregates_ := aggregates_ op; args_ := args_ op; constantArgs_ :=
     constantArgs_ op; masks_ := masks_ op; rows_ := rows_ op; decodedKeys_ :=
     decodedKeys_ op; input_ := input_ op; prevInput_ := x; inputRows_ :=
     inputRows_ op; inputGroups_ := inputGroups_ op; groups_ := groups_ op;
     numGroups_ := numGroups_ op; noMoreInput_ := noMoreInput_ op; calls_ :=
     calls_ op |}.

Definition set_inputRows (x : SelectivityVector) (op : Operator) : Operator :=
  {| outputBatchSize_ := outputBatchSize_ op; aggregationNode_ :=
     aggregationNode_ op; step_ := step_ op; groupingKeys_ := groupingKeys_ op;
     aggregates_ := aggregates_ op; args_ := args_ op; constantArgs_ :=
     constantArgs_ op; masks_ := masks_ op; rows_ := rows_ op; decodedKeys_ :=
     decodedKeys_ op; input_ := input_ op; prevInput_ := prevInput_ op;
     inputRows_ := x; inputGroups_ := inputGroups_ op; groups_ := groups_ op;
     numGroups_ := numGroups_ op; noMoreInput_ := noMoreInput_ op; calls_ :=
     calls_ op |}.

Definition set_inputGroups (x : list Ptr) (op : Operator) : Operator :=
  {| outputBatchSize_ := outputBatchSize_ op; aggregationNode_ :=
     aggregationNode_ op; step_ := step_ op; groupingKeys_ := groupingKeys_ op;
     aggregates_ := aggregates_ op; args_ := args_ op; constantArgs_ :=
     constantArgs_ op; masks_ := masks_ op; rows_ := rows_ op; decodedKeys_ :=
     decodedKeys_ op; input_ := input_ op; prevInput_ := prevInput_ op;
     inputRows_ := inputRows_ op; inputGroups_ := x; groups_ := groups_ op;
     numGroups_ := numGroups_ op; noMoreInput_ := noMoreInput_ op; calls_ :=
     calls_ op |}.

Definition set_groups (x : list Ptr) (op : Operator) : Operator :=
  {| outputBatchSize_ := outputBatchSize_ op; aggregationNode_ :=
     aggregationNode_ op; step_ := step_ op; groupingKeys_ := groupingKeys_ op;
     aggregates_ := aggregates_ op; args_ := args_ op; constantArgs_ :=
     constantArgs_ op; masks_ := masks_ op; rows_ := rows_ op; decodedKeys_ :=
     decodedKeys_ op; input_ := input_ op; prevInput_ := prevInput_ op;
     inputRows_ := inputRows_ op; inputGroups_ := inputGroups_ op; groups_ := x;
     numGroups_ := numGroups_ op; noMoreInput_ := noMoreInput_ op; calls_ :=
     calls_ op |}.

Definition set_numGroups (x : nat) (op : Operator) : Operator :=
  {| outputBatchSize_ := outputBatchSize_ op; aggregationNode_ :=
     aggregationNode_ op; step_ := step_ op; groupingKeys_ := groupingKeys_ op;
     aggregates_ := aggregates_ op; args_ := args_ op; constantArgs_ :=
     constantArgs_ op; masks_ := masks_ op; rows_ := rows_ op; decodedKeys_ :=
     decodedKeys_ op; input_ := input_ op; prevInput_ := prevInput_ op;
     inputRows_ := inputRows_ op; inputGroups_ := inputGroups_ op; groups_ :=
     groups_ op; numGroups_ := x; noMoreInput_ := noMoreInput_ op; calls_ :=
     calls_ op |}.

Definition set_noMoreInput (x : bool) (op : Operator) : Operator :=
  {| outputBatchSize_ := outputBatchSize_ op; aggregationNode_ :=
     aggregationNode_ op; step_ := step_ op; groupingKeys_ := groupingKeys_ op;
     aggregates_ := aggregates_ op; args_ := args_ op; constantArgs_ :=
     constantArgs_ op; masks_ := masks_ op; rows_ := rows_ op; decodedKeys_ :=
     decodedKeys_ op; input_ := input_ op; prevInput_ := prevInput_ op;
     inputRows_ := inputRows_ op; inputGroups_ := inputGroups_ op; groups_ :=
     groups_ op; numGroups_ := numGroups_ op; noMoreInput_ := x; calls_ := calls_
     op |}.

Definition set_calls (x : list Event) (op : Operator) : Operator :=
  {| outputBatchSize_ := outputBatchSize_ op; aggregationNode_ :=
     aggregationNode_ op; step_ := step_ op; groupingKeys_ := groupingKeys_ op;
     aggregates_ := aggregates_ op; args_ := args_ op; constantArgs_ :=
     constantArgs_ op; masks_ := masks_ op; rows_ := rows_ op; decodedKeys_ :=
     decodedKeys_ op; input_ := input_ op; prevInput_ := prevInput_ op;
     inputRows_ := inputRows_ op; inputGroups_ := inputGroups_ op; groups_ :=
     groups_ op; numGroups_ := numGroups_ op; noMoreInput_ := noMoreInput_ op;
     calls_ := x |}.

Definition record (e : Event) (op : Operator) : Operator :=
  set_calls (calls_ op ++ [e]) op.

(** ** The operator *)

(** The constructor: [outputBatchRows] is the engine's target for the number
    of rows of an output batch. *)
Definition construct (outputBatchRows : nat) (aggregationNode : AggregationNode)
    : Operator :=
  {| outputBatchSize_ := outputBatchRows;
     aggregationNode_ := Some aggregationNode;
     step_ := step aggregationNode;
     groupingKeys_ := [];
     aggregates_ := [];
     args_ := [];
     constantArgs_ := [];
     masks_ := None;
     rows_ := None;
     decodedKeys_ := [];
     input_ := None;
     prevInput_ := None;
     inputRows_ := [];
     inputGroups_ := [];
     groups_ := [];
     numGroups_ := 0;
     noMoreInput_ := false;
     calls_ := [] |}.

(** What the loop over the plan's aggregates builds: the kernels, the argument
    channels, the constant arguments and the mask channels. *)
Definition AggregateSetup : Type :=
  list Aggregate * list (list column_index_t) * list (list (option Vector))
  * list (option column_index_t).

Definition constantArg (arg : TypedExpr) : option Vector :=
  if (exprToChannel arg =? kConstantChannel)%N then
    match arg with
    | ConstantTypedExpr value => Some (ConstantVector value 1)
    | FieldAccessTypedExpr _ => None
    end
  else None.

Definition setupAggregate (nodeStep : Step) (setup : AggregateSetup)
    (aggregate : PlanAggregate) : Result AggregateSetup :=
  let '(kernels, args, constantArgs, maskChannels) := setup in
  match sortingKeys aggregate with
  | _ :: _ =>
      Raise (Unsupported
        "Streaming aggregation doesn't support aggregations over sorted inputs yet")
  | [] =>
      if distinct aggregate then
        Raise (Unsupported
          "Streaming aggregation doesn't support aggregations over distinct inputs yet")
      else
        let channels := map exprToChannel (callInputs aggregate) in
        let constants := map constantArg (callInputs aggregate) in
        let kernel :=
          createAggregate (callName aggregate)
            (if isPartialOutput nodeStep then kPartial else kSingle) in
        Ok (kernels ++ [kernel], args ++ [channels],
            constantArgs ++ [constants], maskChannels ++ [mask aggregate])
  end.

Definition initialize (op : Operator) : Result Operator :=
  let* node := require NullPointer (aggregationNode_ op) in
  let numKeys := length (groupingKeys node) in
  let decodedKeys := resize numKeys (FlatVector []) (decodedKeys_ op) in
  let groupingKeys := groupingKeys_ op ++ map exprToChannel (groupingKeys node) in
  let* setup :=
    foldM (setupAggregate (step node)) (aggregates node)
      (aggregates_ op, args_ op, constantArgs_ op, []) in
  let '(kernels, args, constantArgs, maskChannels) := setup in
  if ignoreNullKeys node then
    Raise (Unsupported
      "Streaming aggregation doesn't support ignoring null keys yet")
  else
    Ok {| outputBatchSize_ := outputBatchSize_ op;
          aggregationNode_ := None;
          step_ := step_ op;
          groupingKeys_ := groupingKeys;
          aggregates_ := kernels;
          args_ := args;
          constantArgs_ := constantArgs;
          masks_ := Some {| maskChannels := maskChannels; maskedRows := [] |};
          rows_ := Some {| keyCount := numKeys;
                           accumulatorCount := length (aggregates node);
                           storage := [] |};
          decodedKeys_ := decodedKeys;
          input_ := input_ op;
          prevInput_ := prevInput_ op;
          inputRows_ := inputRows_ op;
          inputGroups_ := inputGroups_ op;
          groups_ := groups_ op;
          numGroups_ := numGroups_ op;
          noMoreInput_ := noMoreInput_ op;
          calls_ := calls_ op |}.



Definition addInput (input : RowVector) (op : Operator) : Operator :=
  set_input (Some input) op.

(** [Operator::noMoreInput] of the base class. *)
Definition noMoreInput (op : Operator) : Operator :=
  set_noMoreInput true op.

Definition storeKey (group : Ptr) (index : nat) (op : Operator) (i : nat)
    : Result Operator :=
  let* rc := require NullPointer (rows_ op) in
  let* decoded := require OutOfBounds (decodedKeys_ op !! i) in
  let* rc' := store rc decoded index group i in
  Ok (record (Store index group i) (set_rows (Some rc') op)).

Definition storeKeys (group : Ptr) (index : nat) (op : Operator) : Result Operator :=
  foldM (storeKey group index) (seq 0 (length (groupingKeys_ op))) op.

Definition startNewGroup (index : nat) (op : Operator) : Result (Ptr * Operator) :=
  if numGroups_ op <? length (groups_ op) then
    let* group := require OutOfBounds (groups_ op !! numGroups_ op) in
    let op := set_numGroups (S (numGroups_ op)) op in
    let* rc := require NullPointer (rows_ op) in
    let* rc' := initializeRow rc group true in
    let op := record (InitializeRow group true) (set_rows (Some rc') op) in
    let* op := storeKeys group index op in
    Ok (group, op)
  else
    let* rc := require NullPointer (rows_ op) in
    let '(newGroup, rc') := newRow rc in
    let op := record (NewRow newGroup) (set_rows (Some rc') op) in
    let* op := storeKeys newGroup index op in
    let op := set_groups (resize (numGroups_ op + 1) nullptr (groups_ op)) op in
    let op := set_groups (<[numGroups_ op := newGroup]> (groups_ op)) op in
    let op := set_numGroups (S (numGroups_ op)) op in
    Ok (newGroup, op).

(** The output vector is created with the columns of [outputType_]: the
    grouping keys followed by the aggregates. Column [i] is filled from the
    keys, column [numKeys + i] from aggregate [i]. *)
Definition extractKeyColumn (numGroups : nat) (state : list Vector * Operator)
    (i : nat) : Result (list Vector * Operator) :=
  let '(columns, op) := state in
  let* rc := require NullPointer (rows_ op) in
  let* column := extractColumn rc (groups_ op) numGroups i in
  Ok (columns ++ [column], record (ExtractColumn (groups_ op) numGroups i) op).

Definition extractAggregateColumn (numGroups : nat)
    (state : list Vector * Operator) (i : nat) : Result (list Vector * Operator) :=
  let '(columns, op) := state in
  let* aggregate := require OutOfBounds (aggregates_ op !! i) in
  let* rc := require NullPointer (rows_ op) in
  if isPartialOutput (step_ op) then
    let* column := extractAccumulators aggregate i (groups_ op) numGroups rc in
    Ok (columns ++ [column],
        record (ExtractAccumulators i (groups_ op) numGroups) op)
  else
    let* column := extractValues aggregate i (groups_ op) numGroups rc in
    Ok (columns ++ [column], record (ExtractValues i (groups_ op) numGroups) op).

Definition createOutput (numGroups : nat) (op : Operator)
    : Result (RowVector * Operator) :=
  let* (keyColumns, op) :=
    foldM (extractKeyColumn numGroups) (seq 0 (length (groupingKeys_ op)))
      ([], op) in
  let* (aggregateColumns, op) :=
    foldM (extractAggregateColumn numGroups) (seq 0 (length (aggregates_ op)))
      ([], op) in
  Ok ({| rowCount := numGroups; children := keyColumns ++ aggregateColumns |}, op).

(** [v[index]] of a [std::vector]; [numGroups_ - 1] is computed in unsigned
    arithmetic, and both the wrapped value and a negative one are out of range. *)
Definition vectorAt {A} (v : list A) (index : Z) : Result A :=
  if (index <? 0)%Z then Raise OutOfBounds
  else require OutOfBounds (v !! Z.to_nat index).

Definition setInputGroup (index : nat) (group : Ptr) (op : Operator) : Operator :=
  set_inputGroups (<[index := group]> (inputGroups_ op)) op.

(** The first loop of [assignGroups]: rows that continue the last group of
    the previous batch. [remaining] counts the rows not yet looked at. *)
Fixpoint continueLastGroup (remaining : nat) (prevInput : RowVector)
    (prevIndex : Z) (prevGroup : Ptr) (input : RowVector) (index : nat)
    (op : Operator) : Result (nat * Operator) :=
  match remaining with
  | 0 => Ok (index, op)
  | S remaining' =>
      let* equal :=
        equalKeys (groupingKeys_ op) prevInput prevIndex input (Z.of_nat index) in
      if equal then
        continueLastGroup remaining' prevInput prevIndex prevGroup input
          (S index) (setInputGroup index prevGroup op)
      else Ok (index, op)
  end.

Definition decodeKey (input : RowVector) (op : Operator) (i : nat)
    : Result Operator :=
  let* key := require OutOfBounds (groupingKeys_ op !! i) in
  let* column := childAt input key in
  if i <? length (decodedKeys_ op) then
    Ok (set_decodedKeys (<[i := column]> (decodedKeys_ op)) op)
  else Raise OutOfBounds.

(** The body of the second loop: row [i] joins the group of row [index] or
    opens a new one. *)
Definition assignRow (input : RowVector) (state : nat * Operator) (i : nat)
    : Result (nat * Operator) :=
  let '(index, op) := state in
  let* equal :=
    equalKeys (groupingKeys_ op) input (Z.of_nat index) input (Z.of_nat i) in
  if equal then
    let* group := require OutOfBounds (inputGroups_ op !! index) in
    Ok (index, setInputGroup i group op)
  else
    let* (newGroup, op) := startNewGroup i op in
    Ok (i, setInputGroup i newGroup op).

Definition assignGroups (op : Operator) : Result Operator :=
  let* input := require NullPointer (input_ op) in
  let numInput := rowCount input in
  let op := set_inputGroups (resize numInput nullptr (inputGroups_ op)) op in
  let* (index, op) :=
    match prevInput_ op with
    | Some prevInput =>
        let prevIndex := (Z.of_nat (rowCount prevInput) - 1)%Z in
        let* prevGroup :=
          vectorAt (groups_ op) (Z.of_nat (numGroups_ op) - 1)%Z in
        continueLastGroup numInput prevInput prevIndex prevGroup input 0 op
    | None => Ok (0, op)
    end in
  if index <? numInput then
    let* op := foldM (decodeKey input) (seq 0 (length (groupingKeys_ op))) op in
    let* (newGroup, op) := startNewGroup index op in
    let op := setInputGroup index newGroup op in
    let* (_, op) :=
      foldM (assignRow input) (seq (index + 1) (numInput - (index + 1)))
        (index, op) in
    Ok op
  else Ok op.

Definition getSelectivityVector (aggregateIndex : nat) (op : Operator)
    : Result SelectivityVector :=
  let* masks := require NullPointer (masks_ op) in
  match activeRows masks aggregateIndex with
  | Some rows => Ok rows
  | None => Ok (inputRows_ op)
  end.

Definition pushArg (op : Operator) (i : nat) (channels : list column_index_t)
    (args : list (option Vector)) (j : nat) : Result (list (option Vector)) :=
  let* channel := require OutOfBounds (channels !! j) in
  if (channel =? kConstantChannel)%N then
    let* constants := require OutOfBounds (constantArgs_ op !! i) in
    let* constant := require OutOfBounds (constants !! j) in
    Ok (args ++ [constant])
  else
    let* input := require NullPointer (input_ op) in
    let* column := childAt input channel in
    Ok (args ++ [Some column]).

Definition evaluateAggregate (op : Operator) (i : nat) : Result Operator :=
  let* aggregate := require OutOfBounds (aggregates_ op !! i) in
  let* channels := require OutOfBounds (args_ op !! i) in
  let* args := foldM (pushArg op i channels) (seq 0 (length channels)) [] in
  let* rows := getSelectivityVector i op in
  let* rc := require NullPointer (rows_ op) in
  if isRawInput (step_ op) then
    let* rc' := addRawInput aggregate i (inputGroups_ op) rows args rc in
    Ok (record (AddRawInput i (inputGroups_ op) rows args false)
          (set_rows (Some rc') op))
  else
    let* rc' := addIntermediateResults aggregate i (inputGroups_ op) rows args rc in
    Ok (record (AddIntermediateResults i (inputGroups_ op) rows args false)
          (set_rows (Some rc') op)).

Definition evaluateAggregates (op : Operator) : Result Operator :=
  foldM evaluateAggregate (seq 0 (length (aggregates_ op))) op.

Definition isFinished (op : Operator) : bool :=
  noMoreInput_ op && bool_decide (input_ op = None) && (numGroups_ op =? 0).

Definition initializeAggregate (newGroups : list nat) (op : Operator) (i : nat)
    : Result Operator :=
  let* aggregate := require OutOfBounds (aggregates_ op !! i) in
  let* rc := require NullPointer (rows_ op) in
  let* rc' := initializeNewGroups aggregate i (groups_ op) newGroups rc in
  Ok (record (InitializeNewGroups i (groups_ op) newGroups)
        (set_rows (Some rc') op)).

(** [std::copy(first, last, out)] into a vector that is large enough. *)
Definition std_copy {A} (source destination : list A) (position : nat) : list A :=
  take position destination ++ source
  ++ drop (position + length source) destination.

(** The rotation of [groups_] after [outputBatchSize_] groups were emitted. *)
Definition rotateGroups (op : Operator) : Result Operator :=
  let n := outputBatchSize_ op in
  let groups := groups_ op in
  if length groups <? n then Raise OutOfBounds
  else
    let copy := replicate (length groups) nullptr in
    let copy := std_copy (drop n groups) copy 0 in
    let copy := std_copy (take n groups) copy (length groups - n) in
    Ok (set_numGroups (numGroups_ op - n) (set_groups copy op)).

Definition getOutput (op : Operator) : Result (option RowVector * Operator) :=
  match input_ op with
  | None =>
      if noMoreInput_ op && (0 <? numGroups_ op) then
        let* (output, op) := createOutput (numGroups_ op) op in
        Ok (Some output, set_numGroups 0 op)
      else Ok (None, op)
  | Some input =>
      let numInput := rowCount input in
      let op := set_inputRows (replicate numInput true) op in
      let* masks := require NullPointer (masks_ op) in
      let* masks' := masksAddInput masks input (inputRows_ op) in
      let op := record (MasksAddInput input (inputRows_ op))
                  (set_masks (Some masks') op) in
      let numPrevGroups := numGroups_ op in
      let* op := assignGroups op in
      let newGroups := seq numPrevGroups (numGroups_ op - numPrevGroups) in
      let* op :=
        foldM (initializeAggregate newGroups) (seq 0 (length (aggregates_ op)))
          op in
      let* op := evaluateAggregates op in
      let* (output, op) :=
        if outputBatchSize_ op <? numGroups_ op then
          let* (output, op) := createOutput (outputBatchSize_ op) op in
          let* op := rotateGroups op in
          Ok (Some output, op)
        else Ok (None, op) in
      Ok (output, set_input None (set_prevInput (input_ op) op))
  end.

(** ** The driver *)

(** Modelled from the spec: the pull loop of the engine's driver ([Driver.cpp]
    is not part of the sources). The driver pushes a batch, pulls once, and
    repeats; after the last batch it signals the end of the input and, unless
    the operator is finished, pulls once more, which flushes the open groups. *)
Fixpoint drive (stream : list RowVector) (op : Operator)
    : Result (list RowVector * Operator) :=
  match stream with
  | [] =>
      let op := noMoreInput op in
      if isFinished op then Ok ([], op)
      else
        let* (output, op) := getOutput op in
        Ok (option_list output, op)
  | input :: stream' =>
      let* (output, op) := getOutput (addInput input op) in
      let* (outputs, op) := drive stream' op in
      Ok (option_list output ++ outputs, op)
  end.

Definition run (outputBatchRows : nat) (node : AggregationNode)
    (stream : list RowVector) : Result (list RowVector) :=
  let* op := initialize (construct outputBatchRows node) in
  let* (outputs, _) := drive stream op in
  Ok outputs.

(** ** Row-major view of a batch *)

Definition vectorSize (v : Vector) : nat :=
  match v with
  | FlatVector values => length values
  | ConstantVector _ size => size
  end.

Definition readValue (column : Vector) (row : nat) : Value :=
  match valueAt column (Z.of_nat row) with
  | Ok value => value
  | Raise _ => None
  end.

Definition rowValues (batch : RowVector) (row : nat) : list Value :=
  map (fun column => readValue column row) (children batch).

(** The rows of a batch, each as the list of its column values. *)
Definition tableOf (batch : RowVector) : list (list Value) :=
  map (rowValues batch) (seq 0 (rowCount batch)).

Definition columnOf (row : list Value) (channel : column_index_t) : Value :=
  default None (row !! N.to_nat channel).

Definition keyOf (keys : list column_index_t) (row : list Value) : list Value :=
  map (columnOf row) keys.

(** ** Reference group-by, following the words of the specification

    A group is a maximal run of consecutive rows with the same grouping-key
    tuple; the reference result has one row per run: the key tuple of the run
    followed by one value per aggregate, obtained by folding the rows of the
    run that pass the aggregate's mask into a fresh kernel state. *)

Fixpoint runsFrom {R K} `{EqDecision K} (key : R -> K) (current : list R)
    (previous : R) (rows : list R) : list (list R) :=
  match rows with
  | [] => [current]
  | row :: rows' =>
      if bool_decide (key row = key previous)
      then runsFrom key (current ++ [row]) row rows'
      else current :: runsFrom key [row] row rows'
  end.

Definition runs {R K} `{EqDecision K} (key : R -> K) (rows : list R)
    : list (list R) :=
  match rows with
  | [] => []
  | row :: rows' => runsFrom key [row] row rows'
  end.

(** The distinct keys of a list, in the order of their first occurrence. *)
Fixpoint distinctKeys {K} `{EqDecision K} (ks : list K) : list K :=
  match ks with
  | [] => []
  | k :: ks' => k :: filter (fun k' => k' <> k) (distinctKeys ks')
  end.

Definition argValue (row : list Value) (arg : TypedExpr) : Value :=
  match arg with
  | FieldAccessTypedExpr channel => columnOf row channel
  | ConstantTypedExpr value => value
  end.

Definition isTrue (value : Value) : bool :=
  match value with
  | Some z => negb (z =? 0)%Z
  | None => false
  end.

Definition passesMask (mask : option column_index_t) (row : list Value) : bool :=
  match mask with
  | Some channel => isTrue (columnOf row channel)
  | None => true
  end.

Definition kernelOf (node : AggregationNode) (aggregate : PlanAggregate)
    : Aggregate :=
  createAggregate (callName aggregate)
    (if isPartialOutput (step node) then kPartial else kSingle).

Definition updateOf (nodeStep : Step) (kernel : Aggregate)
    : Acc -> list Value -> Acc :=
  if isRawInput nodeStep then rawInput kernel else intermediateInput kernel.

Definition extractOf (nodeStep : Step) (kernel : Aggregate) : Acc -> Value :=
  if isPartialOutput nodeStep then accumulatorValue kernel else finalValue kernel.

Definition accumulateRow (node : AggregationNode) (aggregate : PlanAggregate)
    (acc : Acc) (row : list Value) : Acc :=
  if passesMask (mask aggregate) row then
    updateOf (step node) (kernelOf node aggregate) acc
      (map (argValue row) (callInputs aggregate))
  else acc.

Definition accumulate (node : AggregationNode) (aggregate : PlanAggregate)
    (run : list (list Value)) : Acc :=
  fold_left (accumulateRow node aggregate) run
    (initialState (kernelOf node aggregate)).

Definition nodeKeys (node : AggregationNode) : list column_index_t :=
  map exprToChannel (groupingKeys node).

Definition runKey (node : AggregationNode) (run : list (list Value)) : list Value :=
  keyOf (nodeKeys node) (default [] (head run)).

Definition referenceRow (node : AggregationNode) (run : list (list Value))
    : list Value :=
  runKey node run
  ++ map (fun aggregate =>
            extractOf (step node) (kernelOf node aggregate)
              (accumulate node aggregate run)) (aggregates node).

Definition referenceGroupBy (node : AggregationNode) (rows : list (list Value))
    : list (list Value) :=
  map (referenceRow node) (runs (keyOf (nodeKeys node)) rows).

(** ** Well-formed inputs *)

(** A batch of [width] columns, each with one value per row. *)
Definition wellFormedBatch (width : nat) (batch : RowVector) : bool :=
  (length (children batch) =? width)
  && forallb (fun column => vectorSize column =? rowCount batch) (children batch).

Definition isInputField (width : nat) (e : TypedExpr) : bool :=
  match e with
  | FieldAccessTypedExpr channel => (channel <? N.of_nat width)%N
  | ConstantTypedExpr _ => false
  end.

Definition isArgument (width : nat) (e : TypedExpr) : bool :=
  match e with
  | FieldAccessTypedExpr channel =>
      (channel <? N.of_nat width)%N && negb (channel =? kConstantChannel)%N
  | ConstantTypedExpr _ => true
  end.

Definition isMask (width : nat) (mask : option column_index_t) : bool :=
  match mask with
  | Some channel => (channel <? N.of_nat width)%N
  | None => true
  end.

(** The plan refers only to columns of the input. *)
Definition wellFormedNode (width : nat) (node : AggregationNode) : bool :=
  forallb (isInputField width) (groupingKeys node)
  && forallb (fun aggregate =>
                forallb (isArgument width) (callInputs aggregate)
                && isMask width (mask aggregate)) (aggregates node).

(** None of the three unsupported features is requested. *)
Definition isSupportedAggregate (aggregate : PlanAggregate) : bool :=
  match sortingKeys aggregate with
  | [] => negb (distinct aggregate)
  | _ :: _ => false
  end.

Definition isSupported (node : AggregationNode) : bool :=
  forallb isSupportedAggregate (aggregates node) && negb (ignoreNullKeys node).

End StreamingAggregation.

Arguments Aggregate : clear implicits.
Arguments Row : clear implicits.
Arguments RowContainer : clear implicits.
Arguments Operator : clear implicits.
Arguments AggregateSetup : clear implicits.

(** * Reasoning about results and loops *)

Lemma bind_Ok {A B} (m : Result A) (k : A -> Result B) (b : B) :
  bind m k = Ok b <-> exists a, m = Ok a /\ k a = Ok b.
Proof.
  destruct m as [a|e]; simpl.
  - split; [eauto | intros (a' & Ha & Hk); congruence].
  - split; [discriminate | intros (a' & Ha & Hk); discriminate].
Qed.

Lemma require_Ok {A} (e : VeloxError) (o : option A) (a : A) :
  require e o = Ok a <-> o = Some a.
Proof. destruct o; simpl; split; congruence. Qed.

Section Results.

Context {A B : Type}.

Lemma foldM_app (f : A -> B -> Result A) (l1 l2 : list B) (a : A) :
  foldM f (l1 ++ l2) a = let* a' := foldM f l1 a in foldM f l2 a'.
Proof.
  revert a; induction l1 as [|b l1 IH]; intros a; simpl; [done|].
  destruct (f a b); simpl; auto.
Qed.

(** A relation that holds across every iteration holds across the loop. *)
Lemma foldM_preserves (R : A -> A -> Prop) (f : A -> B -> Result A)
    (l : list B) (a a' : A) :
  (forall x, R x x) ->
  (forall x y z, R x y -> R y z -> R x z) ->
  (forall x b y, b ∈ l -> f x b = Ok y -> R x y) ->
  foldM f l a = Ok a' -> R a a'.
Proof.
  intros Hrefl Htrans.
  revert a; induction l as [|b l IH]; intros a Hstep Hfold; simpl in *.
  - injection Hfold as <-. apply Hrefl.
  - apply bind_Ok in Hfold as (x & Hx & Hfold).
    eapply Htrans.
    + eapply Hstep; [left | exact Hx].
    + apply IH; [|exact Hfold].
      intros ? ? ? ?. apply Hstep. by right.
Qed.

Lemma mapM_result_Ok (f : A -> Result B) (l : list A) (bs : list B) :
  mapM_result f l = Ok bs <-> Forall2 (fun a b => f a = Ok b) l bs.
Proof.
  revert bs; induction l as [|a l IH]; intros bs; simpl.
  - split.
    + intros [= <-]. constructor.
    + intros H. by inversion H.
  - split.
    + intros H. apply bind_Ok in H as (b & Hb & H).
      apply bind_Ok in H as (bs' & Hbs & [= <-]).
      constructor; [done|]. by apply IH.
    + intros H. inversion H as [|? b ? bs' Hb Hbs]; subst.
      rewrite Hb; simpl. apply IH in Hbs. by rewrite Hbs.
Qed.

Lemma mapM_result_total (f : A -> Result B) (g : A -> B) (l : list A) :
  (forall a, a ∈ l -> f a = Ok (g a)) ->
  mapM_result f l = Ok (map g l).
Proof.
  intros H. apply mapM_result_Ok.
  induction l as [|a l IH]; simpl; constructor.
  - apply H. left.
  - apply IH. intros ? ?. apply H. by right.
Qed.

Lemma mapM_result_length (f : A -> Result B) (l : list A) (bs : list B) :
  mapM_result f l = Ok bs -> length bs = length l.
Proof. intros H%mapM_result_Ok. symmetry. by eapply Forall2_length. Qed.

End Results.

(** Taking apart a computation that is known to succeed. *)
Ltac ok_inv :=
  repeat match goal with
  | H : bind _ _ = Ok _ |- _ =>
      let x := fresh "x" in
      let Hx := fresh "Hx" in
      apply bind_Ok in H as (x & Hx & H)
  | H : require _ _ = Ok _ |- _ => apply require_Ok in H
  | H : Ok _ = Ok _ |- _ => injection H as H
  | H : Raise _ = Ok _ |- _ => discriminate H
  | H : (let '(_, _) := ?p in _) = Ok _ |- _ => destruct p
  end.

(** Loops over an index range, with an invariant that knows the position. *)
Lemma foldM_seq_ind {A} (P : nat -> A -> Prop) (f : A -> nat -> Result A)
    (start len : nat) (a a' : A) :
  P start a ->
  (forall i x y, start <= i < start + len -> P i x -> f x i = Ok y -> P (S i) y) ->
  foldM f (seq start len) a = Ok a' ->
  P (start + len) a'.
Proof.
  revert start a. induction len as [|len IH]; intros start a Ha Hstep Hfold.
  - simpl in Hfold. injection Hfold as <-. by rewrite Nat.add_0_r.
  - cbn [seq foldM] in Hfold. apply bind_Ok in Hfold as (x & Hx & Hfold).
    replace (start + S len) with (S start + len) by lia.
    eapply IH; [|intros i ? ? ?; apply Hstep; lia|exact Hfold].
    eapply Hstep; [|exact Ha|exact Hx]. lia.
Qed.

(** The same for a loop that cannot fail. *)
Lemma fold_left_seq_ind {A} (P : nat -> A -> Prop) (f : A -> nat -> A)
    (start len : nat) (a : A) :
  P start a ->
  (forall i x, start <= i < start + len -> P i x -> P (S i) (f x i)) ->
  P (start + len) (fold_left f (seq start len) a).
Proof.
  revert start a. induction len as [|len IH]; intros start a Ha Hstep.
  - simpl. by rewrite Nat.add_0_r.
  - cbn [seq fold_left].
    replace (start + S len) with (S start + len) by lia.
    apply IH; [|intros i ? ? ?; apply Hstep; [lia|done]].
    apply Hstep; [lia|done].
Qed.

Lemma filter_all {A} (P : A -> Prop) `{forall x, Decision (P x)} (l : list A) :
  Forall P l -> filter P l = l.
Proof.
  induction 1 as [|x l Hx Hl IH]; [done|].
  by rewrite filter_cons_True, IH.
Qed.

(** * Initialization *)

Section Initialization.

Context {Acc : Type}.
Variable createAggregate : string -> Step -> Aggregate Acc.

Definition kernelStep (nodeStep : Step) : Step :=
  if isPartialOutput nodeStep then kPartial else kSingle.

Lemma setupAggregate_supported nodeStep kernels args constantArgs maskChannels
    aggregate :
  isSupportedAggregate aggregate = true ->
  setupAggregate createAggregate nodeStep
    (kernels, args, constantArgs, maskChannels) aggregate
  = Ok (kernels ++ [createAggregate (callName aggregate) (kernelStep nodeStep)],
        args ++ [map exprToChannel (callInputs aggregate)],
        constantArgs ++ [map constantArg (callInputs aggregate)],
        maskChannels ++ [mask aggregate]).
Proof.
  unfold isSupportedAggregate, setupAggregate.
  destruct (sortingKeys aggregate); [|discriminate].
  destruct (distinct aggregate); [discriminate|done].
Qed.

Lemma setupAggregate_unsupported nodeStep setup aggregate :
  isSupportedAggregate aggregate = false ->
  exists message,
    setupAggregate createAggregate nodeStep setup aggregate
    = Raise (Unsupported message).
Proof.
  unfold isSupportedAggregate, setupAggregate.
  destruct setup as [[[? ?] ?] ?].
  destruct (sortingKeys aggregate); [|eauto].
  destruct (distinct aggregate); [eauto|discriminate].
Qed.

Lemma setup_supported nodeStep aggregates kernels args constantArgs maskChannels :
  forallb isSupportedAggregate aggregates = true ->
  foldM (setupAggregate createAggregate nodeStep) aggregates
    (kernels, args, constantArgs, maskChannels)
  = Ok (kernels
          ++ map (fun a => createAggregate (callName a) (kernelStep nodeStep))
               aggregates,
        args ++ map (fun a => map exprToChannel (callInputs a)) aggregates,
        constantArgs ++ map (fun a => map constantArg (callInputs a)) aggregates,
        maskChannels ++ map mask aggregates).
Proof.
  revert kernels args constantArgs maskChannels.
  induction aggregates as [|a aggregates IH]; intros ks ars cs ms H; cbn [foldM forallb map] in *.
  - by rewrite !app_nil_r.
  - apply andb_true_iff in H as [Ha H].
    rewrite setupAggregate_supported by done. cbn [bind].
    rewrite IH by done. by rewrite <- !app_assoc.
Qed.

Lemma setup_unsupported nodeStep aggregates setup :
  forallb isSupportedAggregate aggregates = false ->
  exists message,
    foldM (setupAggregate createAggregate nodeStep) aggregates setup
    = Raise (Unsupported message).
Proof.
  revert setup.
  induction aggregates as [|a aggregates IH]; intros setup H; cbn [foldM forallb] in *.
  - discriminate.
  - destruct (isSupportedAggregate a) eqn:Ha; simpl in H.
    + destruct setup as [[[ks ars] cs] ms].
      rewrite setupAggregate_supported by done. cbn [bind]. by apply IH.
    + destruct (setupAggregate_unsupported nodeStep setup a Ha) as [m ->].
      simpl. eauto.
Qed.

(** The state of an operator right after a successful [initialize]. *)
Definition initialized (outputBatchRows : nat) (node : AggregationNode)
    : Operator Acc :=
  {| outputBatchSize_ := outputBatchRows;
     aggregationNode_ := None;
     step_ := step node;
     groupingKeys_ := map exprToChannel (groupingKeys node);
     aggregates_ :=
       map (fun a => createAggregate (callName a) (kernelStep (step node)))
         (aggregates node);
     args_ := map (fun a => map exprToChannel (callInputs a)) (aggregates node);
     constantArgs_ := map (fun a => map constantArg (callInputs a)) (aggregates node);
     masks_ := Some {| maskChannels := map mask (aggregates node);
                       maskedRows := [] |};
     rows_ := Some {| keyCount := length (groupingKeys node);
                      accumulatorCount := length (aggregates node);
                      storage := [] |};
     decodedKeys_ := replicate (length (groupingKeys node)) (FlatVector []);
     input_ := None;
     prevInput_ := None;
     inputRows_ := [];
     inputGroups_ := [];
     groups_ := [];
     numGroups_ := 0;
     noMoreInput_ := false;
     calls_ := [] |}.

Lemma initialize_supported outputBatchRows node :
  isSupported node = true ->
  initialize createAggregate (construct outputBatchRows node)
  = Ok (initialized outputBatchRows node).
Proof.
  unfold isSupported. intros [Haggs Hnull%negb_true_iff]%andb_true_iff.
  unfold initialize; simpl.
  rewrite setup_supported by done. simpl. by rewrite Hnull, resize_nil.
Qed.

Lemma initialize_unsupported outputBatchRows node :
  isSupported node = false ->
  exists message,
    initialize createAggregate (construct outputBatchRows node)
    = Raise (Unsupported message).
Proof.
  unfold isSupported, initialize; simpl. intros H.
  destruct (forallb isSupportedAggregate (aggregates node)) eqn:Haggs.
  - rewrite setup_supported by done. simpl.
    simpl in H. apply negb_false_iff in H. rewrite H. eauto.
  - destruct (setup_unsupported (step node) (aggregates node) ([], [], [], []) Haggs)
      as [m ->].
    simpl. eauto.
Qed.

(** C6. A plan that asks for an aggregate over sorted inputs, for a distinct
    aggregate or for [ignoreNullKeys] makes [initialize] raise an
    unsupported-feature error, so that no stream of batches is ever accepted
    or processed; a plan that asks for none of the three initializes. *)
Theorem initialize_rejects_unsupported_features outputBatchRows node :
  if isSupported node then
    exists op, initialize createAggregate (construct outputBatchRows node) = Ok op
  else
    exists message,
      initialize createAggregate (construct outputBatchRows node)
      = Raise (Unsupported message)
      /\ forall stream,
           run createAggregate outputBatchRows node stream
           = Raise (Unsupported message).
Proof.
  destruct (isSupported node) eqn:H.
  - eexists. by apply initialize_supported.
  - destruct (initialize_unsupported outputBatchRows node H) as [m Hm].
    exists m. split; [done|]. intros stream. unfold run. by rewrite Hm.
Qed.

End Initialization.

(** * The group slot pool *)

Section SlotPool.

Context {Acc : Type}.
Implicit Types (op : Operator Acc) (rc : RowContainer Acc) (row : Row Acc).
Implicit Types (p q : Ptr) (G : list Ptr).

(** ** Rotation *)

Lemma rotate_copies (n : nat) (G : list Ptr) :
  n <= length G ->
  std_copy (take n G)
    (std_copy (drop n G) (replicate (length G) nullptr) 0) (length G - n)
  = drop n G ++ take n G.
Proof.
  intros Hn. unfold std_copy at 2. simpl.
  rewrite length_drop, drop_replicate.
  replace (length G - (length G - n)) with n by lia.
  unfold std_copy.
  rewrite take_app_length' by (rewrite length_drop; lia).
  rewrite length_take.
  rewrite (drop_ge (_ ++ _)).
  - by rewrite app_nil_r.
  - rewrite length_app, length_drop, length_replicate. lia.
Qed.

Lemma rotateGroups_spec op :
  outputBatchSize_ op <= length (groups_ op) ->
  rotateGroups op
  = Ok (set_numGroups (numGroups_ op - outputBatchSize_ op)
          (set_groups (drop (outputBatchSize_ op) (groups_ op)
                       ++ take (outputBatchSize_ op) (groups_ op)) op)).
Proof.
  intros Hn. unfold rotateGroups.
  destruct (Nat.ltb_spec (length (groups_ op)) (outputBatchSize_ op)); [lia|].
  by rewrite rotate_copies.
Qed.


(** ** Rows of the container *)

Lemma rowAt_valid rc p row :
  rowAt rc p = Some row -> 1 <= p <= length (storage rc).
Proof.
  destruct p as [|i]; simpl; [discriminate|].
  intros H%lookup_lt_Some. lia.
Qed.

Lemma rowAt_is_Some rc p :
  is_Some (rowAt rc p) <-> 1 <= p <= length (storage rc).
Proof.
  split.
  - intros [row H]. by eapply rowAt_valid.
  - intros [H1 H2]. destruct p as [|i]; [lia|]. simpl.
    apply lookup_lt_is_Some. lia.
Qed.

Lemma rowAt_setRow_eq rc p row :
  is_Some (rowAt rc p) -> rowAt (setRow rc p row) p = Some row.
Proof.
  intros H%rowAt_is_Some. destruct p as [|i]; [lia|]. simpl.
  apply list_lookup_insert_eq. lia.
Qed.

Lemma rowAt_setRow_ne rc p q row :
  p <> q -> p <> 0 -> rowAt (setRow rc p row) q = rowAt rc q.
Proof.
  intros Hne Hp. destruct q as [|j]; [done|]. destruct p as [|i]; [done|].
  simpl. apply list_lookup_insert_ne. congruence.
Qed.

Lemma setRow_setRow rc p row row' :
  setRow (setRow rc p row) p row' = setRow rc p row'.
Proof. unfold setRow. simpl. by rewrite list_insert_insert_eq. Qed.

Lemma storage_setRow_length rc p row :
  length (storage (setRow rc p row)) = length (storage rc).
Proof. simpl. apply length_insert. Qed.

Lemma rowAt_newRow_old rc p :
  p <> S (length (storage rc)) -> rowAt (newRow rc).2 p = rowAt rc p.
Proof.
  intros Hp. destruct p as [|i]; [done|]. simpl.
  destruct (decide (i < length (storage rc))).
  - by rewrite lookup_app_l.
  - rewrite !lookup_ge_None_2; [done|lia|].
    rewrite length_app. simpl. lia.
Qed.

Lemma rowAt_newRow_new rc :
  rowAt (newRow rc).2 (newRow rc).1 = Some (blankRow rc).
Proof.
  simpl. rewrite lookup_app_r by lia. by rewrite Nat.sub_diag.
Qed.

End SlotPool.

(** * Opening a group *)

Section StartNewGroup.

Context {Acc : Type}.
Implicit Types (op : Operator Acc) (rc : RowContainer Acc) (row : Row Acc).
Implicit Types (p q : Ptr) (G : list Ptr) (key : list Value).

(** The grouping-key values of row [index] as [decodedKeys_] holds them. *)
Definition decodedKey op (index : nat) key : Prop :=
  length key = length (groupingKeys_ op)
  /\ forall i v, key !! i = Some v ->
       exists column,
         decodedKeys_ op !! i = Some column
         /\ valueAt column (Z.of_nat index) = Ok v.

(** A slot that holds a key and whose accumulators no kernel has initialized. *)
Definition openedRow rc key : Row Acc :=
  {| keys := key; accumulators := replicate (accumulatorCount rc) None |}.

Lemma store_spec rc column index p i row v :
  valueAt column (Z.of_nat index) = Ok v ->
  rowAt rc p = Some row ->
  i < length (keys row) ->
  store rc column index p i
  = Ok (setRow rc p {| keys := <[i := v]> (keys row);
                       accumulators := accumulators row |}).
Proof.
  intros Hv Hrow Hi. unfold store. rewrite Hv, Hrow. simpl.
  by destruct (Nat.ltb_spec i (length (keys row))); [|lia].
Qed.

Lemma storeKeys_loop p index key len : forall start op rc row,
  rows_ op = Some rc ->
  rowAt rc p = Some row ->
  length (keys row) = start + len ->
  length key = start + len ->
  (forall i v, key !! i = Some v ->
     exists column,
       decodedKeys_ op !! i = Some column
       /\ valueAt column (Z.of_nat index) = Ok v) ->
  foldM (storeKey p index) (seq start len) op
  = Ok (set_calls (calls_ op ++ map (Store index p) (seq start len))
          (set_rows
             (Some (setRow rc p
                      {| keys := take start (keys row) ++ drop start key;
                         accumulators := accumulators row |})) op)).
Proof.
  induction len as [|len IH]; intros start op rc row Hrc Hrow Hkeys Hkey Hdec.
  - simpl. f_equal.
    rewrite take_ge, drop_ge, !app_nil_r by lia.
    destruct row as [ks accs]; simpl.
    assert (setRow rc p {| keys := ks; accumulators := accs |} = rc) as ->.
    { destruct rc as [nk na st]. unfold setRow; simpl. f_equal.
      destruct p as [|i]; [done|]. by apply list_insert_id. }
    by rewrite <- Hrc.
  - cbn [seq foldM].
    destruct (lookup_lt_is_Some_2 key start) as [v Hv]; [lia|].
    destruct (Hdec start v Hv) as (column & Hcol & Hval).
    unfold storeKey at 1. rewrite Hrc. cbn [require bind]. rewrite Hcol.
    cbn [require bind].
    erewrite store_spec by (done || lia). cbn [bind].
    erewrite IH; cycle 1.
    + reflexivity.
    + apply rowAt_setRow_eq. by rewrite Hrow.
    + simpl. rewrite length_insert. lia.
    + lia.
    + exact Hdec.
    + f_equal. simpl. rewrite setRow_setRow.
      rewrite <- app_assoc. simpl.
      erewrite take_S_r by (apply list_lookup_insert_eq; lia).
      rewrite take_insert_ge by lia.
      rewrite <- app_assoc. simpl.
      by rewrite (drop_S key v start Hv).
Qed.

Lemma storeKeys_spec p index key op rc row :
  rows_ op = Some rc ->
  rowAt rc p = Some row ->
  length (keys row) = length (groupingKeys_ op) ->
  decodedKey op index key ->
  storeKeys p index op
  = Ok (set_calls
          (calls_ op
           ++ map (Store index p) (seq 0 (length (groupingKeys_ op))))
          (set_rows
             (Some (setRow rc p {| keys := key;
                                   accumulators := accumulators row |})) op)).
Proof.
  intros Hrc Hrow Hlen [Hkey Hdec]. unfold storeKeys.
  by erewrite storeKeys_loop.
Qed.

(** The row container after a fresh row holding [row] was appended. *)
Definition pushRow rc row : RowContainer Acc :=
  {| keyCount := keyCount rc;
     accumulatorCount := accumulatorCount rc;
     storage := storage rc ++ [row] |}.

Lemma setRow_newRow rc row :
  setRow (newRow rc).2 (newRow rc).1 row = pushRow rc row.
Proof.
  unfold setRow, pushRow; simpl. f_equal.
  rewrite insert_app_r_alt by lia. by rewrite Nat.sub_diag.
Qed.

Definition storeCalls op (index : nat) p : list Event :=
  map (Store index p) (seq 0 (length (groupingKeys_ op))).

Lemma startNewGroup_reuse op rc index key p :
  rows_ op = Some rc ->
  keyCount rc = length (groupingKeys_ op) ->
  groups_ op !! numGroups_ op = Some p ->
  is_Some (rowAt rc p) ->
  decodedKey op index key ->
  startNewGroup index op
  = Ok (p, set_calls (calls_ op ++ InitializeRow p true :: storeCalls op index p)
             (set_rows (Some (setRow rc p (openedRow rc key)))
                (set_numGroups (S (numGroups_ op)) op))).
Proof.
  intros Hrc Hcount Hp Hrow Hkey. unfold startNewGroup.
  pose proof (lookup_lt_Some _ _ _ Hp) as Hlt.
  destruct (Nat.ltb_spec (numGroups_ op) (length (groups_ op))); [|lia].
  rewrite Hp. cbn [require bind]. simpl. rewrite Hrc. cbn [require bind].
  unfold initializeRow. destruct Hrow as [row Hrow]. rewrite Hrow.
  cbn [require bind].
  erewrite storeKeys_spec with (key := key); cycle 1.
  - reflexivity.
  - apply rowAt_setRow_eq. by rewrite Hrow.
  - simpl. by rewrite length_replicate.
  - exact Hkey.
  - cbn [bind]. do 2 f_equal. simpl.
    rewrite setRow_setRow. unfold record, storeCalls; simpl.
    by rewrite <- app_assoc.
Qed.

Lemma startNewGroup_fresh op rc index key :
  rows_ op = Some rc ->
  keyCount rc = length (groupingKeys_ op) ->
  numGroups_ op = length (groups_ op) ->
  decodedKey op index key ->
  let p := S (length (storage rc)) in
  startNewGroup index op
  = Ok (p, set_calls (calls_ op ++ NewRow p :: storeCalls op index p)
             (set_rows (Some (pushRow rc (openedRow rc key)))
                (set_groups (groups_ op ++ [p])
                   (set_numGroups (S (numGroups_ op)) op)))).
Proof.
  intros Hrc Hcount Hn Hkey p. unfold startNewGroup.
  destruct (Nat.ltb_spec (numGroups_ op) (length (groups_ op))); [lia|].
  rewrite Hrc. cbn [require bind]. unfold newRow.
  erewrite storeKeys_spec with (key := key) (row := blankRow rc); cycle 1.
  - reflexivity.
  - apply (rowAt_newRow_new rc).
  - simpl. by rewrite length_replicate.
  - exact Hkey.
  - cbn [bind]. do 2 f_equal. cbn [set_rows record set_calls rows_].
    rewrite (setRow_newRow rc). simpl.
    rewrite Hn, resize_ge by lia.
    replace (length (groups_ op) + 1 - length (groups_ op)) with 1 by lia.
    simpl. rewrite insert_app_r_alt by lia. rewrite Nat.sub_diag. simpl.
    unfold record, storeCalls; simpl.
    by rewrite <- app_assoc.
Qed.

(** ** Batches read row by row *)

Lemma wellFormedBatch_width width (batch : RowVector) :
  wellFormedBatch width batch = true -> length (children batch) = width.
Proof.
  unfold wellFormedBatch. intros [H _]%andb_true_iff. by apply Nat.eqb_eq.
Qed.

Lemma wellFormedBatch_column width (batch : RowVector) j column :
  wellFormedBatch width batch = true ->
  children batch !! j = Some column ->
  vectorSize column = rowCount batch.
Proof.
  unfold wellFormedBatch. intros [_ H]%andb_true_iff Hj.
  rewrite forallb_forall in H. apply Nat.eqb_eq, H.
  apply list_elem_of_In. by eapply list_elem_of_lookup_2.
Qed.

Lemma valueAt_readValue column (row : nat) :
  row < vectorSize column ->
  valueAt column (Z.of_nat row) = Ok (readValue column row).
Proof.
  unfold readValue. destruct column as [values|value size]; simpl; [|done].
  intros Hrow. destruct (Z.ltb_spec (Z.of_nat row) 0); [lia|].
  rewrite Nat2Z.id.
  destruct (lookup_lt_is_Some_2 values row Hrow) as [v ->]. done.
Qed.

Lemma childAt_Ok (batch : RowVector) channel column :
  childAt batch channel = Ok column
  <-> children batch !! N.to_nat channel = Some column.
Proof. unfold childAt. apply require_Ok. Qed.

Lemma columnOf_rowValues (batch : RowVector) (row : nat) channel column :
  children batch !! N.to_nat channel = Some column ->
  columnOf (rowValues batch row) channel = readValue column row.
Proof.
  intros H. unfold columnOf, rowValues.
  by rewrite list_lookup_fmap, H.
Qed.

(** The grouping-key channels are columns of the input. *)
Definition channelsBelow (width : nat) (channels : list column_index_t) : Prop :=
  Forall (fun c => N.to_nat c < width) channels.

Lemma equalKeys_spec width (keys : list column_index_t)
    (batch other : RowVector) (i j : nat) :
  channelsBelow width keys ->
  wellFormedBatch width batch = true ->
  wellFormedBatch width other = true ->
  i < rowCount batch ->
  j < rowCount other ->
  equalKeys keys batch (Z.of_nat i) other (Z.of_nat j)
  = Ok (bool_decide (keyOf keys (rowValues batch i)
                     = keyOf keys (rowValues other j))).
Proof.
  intros Hkeys Hb Ho Hi Hj.
  induction Hkeys as [|c keys Hc Hkeys IH]; [done|].
  cbn [equalKeys].
  pose proof (wellFormedBatch_width _ _ Hb) as Hwb.
  pose proof (wellFormedBatch_width _ _ Ho) as Hwo.
  destruct (lookup_lt_is_Some_2 (children batch) (N.to_nat c)) as [cb Hcb]; [lia|].
  destruct (lookup_lt_is_Some_2 (children other) (N.to_nat c)) as [co Hco]; [lia|].
  rewrite (proj2 (childAt_Ok batch c cb) Hcb). cbn [bind].
  rewrite (proj2 (childAt_Ok other c co) Hco). cbn [bind].
  unfold equalValueAt.
  rewrite !valueAt_readValue; cycle 1.
  { by erewrite wellFormedBatch_column. }
  { by erewrite wellFormedBatch_column. }
  cbn [bind keyOf map].
  rewrite (columnOf_rowValues batch i c cb), (columnOf_rowValues other j c co)
    by done.
  rewrite IH. fold (keyOf keys (rowValues batch i)).
  fold (keyOf keys (rowValues other j)).
  repeat case_bool_decide; simplify_eq; try done; congruence.
Qed.

(** [decodedKeys_] holds the grouping-key columns of [input]. *)
Definition keysDecoded op (input : RowVector) : Prop :=
  Forall2 (fun channel column => childAt input channel = Ok column)
    (groupingKeys_ op) (decodedKeys_ op).

Lemma keysDecoded_decodedKey width op (input : RowVector) index :
  keysDecoded op input ->
  wellFormedBatch width input = true ->
  index < rowCount input ->
  decodedKey op index (keyOf (groupingKeys_ op) (rowValues input index)).
Proof.
  intros Hdec Hwf Hindex. split.
  - unfold keyOf. by rewrite length_map.
  - intros i v Hv. unfold keyOf in Hv. rewrite list_lookup_fmap in Hv.
    destruct (groupingKeys_ op !! i) as [c|] eqn:Hc; [|done].
    simpl in Hv. injection Hv as <-.
    destruct (Forall2_lookup_l _ _ _ _ _ Hdec Hc) as (column & Hcol & Hchild).
    exists column. split; [done|].
    apply childAt_Ok in Hchild.
    rewrite (columnOf_rowValues _ _ _ _ Hchild).
    apply valueAt_readValue. by erewrite wellFormedBatch_column.
Qed.

End StartNewGroup.

(** * What each step of the operator changes *)

(** Reading a member of an operator that was built by the setters. *)
Ltac op_simpl :=
  cbn [outputBatchSize_ aggregationNode_ step_ groupingKeys_ aggregates_ args_
       constantArgs_ masks_ rows_ decodedKeys_ input_ prevInput_ inputRows_
       inputGroups_ groups_ numGroups_ noMoreInput_ calls_
       set_masks set_rows set_decodedKeys set_input set_prevInput set_inputRows
       set_inputGroups set_groups set_numGroups set_noMoreInput set_calls
       record setInputGroup addInput noMoreInput] in *.

Section Shapes.

Context {Acc : Type}.
Implicit Types (op : Operator Acc) (rc : RowContainer Acc).
Implicit Types (p q : Ptr) (G : list Ptr).

(** Calls to the row container. *)
Definition isStorageCall (e : Event) : bool :=
  match e with
  | NewRow _ | InitializeRow _ _ | Store _ _ _ => true
  | _ => false
  end.

(** The rows that a sequence of calls allocated or re-initialized. *)
Definition openedRows (calls : list Event) : list Ptr :=
  omap (fun e =>
          match e with
          | NewRow p => Some p
          | InitializeRow p _ => Some p
          | _ => None
          end) calls.

Lemma openedRows_app calls calls' :
  openedRows (calls ++ calls') = openedRows calls ++ openedRows calls'.
Proof. apply omap_app. Qed.

Lemma openedRows_storeCalls op index p : openedRows (storeCalls op index p) = [].
Proof.
  unfold storeCalls. induction (seq 0 (length (groupingKeys_ op))); simpl; auto.
Qed.

Lemma isStorageCall_storeCalls op index p :
  Forall isStorageCall (storeCalls op index p).
Proof. unfold storeCalls. apply Forall_fmap, Forall_forall. done. Qed.

Lemma storeKeys_shape p index op op' :
  storeKeys p index op = Ok op' ->
  exists r, op' = set_calls (calls_ op ++ storeCalls op index p) (set_rows r op).
Proof.
  unfold storeKeys, storeCalls. intros H.
  eapply (foldM_seq_ind (fun i x =>
            exists r, x = set_calls (calls_ op ++ map (Store index p) (seq 0 i))
                            (set_rows r op))) in H; [exact H| |].
  - exists (rows_ op). simpl. by rewrite app_nil_r.
  - intros i x y _ [r ->] Hy. unfold storeKey in Hy. simpl in Hy. ok_inv.
    subst y. eexists. rewrite seq_S, map_app, app_assoc. reflexivity.
Qed.

Lemma startNewGroup_shape index op p op' :
  startNewGroup index op = Ok (p, op') ->
  exists r e G,
    op' = set_calls (calls_ op ++ e :: storeCalls op index p)
            (set_rows r (set_groups G (set_numGroups (S (numGroups_ op)) op)))
    /\ ((numGroups_ op < length (groups_ op)
         /\ e = InitializeRow p true
         /\ G = groups_ op
         /\ groups_ op !! numGroups_ op = Some p)
        \/ (length (groups_ op) <= numGroups_ op
            /\ e = NewRow p
            /\ G = <[numGroups_ op := p]>
                     (resize (numGroups_ op + 1) nullptr (groups_ op)))).
Proof.
  unfold startNewGroup. intros H.
  destruct (Nat.ltb_spec (numGroups_ op) (length (groups_ op))) as [Hlt|Hge].
  - ok_inv. simplify_eq.
    apply storeKeys_shape in Hx2 as [r' ->].
    exists r', (InitializeRow p true), (groups_ op). split; [|left; done].
    unfold record, storeCalls; simpl. by rewrite <- app_assoc.
  - ok_inv. unfold newRow in H. ok_inv. simplify_eq.
    apply storeKeys_shape in Hx0 as [r' ->].
    eexists r', (NewRow _), _. split; [|right; done].
    unfold record, storeCalls; simpl. by rewrite <- app_assoc.
Qed.

(** ** The effect of group assignment on the pool

    [opens op op'] says that [op'] differs from [op] by calls to the row
    container only, that the number of groups did not go down, and, when the
    pool was within its vector, that the old slots are where they were and
    the rows opened by those calls are the new slots, in order. *)
Definition opens op op' : Prop :=
  exists c r G n ig D evs,
    op' = set_calls c (set_rows r (set_groups G (set_numGroups n
            (set_inputGroups ig (set_decodedKeys D op)))))
    /\ numGroups_ op <= n
    /\ c = calls_ op ++ evs
    /\ Forall isStorageCall evs
    /\ (numGroups_ op <= length (groups_ op) ->
          n <= length G
          /\ take (numGroups_ op) G = take (numGroups_ op) (groups_ op)
          /\ openedRows evs = take (n - numGroups_ op) (drop (numGroups_ op) G)).

Lemma opens_refl op : opens op op.
Proof.
  exists (calls_ op), (rows_ op), (groups_ op), (numGroups_ op),
    (inputGroups_ op), (decodedKeys_ op), [].
  split; [done|]. split; [done|]. split; [by rewrite app_nil_r|].
  split; [done|]. intros Hle. split; [done|]. split; [done|].
  by rewrite Nat.sub_diag.
Qed.

Lemma opens_trans op op' op'' : opens op op' -> opens op' op'' -> opens op op''.
Proof.
  intros (c & r & G & n & ig & D & evs & -> & Hn & -> & Hevs & Hpool).
  intros (c' & r' & G' & n' & ig' & D' & evs' & -> & Hn' & -> & Hevs' & Hpool').
  simpl in *.
  exists ((calls_ op ++ evs) ++ evs'), r', G', n', ig', D', (evs ++ evs').
  split; [done|]. split; [lia|]. split; [by rewrite app_assoc|].
  split; [by apply Forall_app|]. intros Hle.
  destruct (Hpool Hle) as (HnG & Htake & Hopened).
  destruct (Hpool' HnG) as (HnG' & Htake' & Hopened').
  split; [done|].
  assert (Hprefix : take (numGroups_ op) G' = take (numGroups_ op) (groups_ op)).
  { rewrite <- Htake.
    replace (take (numGroups_ op) G') with (take (numGroups_ op) (take n G'))
      by (rewrite take_take; f_equal; lia).
    rewrite Htake', take_take. f_equal. lia. }
  split; [done|].
  rewrite openedRows_app, Hopened, Hopened'.
  rewrite !take_drop_commute.
  replace (numGroups_ op + (n - numGroups_ op)) with n by lia.
  replace (numGroups_ op + (n' - numGroups_ op)) with n' by lia.
  replace (n + (n' - n)) with n' by lia.
  rewrite <- Htake'.
  rewrite <- (drop_take_drop (take n' G') (numGroups_ op) n) by lia.
  rewrite take_take. do 3 f_equal. lia.
Qed.

Lemma opens_assoc (calls : list Event) (evs evs' : list Event) :
  (calls ++ evs) ++ evs' = calls ++ evs ++ evs'.
Proof. by rewrite app_assoc. Qed.

Lemma startNewGroup_opens index op p op' :
  startNewGroup index op = Ok (p, op') ->
  opens op op'
  /\ numGroups_ op' = S (numGroups_ op)
  /\ inputGroups_ op' = inputGroups_ op
  /\ decodedKeys_ op' = decodedKeys_ op
  /\ (numGroups_ op <= length (groups_ op) ->
        groups_ op' !! numGroups_ op = Some p).
Proof.
  intros (r & e & G & -> & Hcase)%startNewGroup_shape. simpl.
  assert (He : isStorageCall e /\ openedRows [e] = [p]).
  { destruct Hcase as [(_ & -> & _)|(_ & -> & _)]; done. }
  destruct He as [He Hopen].
  assert (Hpool : numGroups_ op <= length (groups_ op) ->
            S (numGroups_ op) <= length G
            /\ take (numGroups_ op) G = take (numGroups_ op) (groups_ op)
            /\ G !! numGroups_ op = Some p).
  { intros Hle. destruct Hcase as [(Hlt & _ & -> & Hp)|(Hge & _ & ->)].
    - done.
    - assert (numGroups_ op = length (groups_ op)) as Heq by lia.
      rewrite Heq, resize_ge by lia.
      replace (length (groups_ op) + 1 - length (groups_ op)) with 1 by lia.
      simpl. rewrite insert_app_r_alt by lia. rewrite Nat.sub_diag. simpl.
      rewrite length_app. simpl. split; [lia|]. split.
      + by rewrite take_app_length, firstn_all.
      + rewrite lookup_app_r by lia. by rewrite Nat.sub_diag. }
  split; [|repeat split; try done; intros H; by destruct (Hpool H) as (_ & _ & ?)].
  exists (calls_ op ++ e :: storeCalls op index p), r, G, (S (numGroups_ op)),
    (inputGroups_ op), (decodedKeys_ op), (e :: storeCalls op index p).
  split; [done|]. split; [lia|]. split; [done|].
  split; [constructor; [done|apply isStorageCall_storeCalls]|].
  intros Hle. destruct (Hpool Hle) as (H1 & H2 & H3).
  split; [done|]. split; [done|].
  change (e :: storeCalls op index p) with ([e] ++ storeCalls op index p).
  rewrite openedRows_app, Hopen, openedRows_storeCalls. simpl.
  replace (S (numGroups_ op) - numGroups_ op) with 1 by lia.
  by erewrite drop_S by done.
Qed.

Lemma opens_set op ig D : opens op (set_inputGroups ig (set_decodedKeys D op)).
Proof.
  exists (calls_ op), (rows_ op), (groups_ op), (numGroups_ op), ig, D, [].
  split; [done|]. split; [done|]. split; [by rewrite app_nil_r|].
  split; [done|]. intros Hle. split; [done|]. split; [done|].
  by rewrite Nat.sub_diag.
Qed.

Lemma opens_setInputGroup op i p : opens op (setInputGroup i p op).
Proof. apply (opens_set op (<[i := p]> (inputGroups_ op)) (decodedKeys_ op)). Qed.

Definition withinPool op : Prop := numGroups_ op <= length (groups_ op).

Lemma opens_withinPool op op' : opens op op' -> withinPool op -> withinPool op'.
Proof.
  intros (c & r & G & n & ig & D & evs & -> & Hn & -> & Hevs & Hpool) Hle.
  unfold withinPool. simpl. by destruct (Hpool Hle).
Qed.

Lemma opens_numGroups op op' : opens op op' -> numGroups_ op <= numGroups_ op'.
Proof.
  by intros (c & r & G & n & ig & D & evs & -> & Hn & _).
Qed.

Lemma opens_lookup op op' s :
  opens op op' -> withinPool op -> s < numGroups_ op ->
  groups_ op' !! s = groups_ op !! s.
Proof.
  intros (c & r & G & n & ig & D & evs & -> & Hn & -> & Hevs & Hpool) Hle Hs.
  destruct (Hpool Hle) as (_ & Htake & _). simpl.
  rewrite <- (lookup_take_lt G (numGroups_ op) s) by done.
  rewrite Htake. by apply lookup_take_lt.
Qed.

(** Row [r] of the input has been given the pointer of a live slot. *)
Definition assignedTo op (r : nat) : Prop :=
  exists s p,
    s < numGroups_ op
    /\ inputGroups_ op !! r = Some p
    /\ groups_ op !! s = Some p.

Lemma assignedTo_opens op op' r :
  opens op op' -> withinPool op ->
  inputGroups_ op' !! r = inputGroups_ op !! r ->
  assignedTo op r -> assignedTo op' r.
Proof.
  intros Hopens Hpool Hig (s & p & Hs & Hr & Hp).
  exists s, p. split; [pose proof (opens_numGroups _ _ Hopens); lia|].
  split; [congruence|]. by rewrite (opens_lookup op op' s).
Qed.

Lemma continueLastGroup_effect remaining prevInput prevIndex prevGroup
    (input : RowVector) : forall index op index' op',
  continueLastGroup remaining prevInput prevIndex prevGroup input index op
  = Ok (index', op') ->
  exists ig,
    op' = set_inputGroups ig op
    /\ index <= index' <= index + remaining
    /\ length ig = length (inputGroups_ op)
    /\ (forall r, index <= r < index' -> r < length ig -> ig !! r = Some prevGroup)
    /\ (forall r, r < index -> ig !! r = inputGroups_ op !! r).
Proof.
  induction remaining as [|remaining IH]; intros index op index' op' H.
  - simpl in H. injection H as <- <-. exists (inputGroups_ op).
    split; [done|]. split; [lia|]. split; [done|]. split; [|done].
    intros r ?. lia.
  - cbn [continueLastGroup] in H. ok_inv. destruct x.
    + apply IH in H as (ig & -> & Hindex & Hlen & Hnew & Hold).
      simpl in *. rewrite length_insert in Hlen.
      exists ig. split; [done|]. split; [lia|]. split; [done|]. split.
      * intros r Hr Hrlen. destruct (decide (r = index)) as [->|Hne].
        -- rewrite Hold by lia. apply list_lookup_insert_eq. lia.
        -- apply Hnew; [lia|done].
      * intros r Hr. rewrite Hold by lia. apply list_lookup_insert_ne. lia.
    + ok_inv. simplify_eq. exists (inputGroups_ op').
      split; [done|]. split; [lia|]. split; [done|]. split; [|done].
      intros r ?. lia.
Qed.

Lemma decodeKeys_effect (input : RowVector) (start len : nat) op op' :
  foldM (decodeKey input) (seq start len) op = Ok op' ->
  exists D, op' = set_decodedKeys D op.
Proof.
  intros H.
  eapply (foldM_seq_ind (fun _ x => exists D, x = set_decodedKeys D op)) in H;
    [exact H| |].
  - by exists (decodedKeys_ op).
  - intros i x y _ [D ->] Hy. unfold decodeKey in Hy. simpl in Hy. ok_inv.
    destruct (i <? length D); [|done]. ok_inv. subst y. by eexists.
Qed.

Lemma assignRows_effect (input : RowVector) (start len : nat) index op index' op' :
  foldM (assignRow input) (seq start len) (index, op) = Ok (index', op') ->
  start + len = length (inputGroups_ op) ->
  index < start ->
  opens op op'
  /\ length (inputGroups_ op') = length (inputGroups_ op)
  /\ (withinPool op -> assignedTo op index ->
      (forall r, r < start -> assignedTo op r) ->
      forall r, r < start + len -> assignedTo op' r).
Proof.
  intros H Hlen Hindex.
  eapply (foldM_seq_ind (fun i (state : nat * Operator Acc) =>
            state.1 < i
            /\ opens op state.2
            /\ length (inputGroups_ state.2) = length (inputGroups_ op)
            /\ (withinPool op -> assignedTo op index ->
                (forall r, r < start -> assignedTo op r) ->
                assignedTo state.2 state.1
                /\ forall r, r < i -> assignedTo state.2 r))) in H.
  - simpl in H. destruct H as (_ & H1 & H2 & H3).
    split; [done|]. split; [done|]. intros. by apply H3.
  - simpl. split; [done|]. split; [apply opens_refl|]. split; [done|]. auto.
  - intros i [idx x] [idx' y] Hi (Hidx & Hopens & Hig & Hassigned) Hy.
    simpl in *. unfold assignRow in Hy. ok_inv. destruct x0.
    + ok_inv. simplify_eq. simpl.
      match goal with
      | Hg : inputGroups_ x !! idx' = Some ?g |- _ =>
          rename g into group; rename Hg into Hgroup
      end.
      split; [lia|]. split; [eapply opens_trans, opens_setInputGroup; done|].
      split; [by rewrite length_insert|].
      intros Hpool Hindex0 Hbelow.
      destruct (Hassigned Hpool Hindex0 Hbelow) as [(s & p & Hs & Hr & Hp) Hrows].
      assert (p = group) as -> by congruence.
      split.
      * exists s, group. simpl. split; [done|]. split; [|done].
        rewrite list_lookup_insert_ne by lia. done.
      * intros r Hr'. destruct (decide (r = i)) as [->|Hne].
        -- exists s, group. simpl. split; [done|]. split; [|done].
           apply list_lookup_insert_eq. lia.
        -- destruct (Hrows r) as (s' & p' & ? & ? & ?); [lia|].
           exists s', p'. simpl. split; [done|]. split; [|done].
           by rewrite list_lookup_insert_ne.
    + apply bind_Ok in Hy as ([p x1] & Hstart & Hy). injection Hy as <- <-.
      destruct (startNewGroup_opens _ _ _ _ Hstart) as (Ho & Hn & Hig' & _ & Hp).
      simpl. split; [lia|].
      split; [eapply opens_trans, opens_setInputGroup;
              eapply opens_trans; done|].
      split; [rewrite length_insert; congruence|].
      intros Hpool Hindex0 Hbelow.
      destruct (Hassigned Hpool Hindex0 Hbelow) as [_ Hrows].
      pose proof (opens_withinPool _ _ Hopens Hpool) as Hpoolx.
      assert (Hnew : assignedTo (setInputGroup i p x1) i).
      { exists (numGroups_ x), p. simpl. split; [lia|].
        split; [apply list_lookup_insert_eq; rewrite Hig'; lia|]. by apply Hp. }
      split; [done|].
      intros r Hr'. destruct (decide (r = i)) as [->|Hne]; [done|].
      eapply (assignedTo_opens x); [| done | | apply Hrows; lia].
      * eapply opens_trans, opens_setInputGroup. done.
      * simpl. rewrite list_lookup_insert_ne by done. by rewrite Hig'.
Qed.

Lemma vectorAt_Ok {A} (v : list A) (index : Z) (x : A) :
  vectorAt v index = Ok x ->
  (0 <= index)%Z /\ v !! Z.to_nat index = Some x.
Proof.
  unfold vectorAt. destruct (Z.ltb_spec index 0) as [Hneg|Hpos]; [done|].
  intros Hv%require_Ok. split; [lia|done].
Qed.

(** What [assignGroups] does, whenever it returns. *)
Lemma assignGroups_effect op op' (input : RowVector) :
  assignGroups op = Ok op' ->
  input_ op = Some input ->
  opens op op'
  /\ length (inputGroups_ op') = rowCount input
  /\ (0 < rowCount input -> 1 <= numGroups_ op')
  /\ (withinPool op -> forall r, r < rowCount input -> assignedTo op' r).
Proof.
  unfold assignGroups. intros H Hinput. rewrite Hinput in H. cbn [require bind] in H.
  set (op0 := set_inputGroups (resize (rowCount input) nullptr (inputGroups_ op)) op)
    in H.
  assert (Hopens0 : opens op op0)
    by apply (opens_set op _ (decodedKeys_ op)).
  assert (Hlen0 : length (inputGroups_ op0) = rowCount input)
    by (simpl; apply length_resize).
  apply bind_Ok in H as ([index op1] & Hseam & H).
  assert (Hseam' : exists ig,
            op1 = set_inputGroups ig op0
            /\ index <= rowCount input
            /\ length ig = rowCount input
            /\ (prevInput_ op = None -> index = 0)
            /\ (0 < index -> 1 <= numGroups_ op)
            /\ (withinPool op -> forall r, r < index ->
                  assignedTo (set_inputGroups ig op0) r)).
  { change (prevInput_ op0) with (prevInput_ op) in Hseam.
    destruct (prevInput_ op) as [prevInput|].
    - apply bind_Ok in Hseam as (prevGroup & Hprev & Hseam).
      apply vectorAt_Ok in Hprev as [Hpos Hprev]. simpl in Hpos, Hprev.
      apply continueLastGroup_effect in Hseam
        as (ig & -> & Hindex & Hlen & Hnew & _).
      exists ig. split; [done|]. split; [lia|]. split; [congruence|].
      split; [done|]. split; [lia|].
      intros _ r Hr. exists (Z.to_nat (Z.of_nat (numGroups_ op) - 1)), prevGroup.
      simpl. split; [lia|]. split; [|done]. apply Hnew; lia.
    - injection Hseam as <- <-. exists (inputGroups_ op0).
      split; [done|]. split; [lia|]. split; [done|]. split; [done|].
      split; [lia|]. intros _ r ?. lia. }
  destruct Hseam' as (ig & -> & Hindex & Hlen & Hnone & Hsome & Hseamrows).
  set (op1 := set_inputGroups ig op0) in *.
  assert (Hopens1 : opens op op1) by apply (opens_set op ig (decodedKeys_ op)).
  destruct (Nat.ltb_spec index (rowCount input)) as [Hlt|Hge].
  - apply bind_Ok in H as (op2 & Hdecode & H).
    apply decodeKeys_effect in Hdecode as [D ->].
    apply bind_Ok in H as ([newGroup op3] & Hstart & H).
    apply bind_Ok in H as ([index' op4] & Hloop & H).
    injection H as <-.
    destruct (startNewGroup_opens _ _ _ _ Hstart) as (Ho3 & Hn3 & Hig3 & _ & Hp3).
    simpl in Hn3, Hig3, Hp3.
    set (op2 := set_decodedKeys D op1) in *.
    assert (Hopens2 : opens op op2) by apply (opens_set op ig D).
    apply assignRows_effect in Hloop as (Ho4 & Hlen4 & Hrows4);
      [|simpl; rewrite length_insert, Hig3; simpl; lia|lia].
    simpl in Hlen4. rewrite length_insert, Hig3 in Hlen4. simpl in Hlen4.
    assert (Hopens3 : opens op (setInputGroup index newGroup op3)).
    { eapply opens_trans, opens_setInputGroup.
      eapply opens_trans; done. }
    split; [eapply opens_trans; done|].
    split; [congruence|].
    split.
    { intros _. pose proof (opens_numGroups _ _ Ho4) as Hn4. simpl in Hn4. lia. }
    intros Hpool r Hr.
    replace (rowCount input) with (index + 1 + (rowCount input - (index + 1)))
      in Hr by lia.
    apply Hrows4; [by eapply opens_withinPool| | |done].
    + exists (numGroups_ op), newGroup. simpl. split; [lia|].
      split; [apply list_lookup_insert_eq; rewrite Hig3; simpl; lia|].
      by apply Hp3.
    + intros r' Hr'. destruct (decide (r' = index)) as [->|Hne].
      * exists (numGroups_ op), newGroup. simpl. split; [lia|].
        split; [apply list_lookup_insert_eq; rewrite Hig3; simpl; lia|].
        by apply Hp3.
      * eapply (assignedTo_opens op1); [| done | | apply Hseamrows; [done|lia]].
        -- eapply opens_trans, opens_setInputGroup.
           eapply opens_trans; [apply (opens_set op1 ig D)|done].
        -- simpl. rewrite list_lookup_insert_ne by done. by rewrite Hig3.
  - injection H as <-. split; [done|]. split; [done|].
    split; [intros ?; apply Hsome; lia|].
    intros Hpool r Hr. apply Hseamrows; [done|lia].
Qed.

End Shapes.

(** * Kernel dispatch and output batches *)

Section Dispatch.

Context {Acc : Type}.
Implicit Types (op : Operator Acc) (rc : RowContainer Acc).
Implicit Types (p q : Ptr) (G : list Ptr).

(** The update call of aggregate [i], as the step selects it. *)
Definition updateCall (nodeStep : Step) (i : nat) (groups : list Ptr)
    (rows : SelectivityVector) (args : list (option Vector)) : Event :=
  if isRawInput nodeStep then AddRawInput i groups rows args false
  else AddIntermediateResults i groups rows args false.

(** The extraction call of aggregate [i], as the step selects it. *)
Definition extractCall (nodeStep : Step) (groups : list Ptr) (n i : nat) : Event :=
  if isPartialOutput nodeStep then ExtractAccumulators i groups n
  else ExtractValues i groups n.

Definition extractCalls op (n : nat) : list Event :=
  map (ExtractColumn (groups_ op) n) (seq 0 (length (groupingKeys_ op)))
  ++ map (extractCall (step_ op) (groups_ op) n) (seq 0 (length (aggregates_ op))).

Definition isUpdateCall (e : Event) : bool :=
  match e with
  | AddRawInput _ _ _ _ _ | AddIntermediateResults _ _ _ _ _ => true
  | _ => false
  end.

Definition isExtractCall (e : Event) : bool :=
  match e with
  | ExtractColumn _ _ _ | ExtractValues _ _ _ | ExtractAccumulators _ _ _ => true
  | _ => false
  end.

Definition initializeCalls op (newGroups : list nat) : list Event :=
  map (fun i => InitializeNewGroups i (groups_ op) newGroups)
    (seq 0 (length (aggregates_ op))).

Lemma initializeAggregates_shape (newGroups : list nat) op op' :
  foldM (initializeAggregate newGroups) (seq 0 (length (aggregates_ op))) op
  = Ok op' ->
  exists r, op' = set_calls (calls_ op ++ initializeCalls op newGroups)
                    (set_rows r op).
Proof.
  unfold initializeCalls. intros H.
  eapply (foldM_seq_ind (fun i x =>
            exists r,
              x = set_calls
                    (calls_ op
                     ++ map (fun i => InitializeNewGroups i (groups_ op) newGroups)
                          (seq 0 i))
                    (set_rows r op))) in H; [exact H| |].
  - exists (rows_ op). simpl. by rewrite app_nil_r.
  - intros i x y _ [r ->] Hy. unfold initializeAggregate in Hy. simpl in Hy.
    ok_inv. subst y. eexists. rewrite seq_S, map_app, app_assoc. reflexivity.
Qed.

Lemma evaluateAggregate_shape op i op' :
  evaluateAggregate op i = Ok op' ->
  exists rc' rows args,
    getSelectivityVector i op = Ok rows
    /\ op' = set_calls
               (calls_ op ++ [updateCall (step_ op) i (inputGroups_ op) rows args])
               (set_rows (Some rc') op).
Proof.
  unfold evaluateAggregate, updateCall. intros H. ok_inv.
  destruct (isRawInput (step_ op)); ok_inv; subst op'; eauto.
Qed.

Lemma evaluateAggregates_shape op op' :
  evaluateAggregates op = Ok op' ->
  exists r updates,
    op' = set_calls (calls_ op ++ updates) (set_rows r op)
    /\ length updates = length (aggregates_ op)
    /\ forall i e, updates !! i = Some e ->
         exists rows args,
           getSelectivityVector i op = Ok rows
           /\ e = updateCall (step_ op) i (inputGroups_ op) rows args.
Proof.
  unfold evaluateAggregates. intros H.
  eapply (foldM_seq_ind (fun k x =>
            exists r updates,
              x = set_calls (calls_ op ++ updates) (set_rows r op)
              /\ length updates = k
              /\ forall i e, updates !! i = Some e ->
                   exists rows args,
                     getSelectivityVector i op = Ok rows
                     /\ e = updateCall (step_ op) i (inputGroups_ op) rows args))
    in H; [exact H| |].
  - exists (rows_ op), []. simpl. rewrite app_nil_r. done.
  - intros k x y _ (r & updates & -> & Hlen & Hupdates) Hy.
    apply evaluateAggregate_shape in Hy as (rc' & rows & args & Hrows & ->).
    simpl in *.
    exists (Some rc'), (updates ++ [updateCall (step_ op) k (inputGroups_ op) rows args]).
    split; [by rewrite app_assoc|]. split; [rewrite length_app; simpl; lia|].
    intros i e Hi. apply lookup_app_Some in Hi as [Hi|[Hge Hi]]; [by apply Hupdates|].
    rewrite Hlen in *. apply list_lookup_singleton_Some in Hi as [Hi <-].
    assert (i = k) as -> by lia. eauto.
Qed.

(** The kernel entry points that the step selects. *)
Definition kernelUpdate (nodeStep : Step) (kernel : Aggregate Acc) :=
  if isRawInput nodeStep then addRawInput kernel
  else addIntermediateResults kernel.

Definition kernelExtract (nodeStep : Step) (kernel : Aggregate Acc) :=
  if isPartialOutput nodeStep then extractAccumulators kernel
  else extractValues kernel.

(** The update of aggregate [i] that [evaluateAggregates] makes on [op]: the
    kernel of [i] is entered with the groups of the rows, the selection of
    [i] and its argument columns, and takes the rows [before] to the rows
    [after]; [e] is the record of this call. *)
Definition updateMade op (i : nat) (e : Event) (rows : SelectivityVector)
    (args : list (option Vector)) (before after : RowContainer Acc) : Prop :=
  exists kernel channels,
    aggregates_ op !! i = Some kernel
    /\ args_ op !! i = Some channels
    /\ foldM (pushArg op i channels) (seq 0 (length channels)) [] = Ok args
    /\ getSelectivityVector i op = Ok rows
    /\ kernelUpdate (step_ op) kernel i (inputGroups_ op) rows args before
       = Ok after
    /\ e = updateCall (step_ op) i (inputGroups_ op) rows args.

Lemma evaluateAggregate_effect op i op' :
  evaluateAggregate op i = Ok op' ->
  exists e rows args before after,
    rows_ op = Some before
    /\ updateMade op i e rows args before after
    /\ op' = set_calls (calls_ op ++ [e]) (set_rows (Some after) op).
Proof.
  unfold evaluateAggregate. intros H.
  apply bind_Ok in H as (kernel & Hkernel%require_Ok & H).
  apply bind_Ok in H as (channels & Hchannels%require_Ok & H).
  apply bind_Ok in H as (args & Hargs & H).
  apply bind_Ok in H as (rows & Hrows & H).
  apply bind_Ok in H as (rc & Hrc%require_Ok & H).
  exists (updateCall (step_ op) i (inputGroups_ op) rows args), rows, args, rc.
  unfold updateMade, kernelUpdate, updateCall.
  destruct (isRawInput (step_ op));
    apply bind_Ok in H as (rc' & Hupdate & H); injection H as <-;
    exists rc'; (split; [done|]); (split; [|done]);
    by exists kernel, channels.
Qed.

(** The updates of [evaluateAggregates], with the rows between them:
    [states] holds the row container before the first update and after
    every update. *)
Lemma evaluateAggregates_effect op op' :
  evaluateAggregates op = Ok op' ->
  exists updates (states : list (option (RowContainer Acc))),
    op' = set_calls (calls_ op ++ updates) (set_rows (rows_ op') op)
    /\ length updates = length (aggregates_ op)
    /\ length states = S (length (aggregates_ op))
    /\ states !! 0 = Some (rows_ op)
    /\ states !! length (aggregates_ op) = Some (rows_ op')
    /\ forall i e, updates !! i = Some e ->
         exists rows args before after,
           states !! i = Some (Some before)
           /\ states !! S i = Some (Some after)
           /\ updateMade op i e rows args before after.
Proof.
  unfold evaluateAggregates. intros H.
  eapply (foldM_seq_ind (fun k x =>
            exists updates (states : list (option (RowContainer Acc))),
              x = set_calls (calls_ op ++ updates) (set_rows (rows_ x) op)
              /\ length updates = k
              /\ length states = S k
              /\ states !! 0 = Some (rows_ op)
              /\ states !! k = Some (rows_ x)
              /\ forall i e, updates !! i = Some e ->
                   exists rows args before after,
                     states !! i = Some (Some before)
                     /\ states !! S i = Some (Some after)
                     /\ updateMade op i e rows args before after))
    in H; [exact H| |].
  - exists [], [rows_ op]. rewrite app_nil_r. done.
  - intros k x y _ (updates & states & Hx & Hlen & Hstates & Hfirst & Hlast
                    & Hupdates) Hy.
    apply evaluateAggregate_effect in Hy
      as (e & rows & args & before & after & Hbefore & Hmade & ->).
    rewrite Hbefore in Hlast.
    assert (Hmade' : updateMade op k e rows args before after).
    { rewrite Hx in Hmade. exact Hmade. }
    clear Hmade. rewrite Hx. op_simpl.
    exists (updates ++ [e]), (states ++ [Some after]).
    split; [by rewrite app_assoc|].
    split; [rewrite length_app; simpl; lia|].
    split; [rewrite length_app; simpl; lia|].
    split; [rewrite lookup_app_l by lia; done|].
    split; [rewrite lookup_app_r by lia; by rewrite Hstates, Nat.sub_diag|].
    intros i e' Hi. apply lookup_app_Some in Hi as [Hi|[Hge Hi]].
    + destruct (Hupdates i e' Hi) as (rows' & args' & b & a & Hb & Ha & Hm).
      exists rows', args', b, a.
      split; [by apply lookup_app_l_Some|].
      split; [by apply lookup_app_l_Some|]. done.
    + rewrite Hlen in *. apply list_lookup_singleton_Some in Hi as [Hi <-].
      assert (i = k) as -> by lia.
      exists rows, args, before, after.
      split; [by apply lookup_app_l_Some|].
      split; [rewrite lookup_app_r by lia; by rewrite Hstates, Nat.sub_diag|].
      done.
Qed.

Lemma extractKeyColumns_shape (n : nat) op (len : nat) columns op' :
  foldM (extractKeyColumn n) (seq 0 len) ([], op) = Ok (columns, op') ->
  op' = set_calls (calls_ op ++ map (ExtractColumn (groups_ op) n) (seq 0 len)) op
  /\ length columns = len.
Proof.
  intros H.
  eapply (foldM_seq_ind (fun k (state : list Vector * Operator Acc) =>
            state.2 = set_calls
                        (calls_ op ++ map (ExtractColumn (groups_ op) n) (seq 0 k)) op
            /\ length state.1 = k)) in H; [exact H| |].
  - simpl. by rewrite app_nil_r.
  - intros k [cs x] [cs' y] _ [Hx Hlen] Hy. cbn [fst snd] in *. subst x.
    unfold extractKeyColumn in Hy. simpl in Hy. ok_inv. simplify_eq.
    split; [|rewrite length_app; simpl; lia].
    rewrite seq_S, map_app, app_assoc. reflexivity.
Qed.

Lemma extractAggregateColumns_shape (n : nat) op (len : nat) columns op' :
  foldM (extractAggregateColumn n) (seq 0 len) ([], op) = Ok (columns, op') ->
  op' = set_calls
          (calls_ op ++ map (extractCall (step_ op) (groups_ op) n) (seq 0 len)) op
  /\ length columns = len.
Proof.
  intros H.
  eapply (foldM_seq_ind (fun k (state : list Vector * Operator Acc) =>
            state.2 = set_calls
                        (calls_ op
                         ++ map (extractCall (step_ op) (groups_ op) n) (seq 0 k)) op
            /\ length state.1 = k)) in H; [exact H| |].
  - simpl. by rewrite app_nil_r.
  - intros k [cs x] [cs' y] _ [Hx Hlen] Hy. cbn [fst snd] in *. subst x.
    unfold extractAggregateColumn, extractCall in *. simpl in Hy. ok_inv.
    destruct (isPartialOutput (step_ op)); ok_inv; simplify_eq;
      (split; [|rewrite length_app; simpl; lia]);
      rewrite seq_S, map_app, app_assoc; reflexivity.
Qed.

Lemma createOutput_shape (n : nat) op output op' :
  createOutput n op = Ok (output, op') ->
  op' = set_calls (calls_ op ++ extractCalls op n) op
  /\ rowCount output = n
  /\ length (children output)
     = length (groupingKeys_ op) + length (aggregates_ op).
Proof.
  unfold createOutput, extractCalls. intros H.
  apply bind_Ok in H as ([ks op1] & Hkeys & H).
  apply extractKeyColumns_shape in Hkeys as [-> Hks].
  apply bind_Ok in H as ([cs op2] & Haggs & H).
  apply extractAggregateColumns_shape in Haggs as [-> Hcs].
  injection H as <- <-. simpl.
  split; [by rewrite app_assoc|]. split; [done|].
  simpl in Hcs. rewrite length_app. lia.
Qed.

(** The aggregate columns of an output are what the kernels extract. *)
Lemma extractAggregateColumns_effect (n : nat) op (len : nat) columns op' :
  foldM (extractAggregateColumn n) (seq 0 len) ([], op) = Ok (columns, op') ->
  forall i, i < len ->
    exists kernel rc column,
      aggregates_ op !! i = Some kernel
      /\ rows_ op = Some rc
      /\ columns !! i = Some column
      /\ kernelExtract (step_ op) kernel i (groups_ op) n rc = Ok column.
Proof.
  intros H.
  eapply (foldM_seq_ind (fun k (state : list Vector * Operator Acc) =>
            (exists c, state.2 = set_calls c op)
            /\ length state.1 = k
            /\ forall i, i < k ->
                 exists kernel rc column,
                   aggregates_ op !! i = Some kernel
                   /\ rows_ op = Some rc
                   /\ state.1 !! i = Some column
                   /\ kernelExtract (step_ op) kernel i (groups_ op) n rc
                      = Ok column)) in H; [exact (proj2 (proj2 H))| |].
  - split; [by exists (calls_ op)|]. split; [done|]. intros i Hi. lia.
  - intros k [cs x] [cs' y] _ ([c Hx] & Hlen & Hcolumns) Hy.
    cbn [fst snd] in *. subst x. unfold extractAggregateColumn in Hy. op_simpl.
    apply bind_Ok in Hy as (kernel & Hkernel%require_Ok & Hy).
    apply bind_Ok in Hy as (rc & Hrc%require_Ok & Hy).
    assert (Hstep : exists column,
              kernelExtract (step_ op) kernel k (groups_ op) n rc = Ok column
              /\ cs' = cs ++ [column]
              /\ exists c', y = set_calls c' op).
    { unfold kernelExtract. destruct (isPartialOutput (step_ op));
        apply bind_Ok in Hy as (column & Hcolumn & Hy); injection Hy as <- <-;
        exists column; (split; [done|]); (split; [done|]); by eexists. }
    destruct Hstep as (column & Hcolumn & -> & Hy').
    split; [done|]. split; [rewrite length_app; simpl; lia|].
    intros i Hi. destruct (decide (i = k)) as [->|Hne].
    + exists kernel, rc, column. split; [done|]. split; [done|].
      split; [|done]. rewrite lookup_app_r by lia.
      by rewrite Hlen, Nat.sub_diag.
    + destruct (Hcolumns i ltac:(lia)) as (kernel' & rc' & column' & ? & ? & ? & ?).
      exists kernel', rc', column'. split; [done|]. split; [done|].
      split; [|done]. by apply lookup_app_l_Some.
Qed.

Lemma createOutput_effect (n : nat) op output op' :
  createOutput n op = Ok (output, op') ->
  rows_ op' = rows_ op
  /\ forall i, i < length (aggregates_ op) ->
       exists kernel rc column,
         aggregates_ op !! i = Some kernel
         /\ rows_ op = Some rc
         /\ children output !! (length (groupingKeys_ op) + i) = Some column
         /\ kernelExtract (step_ op) kernel i (groups_ op) n rc = Ok column.
Proof.
  intros H. pose proof (createOutput_shape _ _ _ _ H) as (Hop' & _).
  split; [by rewrite Hop'|].
  unfold createOutput in H.
  apply bind_Ok in H as ([ks op1] & Hkeys & H).
  apply extractKeyColumns_shape in Hkeys as [-> Hks].
  apply bind_Ok in H as ([cs op2] & Haggs & H).
  injection H as <- _. op_simpl.
  intros i Hi.
  destruct (extractAggregateColumns_effect _ _ _ _ _ Haggs i Hi)
    as (kernel & rc & column & Hkernel & Hrc & Hcolumn & Hextract).
  exists kernel, rc, column. op_simpl.
  split; [done|]. split; [done|]. split; [|done].
  cbn [children]. rewrite lookup_app_r by lia.
  by replace (length (groupingKeys_ op) + i - length ks) with i by lia.
Qed.

(** C7. The step selects both paths. For every aggregate in turn,
    [evaluateAggregates] enters [addRawInput] of the aggregate's kernel when
    the step takes raw input and [addIntermediateResults] otherwise, with the
    groups of the rows and the push-down flag false; the rows it leaves are
    the rows that these calls produce, one after the other. Every aggregate
    column of the batch that [createOutput] returns is the column that
    [extractAccumulators] of the aggregate's kernel gives when the step emits
    partial output, and the one that [extractValues] gives otherwise. *)
Theorem step_selects_update_and_extraction op :
  (forall op',
     evaluateAggregates op = Ok op' ->
     exists updates (states : list (option (RowContainer Acc))),
       calls_ op' = calls_ op ++ updates
       /\ length updates = length (aggregates_ op)
       /\ length states = S (length (aggregates_ op))
       /\ states !! 0 = Some (rows_ op)
       /\ states !! length (aggregates_ op) = Some (rows_ op')
       /\ forall i e, updates !! i = Some e ->
            exists kernel rows args before after,
              aggregates_ op !! i = Some kernel
              /\ states !! i = Some (Some before)
              /\ states !! S i = Some (Some after)
              /\ if isRawInput (step_ op)
                 then e = AddRawInput i (inputGroups_ op) rows args false
                      /\ addRawInput kernel i (inputGroups_ op) rows args before
                         = Ok after
                 else e = AddIntermediateResults i (inputGroups_ op) rows args
                            false
                      /\ addIntermediateResults kernel i (inputGroups_ op) rows
                           args before
                         = Ok after)
  /\ (forall n output op',
        createOutput n op = Ok (output, op') ->
        calls_ op'
        = calls_ op
          ++ map (ExtractColumn (groups_ op) n) (seq 0 (length (groupingKeys_ op)))
          ++ map (fun i =>
                    if isPartialOutput (step_ op)
                    then ExtractAccumulators i (groups_ op) n
                    else ExtractValues i (groups_ op) n)
               (seq 0 (length (aggregates_ op)))
        /\ rows_ op' = rows_ op
        /\ forall i, i < length (aggregates_ op) ->
             exists kernel rc column,
               aggregates_ op !! i = Some kernel
               /\ rows_ op = Some rc
               /\ children output !! (length (groupingKeys_ op) + i)
                  = Some column
               /\ (if isPartialOutput (step_ op)
                   then extractAccumulators kernel i (groups_ op) n rc
                   else extractValues kernel i (groups_ op) n rc)
                  = Ok column).
Proof.
  split.
  - intros op' (updates & states & Hop' & Hlen & Hstates & Hfirst & Hlast
                & Hmade)%evaluateAggregates_effect.
    exists updates, states.
    split; [by rewrite Hop'|]. split; [done|]. split; [done|].
    split; [done|]. split; [done|].
    intros i e (rows & args & before & after & Hbefore & Hafter & kernel
                & channels & Hkernel & _ & _ & _ & Hupdate & ->)%Hmade.
    exists kernel, rows, args, before, after.
    split; [done|]. split; [done|]. split; [done|].
    unfold kernelUpdate, updateCall in *.
    by destruct (isRawInput (step_ op)).
  - intros n output op' H.
    pose proof (createOutput_shape _ _ _ _ H) as (Hop' & _).
    destruct (createOutput_effect _ _ _ _ H) as (Hrows & Hcolumns).
    split; [by rewrite Hop'|]. split; [done|].
    intros i (kernel & rc & column & Hkernel & Hrc & Hcolumn & Hextract)%Hcolumns.
    exists kernel, rc, column.
    split; [done|]. split; [done|]. split; [done|].
    unfold kernelExtract in Hextract.
    by destruct (isPartialOutput (step_ op)).
Qed.

(** ** The steps of [getOutput] on a pending input *)

(** The operator once the mask collaborator has seen the pending input. *)
Definition received op (input : RowVector) (masks' : AggregationMasks)
    : Operator Acc :=
  record (MasksAddInput input (replicate (rowCount input) true))
    (set_masks (Some masks')
       (set_inputRows (replicate (rowCount input) true) op)).

(** The operator once the pending input has become the previous input. *)
Definition consumed op : Operator Acc :=
  set_input None (set_prevInput (input_ op) op).

Lemma getOutput_steps op (input : RowVector) output op' :
  input_ op = Some input ->
  getOutput op = Ok (output, op') ->
  exists masks masks' op1 op2 op3,
    masks_ op = Some masks
    /\ masksAddInput masks input (replicate (rowCount input) true) = Ok masks'
    /\ assignGroups (received op input masks') = Ok op1
    /\ foldM (initializeAggregate
                (seq (numGroups_ op) (numGroups_ op1 - numGroups_ op)))
         (seq 0 (length (aggregates_ op1))) op1 = Ok op2
    /\ evaluateAggregates op2 = Ok op3
    /\ ((outputBatchSize_ op3 < numGroups_ op3
         /\ exists batch op4 op5,
              createOutput (outputBatchSize_ op3) op3 = Ok (batch, op4)
              /\ rotateGroups op4 = Ok op5
              /\ output = Some batch
              /\ op' = consumed op5)
        \/ (numGroups_ op3 <= outputBatchSize_ op3
            /\ output = None
            /\ op' = consumed op3)).
Proof.
  intros Hinput H. unfold getOutput in H. rewrite Hinput in H.
  apply bind_Ok in H as (masks & Hmasks%require_Ok & H).
  apply bind_Ok in H as (masks' & Hadd & H).
  apply bind_Ok in H as (op1 & Hassign & H).
  apply bind_Ok in H as (op2 & Hinit & H).
  apply bind_Ok in H as (op3 & Heval & H).
  apply bind_Ok in H as ([out op4] & Hout & H).
  injection H as <- <-.
  exists masks, masks', op1, op2, op3.
  split; [done|]. split; [done|]. split; [done|]. split; [done|]. split; [done|].
  destruct (Nat.ltb_spec (outputBatchSize_ op3) (numGroups_ op3)) as [Hlt|Hge].
  - left. split; [done|].
    apply bind_Ok in Hout as ([batch op5] & Hcreate & Hout).
    apply bind_Ok in Hout as (op6 & Hrotate & Hout).
    injection Hout as <- <-. by exists batch, op5, op6.
  - right. by injection Hout as <- <-.
Qed.

Lemma masksAddInput_activeRows masks (input : RowVector) rows masks' i :
  masksAddInput masks input rows = Ok masks' ->
  match maskChannels masks !! i with
  | Some (Some channel) =>
      exists column,
        childAt input channel = Ok column
        /\ activeRows masks' i = Some (evaluateMask column rows)
  | _ => activeRows masks' i = None
  end.
Proof.
  unfold masksAddInput, activeRows. intros H.
  apply bind_Ok in H as (evaluated & Hev%mapM_result_Ok & H). injection H as <-.
  simpl. destruct (maskChannels masks !! i) as [channel|] eqn:Hi.
  - destruct (Forall2_lookup_l _ _ _ _ _ Hev Hi) as (rows' & -> & Hrows).
    destruct channel as [c|]; ok_inv; subst; simpl; eauto.
  - apply Forall2_length in Hev. apply lookup_ge_None in Hi.
    by rewrite lookup_ge_None_2 by lia.
Qed.

(** Everything [getOutput] calls while it processes a pending input. *)
Lemma getOutput_calls op (input : RowVector) output op' :
  input_ op = Some input ->
  getOutput op = Ok (output, op') ->
  exists masks masks' op1 assignCalls updates extracts,
    masks_ op = Some masks
    /\ masksAddInput masks input (replicate (rowCount input) true) = Ok masks'
    /\ assignGroups (received op input masks') = Ok op1
    /\ calls_ op'
       = calls_ op
         ++ [MasksAddInput input (replicate (rowCount input) true)]
         ++ assignCalls
         ++ initializeCalls op1 (seq (numGroups_ op) (numGroups_ op1 - numGroups_ op))
         ++ updates ++ extracts
    /\ Forall isStorageCall assignCalls
    /\ (withinPool op ->
          openedRows assignCalls
          = take (numGroups_ op1 - numGroups_ op) (drop (numGroups_ op) (groups_ op1)))
    /\ length updates = length (aggregates_ op)
    /\ (forall i e, updates !! i = Some e ->
          exists args,
            e = updateCall (step_ op) i (inputGroups_ op1)
                  (default (replicate (rowCount input) true) (activeRows masks' i))
                  args)
    /\ (extracts = [] /\ output = None
        \/ extracts = extractCalls op1 (outputBatchSize_ op) /\ is_Some output)
    /\ exists states : list (option (RowContainer Acc)),
         length states = S (length (aggregates_ op))
         /\ states !! length (aggregates_ op) = Some (rows_ op')
         /\ forall i e, updates !! i = Some e ->
              exists kernel rows args held left,
                aggregates_ op !! i = Some kernel
                /\ e = updateCall (step_ op) i (inputGroups_ op1) rows args
                /\ states !! i = Some (Some held)
                /\ states !! S i = Some (Some left)
                /\ kernelUpdate (step_ op) kernel i (inputGroups_ op1) rows args
                     held
                   = Ok left.
Proof.
  intros Hinput H.
  destruct (getOutput_steps _ _ _ _ Hinput H)
    as (masks & masks' & op1 & op2 & op3 & Hmasks & Hadd & Hassign & Hinit
        & Heval & Hout).
  destruct (assignGroups_effect _ _ input Hassign Hinput) as (Hopens & _).
  destruct Hopens
    as (c & r & G & n & ig & D & assignCalls & Hop1 & Hn & -> & Hstorage & Hpool).
  assert (Hcalls1 : calls_ op1
            = calls_ op ++ [MasksAddInput input (replicate (rowCount input) true)]
              ++ assignCalls).
  { rewrite Hop1. unfold received. op_simpl. by rewrite <- app_assoc. }
  assert (Hframe : step_ op1 = step_ op
            /\ aggregates_ op1 = aggregates_ op
            /\ masks_ op1 = Some masks'
            /\ inputRows_ op1 = replicate (rowCount input) true
            /\ outputBatchSize_ op1 = outputBatchSize_ op
            /\ groups_ op1 = G
            /\ numGroups_ op1 = n)
    by (by rewrite Hop1).
  destruct Hframe as (Hstep & Haggs & Hmasks1 & Hrows1 & Hobs & HG & Hn1).
  clear Hop1.
  apply initializeAggregates_shape in Hinit as (r2 & ->).
  pose proof (evaluateAggregates_effect _ _ Heval)
    as (updates' & states & Hop3 & _ & Hstates & _ & Hlast & Hmade).
  apply evaluateAggregates_shape in Heval as (r3 & updates & -> & Hlen & Hupdates).
  op_simpl.
  assert (updates' = updates) as ->.
  { apply (f_equal calls_) in Hop3. op_simpl. by apply app_inv_head in Hop3. }
  clear Hop3.
  assert (Hchain : forall i e, updates !! i = Some e ->
            exists kernel rows args held left,
              aggregates_ op !! i = Some kernel
              /\ e = updateCall (step_ op) i (inputGroups_ op1) rows args
              /\ states !! i = Some (Some held)
              /\ states !! S i = Some (Some left)
              /\ kernelUpdate (step_ op) kernel i (inputGroups_ op1) rows args
                   held
                 = Ok left).
  { intros i e (rows & args & held & left & Hheld & Hleft & kernel & channels
                & Hkernel & _ & _ & _ & Hupdate & ->)%Hmade.
    op_simpl. exists kernel, rows, args, held, left.
    rewrite <- Hstep, <- Haggs. done. }
  rewrite Haggs in Hstates, Hlast.
  exists masks, masks', op1, assignCalls, updates.
  assert (Hupdates' : forall i e, updates !! i = Some e ->
            exists args,
              e = updateCall (step_ op) i (inputGroups_ op1)
                    (default (replicate (rowCount input) true) (activeRows masks' i))
                    args).
  { intros i e (rows & args & Hsel & ->)%Hupdates. exists args.
    rewrite Hstep. f_equal.
    unfold getSelectivityVector in Hsel. op_simpl.
    rewrite Hmasks1, Hrows1 in Hsel. cbn [require bind] in Hsel.
    destruct (activeRows masks' i); by injection Hsel as <-. }
  assert (Hopened : withinPool op ->
            openedRows assignCalls
            = take (numGroups_ op1 - numGroups_ op)
                (drop (numGroups_ op) (groups_ op1))).
  { intros Hle. rewrite HG, Hn1. by apply Hpool. }
  destruct Hout as [(Hlt & batch & op4 & op5 & Hcreate & Hrotate & -> & ->)
                   |(Hge & -> & ->)].
  - exists (extractCalls op1 (outputBatchSize_ op)).
    apply createOutput_shape in Hcreate as (-> & _).
    unfold rotateGroups in Hrotate. op_simpl.
    destruct (length (groups_ op1) <? outputBatchSize_ op1); [done|].
    injection Hrotate as <-. unfold consumed. op_simpl.
    split; [done|]. split; [done|]. split; [done|]. split.
    { rewrite Hcalls1, Hobs. unfold extractCalls. op_simpl.
      repeat rewrite <- app_assoc. done. }
    split; [done|]. split; [done|]. split; [congruence|]. split; [done|].
    split; [right; split; [done|]; by eexists|].
    exists states. done.
  - exists []. unfold consumed. op_simpl.
    split; [done|]. split; [done|]. split; [done|]. split.
    { rewrite Hcalls1, app_nil_r. repeat rewrite <- app_assoc. done. }
    split; [done|]. split; [done|]. split; [congruence|]. split; [done|].
    split; [by left|].
    exists states. done.
Qed.

Lemma isUpdateCall_storage (calls : list Event) :
  Forall isStorageCall calls -> Forall (fun e => isUpdateCall e = false) calls.
Proof. apply Forall_impl. by intros []. Qed.

Lemma isUpdateCall_initializeCalls op newGroups :
  Forall (fun e => isUpdateCall e = false) (initializeCalls op newGroups).
Proof. unfold initializeCalls. apply Forall_fmap, Forall_forall. done. Qed.

Lemma isExtractCall_extractCalls op n : Forall isExtractCall (extractCalls op n).
Proof.
  unfold extractCalls, extractCall. apply Forall_app. split.
  - apply Forall_fmap, Forall_forall. done.
  - apply Forall_fmap, Forall_forall. intros i _. simpl.
    by destruct (isPartialOutput (step_ op)).
Qed.

Lemma isUpdateCall_extract (calls : list Event) :
  Forall isExtractCall calls -> Forall (fun e => isUpdateCall e = false) calls.
Proof. apply Forall_impl. by intros []. Qed.

(** C8. While [getOutput] processes a pending input, the kernel of every
    aggregate [i] is entered once to update the groups, and the selection it
    is given is the one the mask collaborator answers for [i], the
    evaluation of its mask column over all rows of the batch, when [i] has a
    mask column, and the selection of all rows of the batch when it has
    none. The rows of the operator afterwards are the rows that these
    updates leave, one after the other. *)
Theorem update_selection_follows_mask op (input : RowVector) output op' :
  input_ op = Some input ->
  getOutput op = Ok (output, op') ->
  exists masks masks' before updates after
         (states : list (option (RowContainer Acc))),
    masks_ op = Some masks
    /\ masksAddInput masks input (replicate (rowCount input) true) = Ok masks'
    /\ calls_ op' = calls_ op ++ before ++ updates ++ after
    /\ Forall (fun e => isUpdateCall e = false) (before ++ after)
    /\ length updates = length (aggregates_ op)
    /\ length states = S (length (aggregates_ op))
    /\ states !! length (aggregates_ op) = Some (rows_ op')
    /\ forall i e, updates !! i = Some e ->
         exists kernel groups rows args held left,
           e = updateCall (step_ op) i groups rows args
           /\ aggregates_ op !! i = Some kernel
           /\ states !! i = Some (Some held)
           /\ states !! S i = Some (Some left)
           /\ kernelUpdate (step_ op) kernel i groups rows args held = Ok left
           /\ match maskChannels masks !! i with
              | Some (Some channel) =>
                  activeRows masks' i = Some rows
                  /\ exists column,
                       childAt input channel = Ok column
                       /\ rows = evaluateMask column
                                   (replicate (rowCount input) true)
              | _ => rows = replicate (rowCount input) true
              end.
Proof.
  intros Hinput H.
  destruct (getOutput_calls _ _ _ _ Hinput H)
    as (masks & masks' & op1 & assignCalls & updates & extracts & Hmasks & Hadd
        & _ & Hcalls & Hstorage & _ & Hlen & Hupdates & Hextracts
        & states & Hstates & Hlast & Hchain).
  exists masks, masks',
    ([MasksAddInput input (replicate (rowCount input) true)] ++ assignCalls
     ++ initializeCalls op1 (seq (numGroups_ op) (numGroups_ op1 - numGroups_ op))),
    updates, extracts, states.
  split; [done|]. split; [done|].
  split; [rewrite Hcalls; by repeat rewrite <- app_assoc|].
  split.
  { repeat apply Forall_app_2.
    - by repeat constructor.
    - by apply isUpdateCall_storage.
    - apply isUpdateCall_initializeCalls.
    - destruct Hextracts as [[-> _]|[-> _]]; [done|].
      apply isUpdateCall_extract, isExtractCall_extractCalls. }
  split; [done|]. split; [done|]. split; [done|].
  intros i e Hi.
  destruct (Hupdates i e Hi) as (args & He).
  destruct (Hchain i e Hi)
    as (kernel & rows & args' & held & left & Hkernel & He' & Hheld & Hleft
        & Hupdate).
  assert (Hsame : rows = default (replicate (rowCount input) true)
                           (activeRows masks' i) /\ args' = args).
  { rewrite He in He'. unfold updateCall in He'.
    destruct (isRawInput (step_ op)); by injection He' as <- <-. }
  destruct Hsame as [-> ->].
  eexists kernel, _, _, args, held, left.
  split; [exact He|]. split; [done|]. split; [done|]. split; [done|].
  split; [exact Hupdate|].
  pose proof (masksAddInput_activeRows _ _ _ _ i Hadd) as Hactive.
  destruct (maskChannels masks !! i) as [[channel|]|].
  - destruct Hactive as (column & Hcolumn & ->). simpl. eauto.
  - by rewrite Hactive.
  - by rewrite Hactive.
Qed.


(** C2. A batch that [getOutput] returns while it processes a pending input
    has exactly [outputBatchSize_] rows, and it is returned exactly when the
    number of groups after the assignment exceeds [outputBatchSize_], which
    is then subtracted from it. With no pending input, with [noMoreInput_]
    set and with open groups left, [getOutput] returns all of them in one
    batch and sets the number of groups to zero; otherwise it returns
    nothing. *)
Theorem output_batch_sizes op output op' :
  getOutput op = Ok (output, op') ->
  match input_ op with
  | Some input =>
      exists masks' op1,
        assignGroups (received op input masks') = Ok op1
        /\ match output with
           | Some batch =>
               rowCount batch = outputBatchSize_ op
               /\ outputBatchSize_ op < numGroups_ op1
               /\ numGroups_ op' = numGroups_ op1 - outputBatchSize_ op
           | None =>
               numGroups_ op1 <= outputBatchSize_ op
               /\ numGroups_ op' = numGroups_ op1
           end
  | None =>
      if noMoreInput_ op && (0 <? numGroups_ op) then
        exists batch,
          output = Some batch
          /\ rowCount batch = numGroups_ op
          /\ numGroups_ op' = 0
      else output = None /\ op' = op
  end.
Proof.
  intros H. destruct (input_ op) as [input|] eqn:Hinput.
  - destruct (getOutput_steps _ _ _ _ Hinput H)
      as (masks & masks' & op1 & op2 & op3 & Hmasks & Hadd & Hassign & Hinit
          & Heval & Hout).
    exists masks', op1. split; [done|].
    destruct (assignGroups_effect _ _ input Hassign Hinput) as (Hopens & _).
    assert (Hobs : outputBatchSize_ op1 = outputBatchSize_ op).
    { destruct Hopens as (c & r & G & n & ig & D & evs & -> & _). done. }
    apply initializeAggregates_shape in Hinit as (r2 & ->).
    apply evaluateAggregates_shape in Heval as (r3 & updates & -> & _).
    op_simpl.
    destruct Hout as [(Hlt & batch & op4 & op5 & Hcreate & Hrotate & -> & ->)
                     |(Hge & -> & ->)].
    + apply createOutput_shape in Hcreate as (-> & Hrows & _).
      unfold rotateGroups in Hrotate. op_simpl.
      destruct (length (groups_ op1) <? outputBatchSize_ op1); [done|].
      injection Hrotate as <-. unfold consumed. op_simpl.
      rewrite <- Hobs. done.
    + unfold consumed. op_simpl. rewrite <- Hobs. done.
  - unfold getOutput in H. rewrite Hinput in H.
    destruct (noMoreInput_ op && (0 <? numGroups_ op)).
    + apply bind_Ok in H as ([batch op1] & Hcreate & H). injection H as <- <-.
      apply createOutput_shape in Hcreate as (-> & Hrows & _).
      exists batch. done.
    + by injection H as <- <-.
Qed.

End Dispatch.

(** * Opening a slot: reuse or allocation *)

Section OpenSlot.

Context {Acc : Type}.
Implicit Types (op : Operator Acc) (rc : RowContainer Acc).
Implicit Types (p q : Ptr) (G : list Ptr).


End OpenSlot.

(** * Building an output batch *)

Section Output.

Context {Acc : Type}.
Implicit Types (op : Operator Acc) (rc : RowContainer Acc).
Implicit Types (p q : Ptr) (G : list Ptr).

Lemma bind_Ok_r {A} (m : Result A) : (let* a := m in Ok a) = m.
Proof. by destruct m. Qed.

Lemma foldM_seq_S {A} (f : A -> nat -> Result A) (k : nat) (a : A) :
  foldM f (seq 0 (S k)) a = let* a' := foldM f (seq 0 k) a in f a' k.
Proof.
  rewrite seq_S, foldM_app. simpl. destruct (foldM f (seq 0 k) a); simpl; [|done].
  apply bind_Ok_r.
Qed.

Lemma readValue_flat (values : list Value) (r : nat) :
  readValue (FlatVector values) r = default None (values !! r).
Proof.
  unfold readValue, valueAt.
  destruct (Z.ltb_spec (Z.of_nat r) 0); [lia|].
  rewrite Nat2Z.id. by destruct (values !! r).
Qed.

(** The value that column [i] of the output holds for the row at [p]. *)
Definition keyValue rc (i : nat) p : Value :=
  match rowAt rc p with
  | Some row => default None (keys row !! i)
  | None => None
  end.

Definition extractedValue rc (extract : Acc -> Value) (a : nat) p : Value :=
  match rowAt rc p with
  | Some row =>
      match accumulators row !! a with
      | Some (Some acc) => extract acc
      | _ => None
      end
  | None => None
  end.

Definition keyColumn rc G (n i : nat) : Vector :=
  FlatVector (map (keyValue rc i) (take n G)).

Definition aggregateColumn op rc (n a : nat) : Vector :=
  match aggregates_ op !! a with
  | Some kernel =>
      FlatVector
        (map (extractedValue rc (extractOf (step_ op) kernel) a)
           (take n (groups_ op)))
  | None => FlatVector []
  end.

(** The first [n] slots hold rows with all keys and all accumulators set. *)
Definition readySlots op rc (n : nat) : Prop :=
  n <= length (groups_ op)
  /\ forall p, p ∈ take n (groups_ op) ->
       exists row,
         rowAt rc p = Some row
         /\ length (keys row) = length (groupingKeys_ op)
         /\ length (accumulators row) = length (aggregates_ op)
         /\ Forall is_Some (accumulators row).

Lemma extractColumn_spec rc G (n i : nat) :
  n <= length G ->
  (forall p, p ∈ take n G ->
     exists row, rowAt rc p = Some row /\ i < length (keys row)) ->
  extractColumn rc G n i = Ok (keyColumn rc G n i).
Proof.
  intros Hn Hrows. unfold extractColumn, keyColumn.
  destruct (Nat.ltb_spec (length G) n); [lia|].
  rewrite (mapM_result_total _ (keyValue rc i)); [done|].
  intros p (row & Hrow & Hi)%Hrows. unfold keyValue. rewrite Hrow. simpl.
  destruct (lookup_lt_is_Some_2 _ _ Hi) as [v Hv]. unfold Value in *.
  by rewrite Hv.
Qed.

Lemma extractGroups_spec rc (extract : Acc -> Value) G (n a : nat) :
  n <= length G ->
  (forall p, p ∈ take n G ->
     exists row acc,
       rowAt rc p = Some row /\ accumulators row !! a = Some (Some acc)) ->
  extractGroups extract a G n rc
  = Ok (FlatVector (map (extractedValue rc extract a) (take n G))).
Proof.
  intros Hn Hrows. unfold extractGroups.
  destruct (Nat.ltb_spec (length G) n); [lia|].
  rewrite (mapM_result_total _ (extractedValue rc extract a)); [done|].
  intros p (row & acc & Hrow & Hacc)%Hrows. unfold extractedValue.
  rewrite Hrow. simpl. by rewrite Hacc.
Qed.

Lemma extractKeyColumns_spec op rc (n k : nat) :
  rows_ op = Some rc ->
  readySlots op rc n ->
  k <= length (groupingKeys_ op) ->
  foldM (extractKeyColumn n) (seq 0 k) ([], op)
  = Ok (map (keyColumn rc (groups_ op) n) (seq 0 k),
        set_calls (calls_ op ++ map (ExtractColumn (groups_ op) n) (seq 0 k)) op).
Proof.
  intros Hrc [Hn Hready]. induction k as [|k IH]; intros Hk.
  - simpl. by rewrite app_nil_r.
  - rewrite foldM_seq_S, IH by lia. cbn [bind].
    unfold extractKeyColumn. op_simpl. rewrite Hrc. cbn [require bind].
    rewrite extractColumn_spec; [|done|].
    + cbn [bind]. rewrite !seq_S, !map_app. simpl.
      unfold record. op_simpl. by rewrite <- app_assoc.
    + intros p (row & Hrow & Hkeys & _)%Hready. exists row. split; [done|lia].
Qed.

Lemma extractAggregateColumns_spec op rc (n k : nat) :
  rows_ op = Some rc ->
  readySlots op rc n ->
  k <= length (aggregates_ op) ->
  foldM (extractAggregateColumn n) (seq 0 k) ([], op)
  = Ok (map (aggregateColumn op rc n) (seq 0 k),
        set_calls
          (calls_ op ++ map (extractCall (step_ op) (groups_ op) n) (seq 0 k)) op).
Proof.
  intros Hrc [Hn Hready]. induction k as [|k IH]; intros Hk.
  - simpl. by rewrite app_nil_r.
  - rewrite foldM_seq_S, IH by lia. cbn [bind].
    unfold extractAggregateColumn. op_simpl.
    destruct (lookup_lt_is_Some_2 (aggregates_ op) k) as [kernel Hkernel]; [lia|].
    rewrite Hkernel, Hrc. cbn [require bind].
    assert (Hcolumn : forall extract,
              extractGroups extract k (groups_ op) n rc
              = Ok (FlatVector (map (extractedValue rc extract k)
                                  (take n (groups_ op))))).
    { intros extract. apply extractGroups_spec; [done|].
      intros p (row & Hrow & _ & Haccs & Hsome)%Hready.
      destruct (lookup_lt_is_Some_2 (accumulators row) k) as [slot Hslot]; [lia|].
      destruct (proj1 (Forall_lookup _ _) Hsome _ _ Hslot) as [acc ->].
      by exists row, acc. }
    unfold extractAccumulators, extractValues, extractCall, aggregateColumn, extractOf.
    rewrite !seq_S, !map_app. simpl. rewrite Hkernel.
    destruct (isPartialOutput (step_ op)); rewrite Hcolumn; cbn [bind];
      unfold record; op_simpl; by rewrite <- app_assoc.
Qed.

Definition outputBatch op rc (n : nat) : RowVector :=
  {| rowCount := n;
     children :=
       map (keyColumn rc (groups_ op) n) (seq 0 (length (groupingKeys_ op)))
       ++ map (aggregateColumn op rc n) (seq 0 (length (aggregates_ op))) |}.

Lemma createOutput_spec op rc (n : nat) :
  rows_ op = Some rc ->
  readySlots op rc n ->
  createOutput n op
  = Ok (outputBatch op rc n, set_calls (calls_ op ++ extractCalls op n) op).
Proof.
  intros Hrc Hready. unfold createOutput.
  rewrite (extractKeyColumns_spec op rc) by done. cbn [bind].
  rewrite (extractAggregateColumns_spec _ rc); [| done | done | done].
  cbn [bind]. unfold outputBatch, extractCalls. op_simpl.
  by rewrite <- app_assoc.
Qed.

(** One output row: the keys of the slot, then what each kernel extracts. *)
Definition outputRow (nodeStep : Step) (kernels : list (Aggregate Acc))
    (row : Row Acc) : list Value :=
  keys row
  ++ zip_with (fun kernel slot =>
                 match slot with
                 | Some acc => extractOf nodeStep kernel acc
                 | None => None
                 end) kernels (accumulators row).

Lemma outputBatch_rowValues op rc (n r : nat) p row :
  r < n ->
  groups_ op !! r = Some p ->
  rowAt rc p = Some row ->
  length (keys row) = length (groupingKeys_ op) ->
  length (accumulators row) = length (aggregates_ op) ->
  rowValues (outputBatch op rc n) r = outputRow (step_ op) (aggregates_ op) row.
Proof.
  intros Hr Hp Hrow Hkeys Haccs. unfold rowValues, outputBatch, outputRow. simpl.
  assert (Htake : take n (groups_ op) !! r = Some p) by (by rewrite lookup_take_lt).
  rewrite map_app. f_equal.
  - apply list_eq. intros j. rewrite !list_lookup_fmap.
    destruct (decide (j < length (groupingKeys_ op))) as [Hj|Hj].
    + rewrite lookup_seq_lt by done. simpl.
      unfold keyColumn. rewrite readValue_flat, list_lookup_fmap, Htake. simpl.
      unfold keyValue. rewrite Hrow.
      destruct (lookup_lt_is_Some_2 (keys row) j) as [v Hv]; [lia|].
      unfold Value in *. by rewrite Hv.
    + rewrite lookup_seq_ge by lia. simpl. symmetry.
      apply lookup_ge_None_2. lia.
  - apply list_eq. intros a. rewrite !list_lookup_fmap, lookup_zip_with.
    destruct (decide (a < length (aggregates_ op))) as [Ha|Ha].
    + rewrite lookup_seq_lt by done. simpl.
      destruct (lookup_lt_is_Some_2 (aggregates_ op) a Ha) as [kernel Hkernel].
      destruct (lookup_lt_is_Some_2 (accumulators row) a) as [slot Hslot]; [lia|].
      unfold aggregateColumn. rewrite Hkernel, Hslot. simpl.
      rewrite readValue_flat, list_lookup_fmap, Htake. simpl.
      unfold extractedValue. rewrite Hrow, Hslot. by destruct slot.
    + rewrite lookup_seq_ge by lia. simpl.
      by rewrite (lookup_ge_None_2 (aggregates_ op)) by lia.
Qed.

(** C9. [createOutput(n)] returns a batch of exactly [n] rows with one
    column per grouping key followed by one column per aggregate, in the
    order of the descriptors; row [r] of the batch holds the keys and the
    extracted aggregate results of the group stored at [groups_[r]], so the
    rows come in the order of the slots. *)
Theorem createOutput_reads_slots_in_order op rc (n : nat) :
  rows_ op = Some rc ->
  readySlots op rc n ->
  exists batch op',
    createOutput n op = Ok (batch, op')
    /\ rowCount batch = n
    /\ length (children batch)
       = length (groupingKeys_ op) + length (aggregates_ op)
    /\ forall r p row,
         r < n ->
         groups_ op !! r = Some p ->
         rowAt rc p = Some row ->
         rowValues batch r
         = keys row
           ++ zip_with (fun kernel slot =>
                          match slot with
                          | Some acc => extractOf (step_ op) kernel acc
                          | None => None
                          end) (aggregates_ op) (accumulators row).
Proof.
  intros Hrc Hready. eexists _, _. split; [by apply createOutput_spec|].
  split; [done|]. split.
  { simpl. by rewrite length_app, !length_map, !length_seq. }
  intros r p row Hr Hp Hrow. destruct Hready as [Hn Hrows].
  destruct (Hrows p) as (row' & Hrow' & Hkeys & Haccs & _).
  { apply list_elem_of_lookup. exists r. by rewrite lookup_take_lt. }
  simplify_eq. by eapply outputBatch_rowValues.
Qed.

End Output.

(** * States reachable under the driver protocol *)

Section Protocol.

Context {Acc : Type}.
Implicit Types (op : Operator Acc) (rc : RowContainer Acc).

(** The driver pushes a batch only when none is pending and the end of the
    input was not signalled; it may pull and signal the end at any time.
    [allowed] says which batches the driver may push. *)
Inductive reachable (allowed : RowVector -> Prop) (start : Operator Acc)
    : Operator Acc -> Prop :=
| reach_start : reachable allowed start start
| reach_addInput op input :
    reachable allowed start op ->
    allowed input ->
    input_ op = None ->
    noMoreInput_ op = false ->
    reachable allowed start (addInput input op)
| reach_getOutput op output op' :
    reachable allowed start op ->
    getOutput op = Ok (output, op') ->
    reachable allowed start op'
| reach_noMoreInput op :
    reachable allowed start op ->
    reachable allowed start (noMoreInput op).

Definition nonEmpty (batch : RowVector) : Prop := 0 < rowCount batch.

(** What holds in every state the protocol reaches with non-empty batches. *)
Definition seamSafe op : Prop :=
  numGroups_ op <= length (groups_ op)
  /\ (forall input, input_ op = Some input -> 0 < rowCount input)
  /\ (is_Some (prevInput_ op) ->
        1 <= numGroups_ op \/ (noMoreInput_ op = true /\ input_ op = None)).

Lemma rotateGroups_effect op op' :
  rotateGroups op = Ok op' ->
  exists G,
    op' = set_numGroups (numGroups_ op - outputBatchSize_ op) (set_groups G op)
    /\ length G = length (groups_ op).
Proof.
  unfold rotateGroups. intros H.
  destruct (Nat.ltb_spec (length (groups_ op)) (outputBatchSize_ op)); [done|].
  injection H as <-. eexists. split; [done|].
  rewrite rotate_copies by done.
  rewrite length_app, length_drop, length_take. lia.
Qed.

Lemma getOutput_seamSafe op output op' :
  seamSafe op -> getOutput op = Ok (output, op') -> seamSafe op'.
Proof.
  intros Hsafe H. pose proof Hsafe as (Hpool & Hinput & Hprev).
  destruct (input_ op) as [input|] eqn:Hin.
  - destruct (getOutput_steps _ _ _ _ Hin H)
      as (masks & masks' & op1 & op2 & op3 & Hmasks & Hadd & Hassign & Hinit
          & Heval & Hout).
    destruct (assignGroups_effect _ _ input Hassign Hin)
      as (Hopens & _ & Hone & _).
    specialize (Hone (Hinput input eq_refl)).
    pose proof (opens_withinPool _ _ Hopens Hpool) as Hpool1.
    unfold withinPool in Hpool1.
    assert (Hobs : outputBatchSize_ op1 = outputBatchSize_ op).
    { destruct Hopens as (c & r & G & n & ig & D & evs & -> & _). done. }
    apply initializeAggregates_shape in Hinit as (r2 & ->).
    apply evaluateAggregates_shape in Heval as (r3 & updates & -> & _).
    op_simpl.
    destruct Hout as [(Hlt & batch & op4 & op5 & Hcreate & Hrotate & -> & ->)
                     |(Hge & -> & ->)].
    + apply createOutput_shape in Hcreate as (-> & _).
      apply rotateGroups_effect in Hrotate as (G & -> & HG).
      unfold consumed, seamSafe. op_simpl.
      split; [lia|]. split; [done|]. intros _. left. lia.
    + unfold consumed, seamSafe. op_simpl.
      split; [done|]. split; [done|]. intros _. by left.
  - unfold getOutput in H. rewrite Hin in H.
    destruct (noMoreInput_ op) eqn:Hnm; simpl in H.
    + destruct (0 <? numGroups_ op).
      * apply bind_Ok in H as ([batch op1] & Hcreate & H). injection H as <- <-.
        apply createOutput_shape in Hcreate as (-> & _).
        unfold seamSafe. op_simpl.
        split; [lia|]. split; [by rewrite Hin|]. intros _. by right.
      * by injection H as <- <-.
    + by injection H as <- <-.
Qed.

Lemma reachable_seamSafe start op :
  seamSafe start -> reachable nonEmpty start op -> seamSafe op.
Proof.
  intros Hstart Hreach. induction Hreach as
    [|op input Hreach IH Hallowed Hin Hnm|op output op' Hreach IH Hget|op Hreach IH].
  - done.
  - destruct IH as (Hpool & Hinput & Hprev). unfold seamSafe. op_simpl.
    split; [done|]. split; [by intros ? [= <-]|].
    intros Hp. destruct (Hprev Hp) as [?|[? _]]; [by left|congruence].
  - by eapply getOutput_seamSafe.
  - destruct IH as (Hpool & Hinput & Hprev). unfold seamSafe. op_simpl.
    split; [done|]. split; [done|].
    intros Hp. destruct (Hprev Hp) as [?|[? ?]]; [by left|by right].
Qed.

Section Initialized.

Variable createAggregate : string -> Step -> Aggregate Acc.

Lemma initialize_Ok outputBatchRows node op :
  initialize createAggregate (construct outputBatchRows node) = Ok op ->
  isSupported node = true /\ op = initialized createAggregate outputBatchRows node.
Proof.
  intros H. destruct (isSupported node) eqn:Hs.
  - rewrite (initialize_supported createAggregate) in H by done.
    by injection H as <-.
  - destruct (initialize_unsupported createAggregate outputBatchRows node Hs)
      as [m Hm].
    congruence.
Qed.

(** C10, as the code has it. In every state that the driver protocol
    reaches from an initialized operator by pushing non-empty batches,
    whenever an input is pending and a previous batch is retained, the
    number of groups is at least one and within [groups_], so that the read
    of [groups_[numGroups_ - 1]] in [assignGroups] is in bounds. *)
Theorem seam_read_in_bounds outputBatchRows node start op (input : RowVector) :
  initialize createAggregate (construct outputBatchRows node) = Ok start ->
  reachable nonEmpty start op ->
  input_ op = Some input ->
  is_Some (prevInput_ op) ->
  1 <= numGroups_ op <= length (groups_ op)
  /\ exists prevGroup,
       vectorAt (groups_ op) (Z.of_nat (numGroups_ op) - 1) = Ok prevGroup.
Proof.
  intros [_ ->]%initialize_Ok Hreach Hin Hprev.
  apply reachable_seamSafe in Hreach as (Hpool & _ & Hseam).
  - destruct (Hseam Hprev) as [Hone|[_ ?]]; [|congruence].
    split; [lia|]. unfold vectorAt.
    destruct (Z.ltb_spec (Z.of_nat (numGroups_ op) - 1) 0); [lia|].
    destruct (lookup_lt_is_Some_2 (groups_ op)
                (Z.to_nat (Z.of_nat (numGroups_ op) - 1))) as [p ->]; [lia|].
    by exists p.
  - unfold seamSafe. simpl. split; [done|]. split; [done|].
    by intros [? ?].
Qed.

End Initialized.

End Protocol.

(** * Runs of equal keys, row by row *)

Section Runs.

Context {R K : Type} `{EqDecision K} (key : R -> K).
Implicit Types (row : R) (rows run : list R) (runs : list (list R)).
Implicit Types (k : K) (ks : list K) (current : option K).

(** The key of the last run, which the next row is compared with. *)
Definition currentKey runs : option K :=
  list.last runs ≫= fun run => key <$> head run.

(** A row joins the last run when it has its key and opens a run otherwise. *)
Definition absorbRow runs row : list (list R) :=
  if bool_decide (currentKey runs = Some (key row))
  then alter (fun run => run ++ [row]) (length runs - 1) runs
  else runs ++ [[row]].

Definition absorb runs rows : list (list R) := fold_left absorbRow rows runs.

(** The slot of every row, when [n] groups are open and the last one has the
    key [current]. *)
Fixpoint assignSlots (n : nat) current ks : list nat :=
  match ks with
  | [] => []
  | k :: ks' =>
      if bool_decide (current = Some k)
      then (n - 1) :: assignSlots n current ks'
      else n :: assignSlots (S n) (Some k) ks'
  end.

(** The keys of the rows that open a group. *)
Fixpoint openedKeys current ks : list K :=
  match ks with
  | [] => []
  | k :: ks' =>
      if bool_decide (current = Some k)
      then openedKeys current ks'
      else k :: openedKeys (Some k) ks'
  end.

(** The rows that were given slot [s]. *)
Definition rowsOfSlot (s : nat) (slots : list nat) rows : list R :=
  (filter (fun sr => sr.1 = s) (zip slots rows)).*2.

Definition nonEmptyRuns runs : Prop := Forall (fun run => run <> []) runs.

Lemma currentKey_app runs run : currentKey (runs ++ [run]) = key <$> head run.
Proof. unfold currentKey. by rewrite last_snoc. Qed.

Lemma currentKey_Some runs k :
  currentKey runs = Some k -> 1 <= length runs.
Proof. destruct runs; [done|simpl; lia]. Qed.

Lemma runs_snoc_inv runs : runs = [] \/ exists pre last, runs = pre ++ [last].
Proof. induction runs as [|last pre _] using rev_ind; eauto. Qed.

Lemma currentKey_None runs :
  nonEmptyRuns runs -> currentKey runs = None -> runs = [].
Proof.
  intros Hne. destruct (runs_snoc_inv runs) as [->|(pre & last & ->)]; [done|].
  rewrite currentKey_app. apply Forall_app in Hne as [_ Hne].
  rewrite Forall_singleton in Hne. by destruct last; simpl.
Qed.

Lemma alter_last runs run (f : list R -> list R) :
  alter f (length (runs ++ [run]) - 1) (runs ++ [run]) = runs ++ [f run].
Proof.
  rewrite length_app. simpl.
  replace (length runs + 1 - 1) with (length runs + 0) by lia.
  by rewrite alter_app_r.
Qed.

Lemma absorbRow_nonEmpty runs row :
  nonEmptyRuns runs -> nonEmptyRuns (absorbRow runs row).
Proof.
  intros Hne. unfold absorbRow. case_bool_decide as Hk.
  - destruct (runs_snoc_inv runs) as [->|(pre & last & ->)]; [done|].
    rewrite alter_last. apply Forall_app in Hne as [Hne _].
    apply Forall_app. split; [done|]. apply Forall_singleton. by destruct last.
  - apply Forall_app. split; [done|]. by apply Forall_singleton.
Qed.

Lemma absorbRow_currentKey runs row :
  nonEmptyRuns runs -> currentKey (absorbRow runs row) = Some (key row).
Proof.
  intros Hne. unfold absorbRow. case_bool_decide as Hk.
  - destruct (runs_snoc_inv runs) as [->|(pre & last & ->)]; [done|].
    rewrite alter_last, currentKey_app. rewrite currentKey_app in Hk.
    apply Forall_app in Hne as [_ Hne]. rewrite Forall_singleton in Hne.
    by destruct last.
  - by rewrite currentKey_app.
Qed.

Lemma absorb_nonEmpty rows : forall runs,
  nonEmptyRuns runs -> nonEmptyRuns (absorb runs rows).
Proof.
  induction rows as [|row rows IH]; intros runs Hne; [done|].
  simpl. apply IH. by apply absorbRow_nonEmpty.
Qed.

Lemma absorb_app runs rows rows' :
  absorb runs (rows ++ rows') = absorb (absorb runs rows) rows'.
Proof. apply fold_left_app. Qed.

Lemma absorb_currentKey runs rows row :
  nonEmptyRuns runs ->
  list.last rows = Some row ->
  currentKey (absorb runs rows) = Some (key row).
Proof.
  intros Hne Hlast. apply last_Some in Hlast as [rows' ->].
  rewrite absorb_app. simpl. apply absorbRow_currentKey.
  by apply absorb_nonEmpty.
Qed.

(** The keys of the runs after a batch: those before, then the opened ones. *)
Lemma absorb_heads rows : forall runs,
  nonEmptyRuns runs ->
  map (fun run => key <$> head run) (absorb runs rows)
  = map (fun run => key <$> head run) runs
    ++ map Some (openedKeys (currentKey runs) (map key rows)).
Proof.
  induction rows as [|row rows IH]; intros runs Hne; simpl.
  - by rewrite app_nil_r.
  - rewrite IH by (by apply absorbRow_nonEmpty).
    rewrite absorbRow_currentKey by done.
    unfold absorbRow. case_bool_decide as Hk.
    + destruct (runs_snoc_inv runs) as [->|(pre & last & ->)]; [done|].
      rewrite alter_last, !map_app. simpl. do 2 f_equal.
      * apply Forall_app in Hne as [_ Hne]. rewrite Forall_singleton in Hne.
        by destruct last.
      * by rewrite Hk.
    + rewrite map_app. simpl. by rewrite <- app_assoc.
Qed.

Lemma assignSlots_length ks : forall n current,
  length (assignSlots n current ks) = length ks.
Proof.
  induction ks as [|k ks IH]; intros n current; simpl; [done|].
  case_bool_decide; simpl; by rewrite IH.
Qed.

Lemma assignSlots_bound ks : forall n current,
  (is_Some current -> 1 <= n) ->
  Forall (fun s => s < n + length (openedKeys current ks))
    (assignSlots n current ks).
Proof.
  induction ks as [|k ks IH]; intros n current Hn; simpl; [done|].
  case_bool_decide as Hk.
  - constructor; [|by apply IH]. assert (1 <= n) by (apply Hn; by eexists). lia.
  - constructor; [simpl; lia|]. simpl.
    eapply Forall_impl; [|apply (IH (S n) (Some k)); intros _; lia].
    simpl. intros; lia.
Qed.

Lemma rowsOfSlot_cons s s' slots row rows :
  rowsOfSlot s (s' :: slots) (row :: rows)
  = if decide (s' = s) then row :: rowsOfSlot s slots rows
    else rowsOfSlot s slots rows.
Proof.
  unfold rowsOfSlot. simpl. rewrite filter_cons. simpl.
  by destruct (decide (s' = s)).
Qed.

Lemma rowsOfSlot_snoc s s' slots row rows :
  length slots = length rows ->
  rowsOfSlot s (slots ++ [s']) (rows ++ [row])
  = rowsOfSlot s slots rows ++ (if decide (s' = s) then [row] else []).
Proof.
  intros Hlen. unfold rowsOfSlot.
  rewrite zip_with_app by done. rewrite list.filter_app, fmap_app. f_equal.
  simpl. rewrite filter_cons, filter_nil. simpl.
  by destruct (decide (s' = s)).
Qed.

(** Run [s] after a batch: what it held before, then the rows of slot [s]. *)
Lemma absorb_lookup rows : forall runs s,
  nonEmptyRuns runs ->
  absorb runs rows !! s
  = if decide (s < length runs
                   + length (openedKeys (currentKey runs) (map key rows)))
    then Some (default [] (runs !! s)
               ++ rowsOfSlot s
                    (assignSlots (length runs) (currentKey runs) (map key rows))
                    rows)
    else None.
Proof.
  induction rows as [|row rows IH]; intros runs s Hne; simpl.
  - rewrite Nat.add_0_r. unfold rowsOfSlot. simpl. destruct (decide _) as [Hs|Hs].
    + destruct (lookup_lt_is_Some_2 runs s Hs) as [run ->]. simpl.
      by rewrite app_nil_r.
    + apply lookup_ge_None_2. lia.
  - rewrite IH by (by apply absorbRow_nonEmpty).
    rewrite absorbRow_currentKey by done.
    unfold absorbRow. case_bool_decide as Hk.
    + pose proof (currentKey_Some _ _ Hk) as Hlen.
      rewrite length_alter, Hk.
      destruct (decide _) as [Hs|Hs]; [|done]. f_equal.
      rewrite rowsOfSlot_cons.
      destruct (decide (length runs - 1 = s)) as [<-|Hne'].
      * rewrite list_lookup_alter_eq.
        destruct (lookup_lt_is_Some_2 runs (length runs - 1)) as [run ->]; [lia|].
        simpl. by rewrite <- app_assoc.
      * by rewrite list_lookup_alter_ne.
    + rewrite length_app. simpl.
      replace (length runs + 1 + length (openedKeys (Some (key row)) (map key rows)))
        with (length runs
              + S (length (openedKeys (Some (key row)) (map key rows)))) by lia.
      destruct (decide _) as [Hs|Hs]; [|done]. f_equal.
      rewrite rowsOfSlot_cons.
      replace (length runs + 1) with (S (length runs)) by lia.
      destruct (decide (length runs = s)) as [<-|Hne'].
      * rewrite lookup_app_r by lia. rewrite Nat.sub_diag. simpl.
        by rewrite (lookup_ge_None_2 runs) by lia.
      * destruct (decide (s < length runs)).
        -- by rewrite lookup_app_l.
        -- rewrite !lookup_ge_None_2; [done|lia|]. rewrite length_app. simpl. lia.
Qed.

Lemma absorb_length runs rows :
  nonEmptyRuns runs ->
  length (absorb runs rows)
  = length runs + length (openedKeys (currentKey runs) (map key rows)).
Proof.
  intros Hne.
  pose proof (absorb_lookup rows runs) as Hlook.
  set (n := length runs + length (openedKeys (currentKey runs) (map key rows))) in *.
  destruct (decide (length (absorb runs rows) = n)) as [|Hneq]; [done|].
  destruct (decide (length (absorb runs rows) < n)) as [Hlt|Hge].
  - specialize (Hlook (length (absorb runs rows)) Hne).
    rewrite lookup_ge_None_2 in Hlook by lia.
    by destruct (decide _); [|lia].
  - specialize (Hlook n Hne).
    destruct (decide (n < n)); [lia|].
    apply lookup_ge_None in Hlook. lia.
Qed.

(** Rows with the key of the last open group join it. *)
Lemma assignSlots_continue k pre ks n :
  Forall (fun k' => k' = k) pre ->
  assignSlots n (Some k) (pre ++ ks)
  = replicate (length pre) (n - 1) ++ assignSlots n (Some k) ks.
Proof.
  induction 1 as [|k' pre -> _ IH]; [done|].
  simpl. by rewrite bool_decide_true, IH by done.
Qed.

Lemma openedKeys_continue k pre ks :
  Forall (fun k' => k' = k) pre ->
  openedKeys (Some k) (pre ++ ks) = openedKeys (Some k) ks.
Proof.
  induction 1 as [|k' pre -> _ IH]; [done|].
  simpl. by rewrite bool_decide_true, IH by done.
Qed.

(** Rows are absorbed by the last run or open runs after it: the runs
    before the last one stay as they are. *)
Lemma absorbRow_app_l pre runs row :
  runs <> [] ->
  absorbRow (pre ++ runs) row = pre ++ absorbRow runs row
  /\ absorbRow runs row <> [].
Proof.
  intros Hne. destruct (runs_snoc_inv runs) as [->|(runs' & last & ->)]; [done|].
  unfold absorbRow. rewrite app_assoc, !currentKey_app.
  case_bool_decide.
  - rewrite !alter_last. split; [by rewrite app_assoc|].
    by destruct runs'.
  - split; [by rewrite !app_assoc|]. by destruct runs'.
Qed.

Lemma absorb_app_l rows : forall pre runs,
  runs <> [] ->
  absorb (pre ++ runs) rows = pre ++ absorb runs rows.
Proof.
  induction rows as [|row rows IH]; intros pre runs Hne; [done|].
  cbn [absorb fold_left].
  destruct (absorbRow_app_l pre runs row Hne) as [-> Hne'].
  by apply IH.
Qed.

Lemma absorb_drop runs rows (n : nat) :
  n < length runs ->
  absorb runs rows = take n runs ++ absorb (drop n runs) rows.
Proof.
  intros Hn. rewrite <- (take_drop n runs) at 1. apply absorb_app_l.
  intros Hnil. apply (f_equal length) in Hnil.
  rewrite length_drop in Hnil. simpl in Hnil. lia.
Qed.

Lemma currentKey_drop runs (n : nat) :
  n < length runs -> currentKey (drop n runs) = currentKey runs.
Proof.
  intros Hn. unfold currentKey. f_equal.
  rewrite <- (take_drop n runs) at 2.
  destruct (runs_snoc_inv (drop n runs)) as [Hnil|(pre & last & Hlast)].
  - apply (f_equal length) in Hnil. rewrite length_drop in Hnil. simpl in Hnil. lia.
  - rewrite Hlast, app_assoc. by rewrite !last_snoc.
Qed.

(** ** Runs as the reference splits them *)

Lemma runsFrom_absorb rows :
  forall (pre : list (list R)) (cur : list R) (prev : R),
  cur <> [] ->
  key <$> head cur = Some (key prev) ->
  absorb (pre ++ [cur]) rows = pre ++ runsFrom key cur prev rows.
Proof.
  induction rows as [|row rows IH]; intros pre cur prev Hne Hkey; [done|].
  cbn [absorb fold_left runsFrom]. fold (absorb (absorbRow (pre ++ [cur]) row) rows).
  unfold absorbRow. rewrite currentKey_app, Hkey.
  destruct (decide (key row = key prev)) as [Heq|Hneq].
  - rewrite (bool_decide_true (Some (key prev) = Some (key row))) by congruence.
    rewrite (bool_decide_true (key row = key prev)) by done.
    rewrite alter_last. apply IH.
    + by destruct cur.
    + destruct cur; [done|]. simpl in *. congruence.
  - rewrite (bool_decide_false (Some (key prev) = Some (key row))) by congruence.
    rewrite (bool_decide_false (key row = key prev)) by done.
    rewrite (IH (pre ++ [cur]) [row] row); [|done|done].
    by rewrite <- app_assoc.
Qed.

Lemma runs_absorb rows : runs key rows = absorb [] rows.
Proof.
  destruct rows as [|row rows]; [done|].
  change (absorb [] (row :: rows)) with (absorb ([] ++ [[row]]) rows).
  by rewrite (runsFrom_absorb rows [] [row] row).
Qed.

Lemma runs_nonEmpty rows : nonEmptyRuns (runs key rows).
Proof. rewrite runs_absorb. apply absorb_nonEmpty. constructor. Qed.

(** The runs of a list are a splitting of it. *)
Lemma runsFrom_concat rows : forall (cur : list R) (prev : R),
  concat (runsFrom key cur prev rows) = cur ++ rows.
Proof.
  induction rows as [|row rows IH]; intros cur prev; simpl.
  - done.
  - case_bool_decide; simpl; rewrite IH; [by rewrite <- app_assoc|done].
Qed.

Lemma runs_concat rows : concat (runs key rows) = rows.
Proof.
  destruct rows as [|row rows]; [done|]. simpl. by rewrite runsFrom_concat.
Qed.

(** ** Sorted input: the runs are the distinct keys *)

Section Sorted.

Variable le : K -> K -> Prop.
Hypothesis le_trans : Transitive le.
Hypothesis le_antisym : forall k k', le k k' -> le k' k -> k = k'.

Lemma openedKeys_subset ks : forall current k,
  k ∈ openedKeys current ks -> k ∈ ks.
Proof.
  induction ks as [|k' ks IH]; intros current k; simpl; [done|].
  case_bool_decide.
  - intros Hk%IH. by right.
  - intros [->|Hk%IH]%elem_of_cons; [left|by right].
Qed.

Lemma sorted_no_return k k' ks :
  StronglySorted le (k :: k' :: ks) -> k' <> k -> k ∉ ks.
Proof.
  intros Hsorted Hne Hin.
  inversion Hsorted as [|? ? Hs1 Hk]; subst.
  inversion Hs1 as [|? ? _ Hk']; subst.
  inversion Hk as [|? ? Hkk' _]; subst.
  rewrite Forall_forall in Hk'. apply list_elem_of_In in Hin.
  specialize (Hk' _ Hin). apply Hne. symmetry. by apply le_antisym.
Qed.

Lemma openedKeys_distinct ks : forall k,
  StronglySorted le (k :: ks) ->
  filter (fun k' => k' <> k) (distinctKeys ks) = openedKeys (Some k) ks.
Proof.
  induction ks as [|k' ks IH]; intros k Hsorted; [done|].
  cbn [distinctKeys openedKeys].
  assert (Hsorted' : StronglySorted le (k' :: ks))
    by (by apply StronglySorted_inv in Hsorted as [? _]).
  case_bool_decide as Hk.
  - injection Hk as <-. rewrite filter_cons_False by (by intros ?).
    rewrite list_filter_filter.
    rewrite <- IH by done. apply list_filter_iff. intros ?. tauto.
  - rewrite filter_cons_True by congruence. f_equal.
    rewrite IH by done.
    apply filter_all, Forall_forall. intros x Hx%list_elem_of_In <-.
    apply openedKeys_subset in Hx.
    eapply sorted_no_return; [exact Hsorted| |done]. congruence.
Qed.

Lemma openedKeys_sorted ks :
  Sorted le ks -> openedKeys None ks = distinctKeys ks.
Proof.
  intros Hsorted%Sorted_StronglySorted; [|done].
  destruct ks as [|k ks]; [done|]. simpl. f_equal.
  symmetry. by apply openedKeys_distinct.
Qed.

End Sorted.

End Runs.

(** * What the kernels do to the rows *)

Section Kernels.

Context {Acc : Type}.
Implicit Types (rc : RowContainer Acc) (row : Row Acc).
Implicit Types (p q : Ptr) (G : list Ptr).

Definition setAccRow (a : nat) (x : Acc) row : Row Acc :=
  {| keys := keys row; accumulators := <[a := Some x]> (accumulators row) |}.

Definition updRow (a : nat) (f : Acc -> Acc) row : Row Acc :=
  {| keys := keys row; accumulators := alter (fmap f) a (accumulators row) |}.

(** A change of every row that keeps its keys, the number of its
    accumulators, and their being initialized. *)
Definition keepsShape (T : Ptr -> Row Acc -> Row Acc) : Prop :=
  forall p row,
    keys (T p row) = keys row
    /\ length (accumulators (T p row)) = length (accumulators row)
    /\ (Forall is_Some (accumulators row) ->
        Forall is_Some (accumulators (T p row))).

(** [rc'] is [rc] with every row changed by [T]. *)
Definition heapMap (T : Ptr -> Row Acc -> Row Acc) rc rc' : Prop :=
  keyCount rc' = keyCount rc
  /\ accumulatorCount rc' = accumulatorCount rc
  /\ length (storage rc') = length (storage rc)
  /\ (forall p, rowAt rc' p = T p <$> rowAt rc p)
  /\ keepsShape T.

Lemma heapMap_id rc : heapMap (fun _ row => row) rc rc.
Proof.
  repeat split; try done. intros p. by destruct (rowAt rc p).
Qed.

Lemma heapMap_compose T1 T2 rc rc1 rc2 :
  heapMap T1 rc rc1 -> heapMap T2 rc1 rc2 ->
  heapMap (fun p row => T2 p (T1 p row)) rc rc2.
Proof.
  intros (? & ? & ? & Hlook1 & S1) (? & ? & ? & Hlook2 & S2).
  split; [congruence|]. split; [congruence|]. split; [congruence|]. split.
  - intros p. rewrite Hlook2, Hlook1. by destruct (rowAt rc p).
  - intros p row. destruct (S1 p row) as (? & ? & ?).
    destruct (S2 p (T1 p row)) as (? & ? & ?).
    split; [congruence|]. split; [congruence|]. auto.
Qed.

Lemma heapMap_ext T T' rc rc' :
  (forall p row, T p row = T' p row) -> heapMap T rc rc' -> heapMap T' rc rc'.
Proof.
  intros Hext (? & ? & ? & Hlook1 & S1).
  split; [done|]. split; [done|]. split; [done|]. split.
  - intros p. rewrite Hlook1. destruct (rowAt rc p); simpl; by rewrite ?Hext.
  - intros p row. rewrite <- Hext. apply S1.
Qed.

Lemma setAccRow_shape a x :
  keepsShape (fun _ row => setAccRow a x row).
Proof.
  intros p row. simpl. split; [done|]. split; [apply length_insert|].
  intros Hsome. apply Forall_insert; [done|by eexists].
Qed.

Lemma updRow_shape a f : keepsShape (fun _ row => updRow a f row).
Proof.
  intros p row. simpl. split; [done|]. split; [apply length_alter|].
  intros Hsome. apply Forall_alter; [done|]. intros slot _ [x ->]. by eexists.
Qed.

Lemma keepsShape_if (c : Ptr -> bool) T :
  keepsShape T -> keepsShape (fun p row => if c p then T p row else row).
Proof.
  intros HT p row. destruct (c p); [apply HT|done].
Qed.

(** Changing the one row at [p]. *)
Lemma heapMap_setRow rc p row (g : Row Acc -> Row Acc) :
  rowAt rc p = Some row ->
  keepsShape (fun _ => g) ->
  heapMap (fun q r => if bool_decide (q = p) then g r else r) rc
    (setRow rc p (g row)).
Proof.
  intros Hrow Hg. split; [done|]. split; [done|].
  split; [apply length_insert|]. split.
  - intros q. case_bool_decide as Hq.
    + subst q. rewrite rowAt_setRow_eq, Hrow by (by rewrite Hrow). done.
    + rewrite rowAt_setRow_ne; [by destruct (rowAt rc q)|congruence|].
      intros ->. done.
  - by apply (keepsShape_if (fun q => bool_decide (q = p))).
Qed.

Lemma setAccumulator_spec rc a p (f : option Acc -> Result Acc) row old new :
  rowAt rc p = Some row ->
  accumulators row !! a = Some old ->
  f old = Ok new ->
  setAccumulator rc a p f = Ok (setRow rc p (setAccRow a new row)).
Proof.
  intros Hrow Hold Hnew. unfold setAccumulator.
  rewrite Hrow. simpl. rewrite Hold. simpl. by rewrite Hnew.
Qed.

(** ** [initializeNewGroups] *)

Definition initRow (kernel : Aggregate Acc) (a : nat) G (indices : list nat)
    p row : Row Acc :=
  fold_left (fun row i =>
               if bool_decide (G !! i = Some p)
               then setAccRow a (initialState kernel) row
               else row) indices row.

Lemma initRow_shape kernel a G indices : keepsShape (initRow kernel a G indices).
Proof.
  unfold initRow. induction indices as [|i indices IH]; intros p row; simpl.
  - done.
  - destruct (IH p (if bool_decide (G !! i = Some p)
                    then setAccRow a (initialState kernel) row else row))
      as (Hk & Hl & Hs).
    destruct (setAccRow_shape a (initialState kernel) p row) as (Hk' & Hl' & Hs').
    case_bool_decide; [|done].
    split; [congruence|]. split; [congruence|]. auto.
Qed.

Lemma initializeNewGroups_spec kernel a G indices : forall rc,
  (forall i, i ∈ indices ->
     exists p row,
       G !! i = Some p
       /\ rowAt rc p = Some row
       /\ a < length (accumulators row)) ->
  exists rc',
    initializeNewGroups kernel a G indices rc = Ok rc'
    /\ heapMap (initRow kernel a G indices) rc rc'.
Proof.
  unfold initializeNewGroups.
  induction indices as [|i indices IH]; intros rc Hpre.
  - exists rc. split; [done|]. apply heapMap_id.
  - destruct (Hpre i) as (p & row & Hp & Hrow & Ha); [left|].
    destruct (lookup_lt_is_Some_2 _ _ Ha) as [old Hold].
    cbn [foldM]. rewrite Hp. cbn [require bind].
    erewrite setAccumulator_spec by done. cbn [bind].
    pose proof (heapMap_setRow rc p row (setAccRow a (initialState kernel)) Hrow
                  (setAccRow_shape a (initialState kernel))) as Hstep.
    destruct (IH (setRow rc p (setAccRow a (initialState kernel) row)))
      as (rc' & Hrc' & Hmap).
    { intros i' Hi'. destruct (Hpre i') as (p' & row' & Hp' & Hrow' & Ha');
        [by right|].
      destruct Hstep as (_ & _ & _ & Hlook & Hshape).
      exists p'. eexists. split; [done|]. rewrite Hlook, Hrow'. simpl.
      split; [done|]. case_bool_decide; [|done].
      destruct (setAccRow_shape a (initialState kernel) p' row') as (_ & -> & _).
      done. }
    exists rc'. split; [done|].
    eapply heapMap_ext; [|eapply heapMap_compose; [exact Hstep|exact Hmap]].
    intros q r. unfold initRow. simpl.
    assert (bool_decide (q = p) = bool_decide (G !! i = Some q)) as ->; [|done].
    apply bool_decide_ext. rewrite Hp. split; congruence.
Qed.

(** ** [addRawInput] and [addIntermediateResults] *)

Definition updateRows (update : Acc -> list Value -> Acc) (a : nat)
    (groups : list Ptr) (selected : SelectivityVector)
    (values : nat -> list Value) (rows : list nat) p row : Row Acc :=
  fold_left (fun row r =>
               if isValid selected r && bool_decide (groups !! r = Some p)
               then updRow a (fun x => update x (values r)) row
               else row) rows row.

Lemma updateRows_shape update a groups selected values rows :
  keepsShape (updateRows update a groups selected values rows).
Proof.
  unfold updateRows. induction rows as [|r rows IH]; intros p row; simpl.
  - done.
  - set (row1 := if isValid selected r && bool_decide (groups !! r = Some p)
                 then updRow a (fun x => update x (values r)) row else row).
    destruct (IH p row1) as (Hk & Hl & Hs).
    assert (keys row1 = keys row
            /\ length (accumulators row1) = length (accumulators row)
            /\ (Forall is_Some (accumulators row) ->
                Forall is_Some (accumulators row1))) as (Hk' & Hl' & Hs').
    { unfold row1. destruct (isValid selected r && _); [|done].
      apply (updRow_shape a _ p row). }
    split; [congruence|]. split; [congruence|]. auto.
Qed.

Lemma updRow_setAccRow a f row x :
  accumulators row !! a = Some (Some x) ->
  setAccRow a (f x) row = updRow a f row.
Proof.
  intros Hx. unfold setAccRow, updRow. f_equal.
  apply list_eq. intros j. destruct (decide (j = a)) as [->|Hne].
  - rewrite list_lookup_alter_eq, Hx. simpl.
    apply list_lookup_insert_eq. by eapply lookup_lt_Some.
  - by rewrite list_lookup_alter_ne, list_lookup_insert_ne.
Qed.

Lemma updateGroups_loop update a groups selected args values rows : forall rc,
  (forall r, r ∈ rows -> isValid selected r = true ->
     mapM_result (argValueAt r) args = Ok (values r)
     /\ exists p row,
          groups !! r = Some p
          /\ rowAt rc p = Some row
          /\ a < length (accumulators row)
          /\ Forall is_Some (accumulators row)) ->
  exists rc',
    foldM (fun rc0 (r : nat) =>
             if isValid selected r then
               let* p := require OutOfBounds (groups !! r) in
               let* values := mapM_result (argValueAt r) args in
               setAccumulator rc0 a p (fun old =>
                 let* acc := require Uninitialized old in
                 Ok (update acc values))
             else Ok rc0) rows rc = Ok rc'
    /\ heapMap (updateRows update a groups selected values rows) rc rc'.
Proof.
  induction rows as [|r rows IH]; intros rc Hpre.
  - exists rc. split; [done|]. apply heapMap_id.
  - cbn [foldM]. destruct (isValid selected r) eqn:Hsel.
    + destruct (Hpre r) as (Hvals & p & row & Hp & Hrow & Ha & Hsome);
        [left|done|].
      destruct (lookup_lt_is_Some_2 _ _ Ha) as [old Hold].
      destruct (proj1 (Forall_lookup _ _) Hsome _ _ Hold) as [x ->].
      rewrite Hp. cbn [require bind]. rewrite Hvals. cbn [bind].
      erewrite setAccumulator_spec by done. cbn [bind].
      rewrite (updRow_setAccRow a (fun x => update x (values r))) by done.
      pose proof (heapMap_setRow rc p row (updRow a (fun x => update x (values r)))
                    Hrow (updRow_shape a _)) as Hstep.
      destruct (IH (setRow rc p (updRow a (fun x => update x (values r)) row)))
        as (rc' & Hrc' & Hmap).
      { intros r' Hr' Hsel'.
        destruct (Hpre r') as (Hvals' & p' & row' & Hp' & Hrow' & Ha' & Hsome');
          [by right|done|].
        split; [done|].
        destruct Hstep as (_ & _ & _ & Hlook & Hshape).
        exists p'. eexists. split; [done|]. rewrite Hlook, Hrow'. simpl.
        split; [done|].
        destruct (Hshape p' row') as (_ & -> & Hs). split; [done|]. auto. }
      exists rc'. split; [done|].
      eapply heapMap_ext; [|eapply heapMap_compose; [exact Hstep|exact Hmap]].
      intros q r0. unfold updateRows. simpl. rewrite Hsel. simpl.
      assert (bool_decide (q = p) = bool_decide (groups !! r = Some q)) as ->;
        [|done].
      apply bool_decide_ext. rewrite Hp. split; congruence.
    + destruct (IH rc) as (rc' & Hrc' & Hmap).
      { intros r' Hr' Hsel'. apply Hpre; [by right|done]. }
      exists rc'. split; [done|].
      eapply heapMap_ext; [|exact Hmap].
      intros q r0. unfold updateRows. simpl. by rewrite Hsel.
Qed.

Lemma updateGroups_spec update a groups selected args values rc :
  (forall r, r < length selected -> isValid selected r = true ->
     mapM_result (argValueAt r) args = Ok (values r)
     /\ exists p row,
          groups !! r = Some p
          /\ rowAt rc p = Some row
          /\ a < length (accumulators row)
          /\ Forall is_Some (accumulators row)) ->
  exists rc',
    updateGroups update a groups selected args rc = Ok rc'
    /\ heapMap (updateRows update a groups selected values
                  (seq 0 (length selected))) rc rc'.
Proof.
  intros Hpre. apply updateGroups_loop.
  intros r Hr%elem_of_seq Hsel. apply Hpre; [lia|done].
Qed.

End Kernels.

(** * Group assignment on a well-formed batch *)

Section Pool.

Context {Acc : Type}.
Implicit Types (op : Operator Acc) (rc : RowContainer Acc) (row : Row Acc).
Implicit Types (p q : Ptr) (G : list Ptr) (V : list (Row Acc)).

(** The slot pool: the first [n] pointers of [G] are the live groups and
    hold the rows [V]; all pointers of [G] are distinct rows of [rc]. *)
Record pool rc G (n : nat) V : Prop := {
  pool_length : length V = n;
  pool_bound : n <= length G;
  pool_nodup : NoDup G;
  pool_valid : forall p, p ∈ G -> is_Some (rowAt rc p);
  pool_rows : forall s row, V !! s = Some row ->
                exists p, G !! s = Some p /\ rowAt rc p = Some row
}.

Lemma pool_lookup rc G n V s :
  pool rc G n V -> s < n ->
  exists p row, G !! s = Some p /\ V !! s = Some row /\ rowAt rc p = Some row.
Proof.
  intros HP Hs.
  destruct (lookup_lt_is_Some_2 V s) as [row Hrow];
    [by rewrite (pool_length _ _ _ _ HP)|].
  destruct (pool_rows _ _ _ _ HP s row Hrow) as (p & Hp & Hr). eauto.
Qed.

Lemma pool_reuse rc G n V p key :
  pool rc G n V ->
  G !! n = Some p ->
  pool (setRow rc p (openedRow rc key)) G (S n) (V ++ [openedRow rc key]).
Proof.
  intros HP Hp. pose proof (lookup_lt_Some _ _ _ Hp) as Hn.
  assert (Hvalid : is_Some (rowAt rc p)).
  { apply (pool_valid _ _ _ _ HP). by eapply list_elem_of_lookup_2. }
  assert (Hp0 : p <> 0) by (apply rowAt_is_Some in Hvalid; lia).
  split.
  - rewrite length_app, (pool_length _ _ _ _ HP). simpl. lia.
  - lia.
  - apply (pool_nodup _ _ _ _ HP).
  - intros q Hq%(pool_valid _ _ _ _ HP). apply rowAt_is_Some.
    rewrite storage_setRow_length. by apply rowAt_is_Some.
  - intros s row Hs. apply lookup_app_Some in Hs as [Hs|[Hge Hs]].
    + destruct (pool_rows _ _ _ _ HP s row Hs) as (q & Hq & Hrow).
      exists q. split; [done|]. rewrite rowAt_setRow_ne; [done| |done].
      intros ->. pose proof (lookup_lt_Some _ _ _ Hs) as Hlt.
      rewrite (pool_length _ _ _ _ HP) in Hlt.
      pose proof (NoDup_lookup _ _ _ _ (pool_nodup _ _ _ _ HP) Hq Hp). lia.
    + rewrite (pool_length _ _ _ _ HP) in *.
      apply list_lookup_singleton_Some in Hs as [Hs <-].
      replace s with n by lia. exists p. split; [done|].
      by apply rowAt_setRow_eq.
Qed.

Lemma pool_fresh rc G V key :
  pool rc G (length G) V ->
  pool (pushRow rc (openedRow rc key)) (G ++ [S (length (storage rc))])
    (S (length G)) (V ++ [openedRow rc key]).
Proof.
  intros HP.
  assert (Hold : forall q, is_Some (rowAt rc q) ->
            rowAt (pushRow rc (openedRow rc key)) q = rowAt rc q).
  { intros q Hq%rowAt_is_Some. destruct q as [|i]; [done|]. simpl.
    apply lookup_app_l. lia. }
  split.
  - rewrite length_app, (pool_length _ _ _ _ HP). simpl. lia.
  - rewrite length_app. simpl. lia.
  - apply list.NoDup_app. split; [apply (pool_nodup _ _ _ _ HP)|].
    split; [|apply NoDup_singleton].
    intros q Hq%(pool_valid _ _ _ _ HP)%rowAt_is_Some ->%list_elem_of_singleton.
    lia.
  - intros q [Hq| ->%list_elem_of_singleton]%elem_of_app.
    + rewrite Hold; by apply (pool_valid _ _ _ _ HP).
    + apply rowAt_is_Some. simpl. rewrite length_app. simpl. lia.
  - intros s row Hs. apply lookup_app_Some in Hs as [Hs|[Hge Hs]].
    + destruct (pool_rows _ _ _ _ HP s row Hs) as (q & Hq & Hrow).
      exists q. split; [by apply lookup_app_l_Some|].
      rewrite Hold; [done|by rewrite Hrow].
    + rewrite (pool_length _ _ _ _ HP) in *.
      apply list_lookup_singleton_Some in Hs as [Hs <-].
      replace s with (length G) by lia. eexists. split.
      * rewrite lookup_app_r by lia. by rewrite Nat.sub_diag.
      * simpl. rewrite lookup_app_r by lia. by rewrite Nat.sub_diag.
Qed.

Lemma openedRow_counts rc rc' key :
  accumulatorCount rc' = accumulatorCount rc ->
  openedRow rc' key = openedRow rc key.
Proof. unfold openedRow. by intros ->. Qed.

End Pool.

(** * The loops of [assignGroups] *)

Section AssignGroups.

Context {Acc : Type}.
Implicit Types (op : Operator Acc) (rc : RowContainer Acc) (row : Row Acc).
Implicit Types (p q : Ptr) (G : list Ptr) (V : list (Row Acc)).

Variable width : nat.
Variable input : RowVector.
Hypothesis input_wf : wellFormedBatch width input = true.

(** The grouping key of row [r] of the input. *)
Definition keyAt (K : list column_index_t) (batch : RowVector) (r : nat)
    : list Value :=
  keyOf K (rowValues batch r).

Definition columnsOf (K : list column_index_t) : list Vector :=
  map (fun c => default (FlatVector []) (children input !! N.to_nat c)) K.

Lemma columnsOf_decoded K :
  channelsBelow width K ->
  Forall2 (fun channel column => childAt input channel = Ok column) K
    (columnsOf K).
Proof.
  intros HK. unfold columnsOf. apply Forall2_fmap_r, Forall_Forall2_diag.
  eapply list.Forall_impl; [exact HK|]. intros c Hc. simpl in Hc.
  apply childAt_Ok.
  destruct (lookup_lt_is_Some_2 (children input) (N.to_nat c)) as [col ->]; [|done].
  by rewrite (wellFormedBatch_width _ _ input_wf).
Qed.

Lemma decodeKeys_spec op :
  length (decodedKeys_ op) = length (groupingKeys_ op) ->
  channelsBelow width (groupingKeys_ op) ->
  foldM (decodeKey input) (seq 0 (length (groupingKeys_ op))) op
  = Ok (set_decodedKeys (columnsOf (groupingKeys_ op)) op).
Proof.
  intros Hlen HK.
  assert (Hloop : forall k, k <= length (groupingKeys_ op) ->
            foldM (decodeKey input) (seq 0 k) op
            = Ok (set_decodedKeys
                    (take k (columnsOf (groupingKeys_ op))
                     ++ drop k (decodedKeys_ op)) op)).
  { induction k as [|k IH]; intros Hk.
    - simpl. by rewrite drop_0.
    - rewrite seq_S, foldM_app, IH by lia. cbn [bind foldM Nat.add].
      unfold decodeKey. op_simpl.
      destruct (lookup_lt_is_Some_2 (groupingKeys_ op) k) as [c Hc]; [lia|].
      rewrite Hc. cbn [require bind].
      pose proof (columnsOf_decoded _ HK) as Hcols.
      destruct (Forall2_lookup_l _ _ _ _ _ Hcols Hc) as (col & Hcol & Hchild).
      rewrite Hchild. cbn [bind].
      assert (Hlenk : length (take k (columnsOf (groupingKeys_ op))) = k).
      { rewrite length_take. apply Forall2_length in Hcols. lia. }
      destruct (Nat.ltb_spec k (length (take k (columnsOf (groupingKeys_ op))
                                        ++ drop k (decodedKeys_ op)))) as [_|Hge].
      + assert (Hnext : <[k:=col]> (take k (columnsOf (groupingKeys_ op))
                                     ++ drop k (decodedKeys_ op))
                        = take (S k) (columnsOf (groupingKeys_ op))
                          ++ drop (S k) (decodedKeys_ op)).
        { rewrite insert_app_r_alt by lia. rewrite Hlenk, Nat.sub_diag.
          erewrite take_S_r by done. rewrite <- app_assoc. f_equal.
          destruct (lookup_lt_is_Some_2 (decodedKeys_ op) k) as [d Hd]; [lia|].
          by rewrite (drop_S _ _ _ Hd). }
        rewrite Hnext. reflexivity.
      + rewrite length_app, length_drop in Hge. lia. }
  rewrite Hloop by done.
  pose proof (columnsOf_decoded _ HK) as Hcols%Forall2_length.
  rewrite take_ge, drop_ge by lia. by rewrite app_nil_r.
Qed.

(** ** Rows that continue the last group *)

Variable prevInput : RowVector.
Hypothesis prev_wf : wellFormedBatch width prevInput = true.

Lemma continueLastGroup_spec (prevRow : nat) (g : Ptr) (remaining : nat) :
  forall index op,
  prevRow < rowCount prevInput ->
  channelsBelow width (groupingKeys_ op) ->
  index + remaining = rowCount input ->
  length (inputGroups_ op) = rowCount input ->
  exists index' ig',
    continueLastGroup remaining prevInput (Z.of_nat prevRow) g input index op
    = Ok (index', set_inputGroups ig' op)
    /\ index <= index' <= rowCount input
    /\ length ig' = rowCount input
    /\ take index ig' = take index (inputGroups_ op)
    /\ (forall r, index <= r < index' ->
          ig' !! r = Some g
          /\ keyAt (groupingKeys_ op) input r
             = keyAt (groupingKeys_ op) prevInput prevRow)
    /\ (index' < rowCount input ->
          keyAt (groupingKeys_ op) input index'
          <> keyAt (groupingKeys_ op) prevInput prevRow).
Proof.
  induction remaining as [|remaining IH]; intros index op Hprev HK Hrem Hlen.
  - exists index, (inputGroups_ op). simpl. split; [done|].
    split; [lia|]. split; [done|]. split; [done|].
    split; [intros; lia|intros; lia].
  - cbn [continueLastGroup].
    rewrite (equalKeys_spec width) by (done || lia). cbn [bind].
    case_bool_decide as Hk.
    + destruct (IH (S index) (setInputGroup index g op))
        as (index' & ig' & Hrun & Hindex & Hlen' & Htake & Hrows & Hstop);
        [done|done|lia|by (unfold setInputGroup; op_simpl; rewrite length_insert)|].
      exists index', ig'. split; [exact Hrun|]. op_simpl.
      split; [lia|]. split; [done|]. split.
      { rewrite <- (take_insert_ge (inputGroups_ op) index index g) by lia.
        transitivity (take index (take (S index) ig')).
        - rewrite take_take. f_equal. lia.
        - rewrite Htake, take_take. f_equal. lia. }
      split; [|done].
      intros r Hr. destruct (decide (r = index)) as [->|Hne].
      * split; [|done].
        rewrite <- (lookup_take_lt ig' (S index)) by lia.
        rewrite Htake, lookup_take_lt by lia.
        apply list_lookup_insert_eq. lia.
      * apply Hrows. lia.
    + exists index, (inputGroups_ op). split; [done|].
      split; [lia|]. split; [done|]. split; [done|].
      split; [intros; lia|]. intros _. unfold keyAt. congruence.
Qed.

End AssignGroups.

(** * Rows that open or join a group *)

Section AssignRows.

Context {Acc : Type}.
Implicit Types (op : Operator Acc) (rc : RowContainer Acc) (row : Row Acc).
Implicit Types (p q : Ptr) (G : list Ptr) (V : list (Row Acc)).

Lemma take_lookup_eq {A} (l l' : list A) (n i : nat) :
  take n l = take n l' -> i < n -> l !! i = l' !! i.
Proof.
  intros Htake Hi.
  by rewrite <- (lookup_take_lt l n i), Htake, lookup_take_lt by done.
Qed.

Lemma take_take_eq {A} (l l' : list A) (n m : nat) :
  take m l = take m l' -> n <= m -> take n l = take n l'.
Proof.
  intros Htake Hn.
  replace n with (n `min` m) by lia. by rewrite <- !take_take, Htake.
Qed.

Lemma startNewGroup_pool op rc V index key :
  rows_ op = Some rc ->
  keyCount rc = length (groupingKeys_ op) ->
  pool rc (groups_ op) (numGroups_ op) V ->
  decodedKey op index key ->
  exists p c rc' G',
    startNewGroup index op
    = Ok (p, set_calls c (set_rows (Some rc')
               (set_groups G' (set_numGroups (S (numGroups_ op)) op))))
    /\ pool rc' G' (S (numGroups_ op)) (V ++ [openedRow rc key])
    /\ G' !! numGroups_ op = Some p
    /\ take (numGroups_ op) G' = take (numGroups_ op) (groups_ op)
    /\ keyCount rc' = keyCount rc
    /\ accumulatorCount rc' = accumulatorCount rc.
Proof.
  intros Hrc Hcount HP Hkey.
  destruct (decide (numGroups_ op < length (groups_ op))) as [Hlt|Hge].
  - destruct (lookup_lt_is_Some_2 _ _ Hlt) as [p Hp].
    assert (Hvalid : is_Some (rowAt rc p)).
    { apply (pool_valid _ _ _ _ HP). by eapply list_elem_of_lookup_2. }
    exists p, (calls_ op ++ InitializeRow p true :: storeCalls op index p),
      (setRow rc p (openedRow rc key)), (groups_ op).
    split; [by rewrite (startNewGroup_reuse op rc index key p)|].
    split; [by apply pool_reuse|].
    split; [done|]. split; [done|].
    unfold setRow. by destruct p.
  - pose proof (pool_bound _ _ _ _ HP) as Hle.
    assert (Hn : numGroups_ op = length (groups_ op)) by lia.
    exists (S (length (storage rc))),
      (calls_ op ++ NewRow (S (length (storage rc)))
       :: storeCalls op index (S (length (storage rc)))),
      (pushRow rc (openedRow rc key)),
      (groups_ op ++ [S (length (storage rc))]).
    split; [by rewrite (startNewGroup_fresh op rc index key)|].
    rewrite Hn in *.
    split; [by apply pool_fresh|].
    split; [rewrite lookup_app_r by lia; by rewrite Nat.sub_diag|].
    split; [by rewrite take_app_length, firstn_all|done].
Qed.

Variable width : nat.
Variable input : RowVector.
Hypothesis input_wf : wellFormedBatch width input = true.

(** What the assignment of the rows from [start] on leaves behind, for the
    keys [ks] of these rows and the key [current] of the last open group. *)
Definition assigned op rc V (start : nat) (current : option (list Value))
    (ks : list (list Value)) (op' : Operator Acc) : Prop :=
  exists c rc' G' ig',
    op' = set_calls c (set_rows (Some rc') (set_groups G'
            (set_numGroups (numGroups_ op + length (openedKeys current ks))
               (set_inputGroups ig' op))))
    /\ pool rc' G' (numGroups_ op + length (openedKeys current ks))
         (V ++ map (openedRow rc) (openedKeys current ks))
    /\ keyCount rc' = keyCount rc
    /\ accumulatorCount rc' = accumulatorCount rc
    /\ length ig' = length (inputGroups_ op)
    /\ take start ig' = take start (inputGroups_ op)
    /\ Forall2 (fun p s => G' !! s = Some p) (drop start ig')
         (assignSlots (numGroups_ op) current ks)
    /\ take (numGroups_ op) G' = take (numGroups_ op) (groups_ op).

Lemma assignRows_spec (len : nat) : forall start index op rc V,
  channelsBelow width (groupingKeys_ op) ->
  keysDecoded op input ->
  start + len = rowCount input ->
  index < start ->
  rows_ op = Some rc ->
  keyCount rc = length (groupingKeys_ op) ->
  pool rc (groups_ op) (numGroups_ op) V ->
  1 <= numGroups_ op ->
  length (inputGroups_ op) = rowCount input ->
  (exists g, inputGroups_ op !! index = Some g
             /\ groups_ op !! (numGroups_ op - 1) = Some g) ->
  exists index' op',
    foldM (assignRow input) (seq start len) (index, op) = Ok (index', op')
    /\ assigned op rc V start (Some (keyAt (groupingKeys_ op) input index))
         (map (keyAt (groupingKeys_ op) input) (seq start len)) op'.
Proof.
  induction len as [|len IH];
    intros start index op rc V HK Hdec Hlen Hindex Hrc Hcount HP Hn Hig Hlast.
  - exists index, op. split; [done|].
    exists (calls_ op), rc, (groups_ op), (inputGroups_ op). simpl.
    rewrite Nat.add_0_r, app_nil_r, <- Hrc.
    split; [done|]. split; [done|]. split; [done|]. split; [done|].
    split; [done|]. split; [done|]. split; [|done].
    rewrite drop_ge by lia. constructor.
  - cbn [seq foldM map]. unfold assignRow at 1.
    rewrite (equalKeys_spec width) by (done || lia). cbn [bind].
    fold (keyAt (groupingKeys_ op) input index).
    fold (keyAt (groupingKeys_ op) input start).
    destruct Hlast as (g & Hg & HGg).
    case_bool_decide as Hk.
    + rewrite Hg. cbn [require bind].
      destruct (IH (S start) index (setInputGroup start g op) rc V)
        as (index' & op' & Hrun & c & rc' & G' & ig' & Hop' & HP' & Hkc & Hac
            & Hlen' & Htake & Hslots & HG');
        try done; try lia.
      { unfold setInputGroup. op_simpl. by rewrite length_insert. }
      { exists g. unfold setInputGroup. op_simpl. split; [|done].
        rewrite list_lookup_insert_ne by lia. done. }
      unfold setInputGroup in *. op_simpl.
      rewrite length_insert in Hlen'.
      exists index', op'. split; [exact Hrun|].
      unfold assigned. cbn [assignSlots openedKeys].
      rewrite !(bool_decide_true (Some _ = Some _)) by congruence.
      exists c, rc', G', ig'.
      split; [exact Hop'|]. split; [done|]. split; [done|]. split; [done|].
      split; [done|]. split.
      { rewrite (take_take_eq _ _ start _ Htake) by lia.
        apply take_insert_ge. lia. }
      split; [|done].
      assert (Hstart : ig' !! start = Some g).
      { rewrite (take_lookup_eq _ _ (S start) start Htake) by lia.
        apply list_lookup_insert_eq. lia. }
      rewrite (drop_S _ _ _ Hstart). constructor; [|done].
      rewrite (take_lookup_eq _ _ _ (numGroups_ op - 1) HG') by lia. done.
    + set (key := keyAt (groupingKeys_ op) input start) in *.
      destruct (startNewGroup_pool op rc V start key)
        as (p & c1 & rc1 & G1 & Hstart & HP1 & HG1p & HG1 & Hkc1 & Hac1);
        [done|done|done| |].
      { subst key. unfold keyAt.
        apply (keysDecoded_decodedKey width); (done || lia). }
      rewrite Hstart. cbn [bind].
      destruct (IH (S start) start
                  (setInputGroup start p
                     (set_calls c1 (set_rows (Some rc1)
                        (set_groups G1 (set_numGroups (S (numGroups_ op)) op)))))
                  rc1 (V ++ [openedRow rc key]))
        as (index' & op' & Hrun & c & rc' & G' & ig' & Hop' & HP' & Hkc & Hac
            & Hlen' & Htake & Hslots & HG');
        try done; try lia.
      { unfold setInputGroup. op_simpl. lia. }
      { unfold setInputGroup. op_simpl. lia. }
      { unfold setInputGroup. op_simpl. by rewrite length_insert. }
      { exists p. unfold setInputGroup. op_simpl. split.
        - apply list_lookup_insert_eq. lia.
        - replace (S (numGroups_ op) - 1) with (numGroups_ op) by lia; done. }
      unfold setInputGroup in *. op_simpl.
      rewrite length_insert in Hlen'.
      fold key in Hrun, Hop', HP', Hslots.
      exists index', op'. split; [exact Hrun|].
      unfold assigned. cbn [assignSlots openedKeys]. fold key.
      rewrite !(bool_decide_false (Some _ = Some _)) by congruence.
      exists c, rc', G', ig'. cbn [length map].
      replace (numGroups_ op + S (length (openedKeys (Some key)
                 (map (keyAt (groupingKeys_ op) input) (seq (S start) len)))))
        with (S (numGroups_ op + length (openedKeys (Some key)
                 (map (keyAt (groupingKeys_ op) input) (seq (S start) len)))))
        by lia.
      split; [exact Hop'|]. split.
      { rewrite <- app_assoc in HP'. cbn [app Nat.add] in HP'.
        rewrite (map_ext (openedRow rc1) (openedRow rc)) in HP'; [exact HP'|].
        intros k. by apply openedRow_counts. }
      split; [congruence|]. split; [congruence|]. split; [done|]. split.
      { rewrite (take_take_eq _ _ start _ Htake) by lia.
        apply take_insert_ge. lia. }
      split.
      * assert (Hig' : ig' !! start = Some p).
        { rewrite (take_lookup_eq _ _ (S start) start Htake) by lia.
          apply list_lookup_insert_eq. lia. }
        rewrite (drop_S _ _ _ Hig'). constructor; [|done].
        rewrite (take_lookup_eq _ _ _ (numGroups_ op) HG') by lia. done.
      * rewrite (take_take_eq _ _ (numGroups_ op) _ HG') by lia. done.
Qed.

End AssignRows.

(** * The assignment of a whole batch *)

Section AssignBatch.

Context {Acc : Type}.
Implicit Types (op : Operator Acc) (rc : RowContainer Acc) (row : Row Acc).
Implicit Types (p q : Ptr) (G : list Ptr) (V : list (Row Acc)).

Variable width : nat.

(** The key the first row of a batch is compared with: the key of the last
    row of the previous batch, whose group is the last open one. *)
Definition seam op (current : option (list Value)) : Prop :=
  match prevInput_ op with
  | None => numGroups_ op = 0 /\ current = None
  | Some prevInput =>
      wellFormedBatch width prevInput = true
      /\ 1 <= rowCount prevInput
      /\ 1 <= numGroups_ op
      /\ current = Some (keyAt (groupingKeys_ op) prevInput
                           (rowCount prevInput - 1))
  end.

Definition batchKeys (K : list column_index_t) (input : RowVector)
    : list (list Value) :=
  map (keyAt K input) (seq 0 (rowCount input)).

Lemma assignGroups_spec op input rc V current :
  input_ op = Some input ->
  wellFormedBatch width input = true ->
  channelsBelow width (groupingKeys_ op) ->
  length (decodedKeys_ op) = length (groupingKeys_ op) ->
  rows_ op = Some rc ->
  keyCount rc = length (groupingKeys_ op) ->
  pool rc (groups_ op) (numGroups_ op) V ->
  seam op current ->
  let ks := batchKeys (groupingKeys_ op) input in
  let n' := numGroups_ op + length (openedKeys current ks) in
  exists c rc' G' ig' D',
    assignGroups op
    = Ok (set_calls c (set_rows (Some rc') (set_groups G'
            (set_numGroups n' (set_inputGroups ig' (set_decodedKeys D' op))))))
    /\ length D' = length (groupingKeys_ op)
    /\ pool rc' G' n' (V ++ map (openedRow rc) (openedKeys current ks))
    /\ keyCount rc' = keyCount rc
    /\ accumulatorCount rc' = accumulatorCount rc
    /\ length ig' = rowCount input
    /\ Forall2 (fun p s => G' !! s = Some p) ig'
         (assignSlots (numGroups_ op) current ks)
    /\ take (numGroups_ op) G' = take (numGroups_ op) (groups_ op).
Proof.
  intros Hinput Hwf HK HD Hrc Hcount HP Hseam ks n'.
  unfold assignGroups. rewrite Hinput. cbn [require bind]. op_simpl.
  set (ig0 := resize (rowCount input) nullptr (inputGroups_ op)).
  (* the rows that continue the last group of the previous batch *)
  assert (Hfirst : exists index ig1,
    match prevInput_ op with
    | Some prevInput =>
        let* prevGroup := vectorAt (groups_ op) (Z.of_nat (numGroups_ op) - 1) in
        continueLastGroup (rowCount input) prevInput
          (Z.of_nat (rowCount prevInput) - 1) prevGroup input 0
          (set_inputGroups ig0 op)
    | None => Ok (0, set_inputGroups ig0 op)
    end = Ok (index, set_inputGroups ig1 op)
    /\ index <= rowCount input
    /\ length ig1 = rowCount input
    /\ (forall r, r < index ->
          (exists g, ig1 !! r = Some g
                     /\ groups_ op !! (numGroups_ op - 1) = Some g)
          /\ current = Some (keyAt (groupingKeys_ op) input r))
    /\ (index < rowCount input ->
          current <> Some (keyAt (groupingKeys_ op) input index))
    /\ (1 <= index -> 1 <= numGroups_ op)).
  { unfold seam in Hseam.
    destruct (prevInput_ op) as [prevInput|].
    - destruct Hseam as (Hpwf & Hprows & Hn & ->).
      destruct (lookup_lt_is_Some_2 (groups_ op) (numGroups_ op - 1))
        as [g Hg]; [pose proof (pool_bound _ _ _ _ HP); lia|].
      unfold vectorAt.
      destruct (Z.ltb_spec (Z.of_nat (numGroups_ op) - 1) 0); [lia|].
      replace (Z.to_nat (Z.of_nat (numGroups_ op) - 1))
        with (numGroups_ op - 1) by lia.
      rewrite Hg. cbn [require bind].
      replace (Z.of_nat (rowCount prevInput) - 1)%Z
        with (Z.of_nat (rowCount prevInput - 1)) by lia.
      destruct (continueLastGroup_spec width input Hwf prevInput Hpwf
                  (rowCount prevInput - 1) g (rowCount input) 0
                  (set_inputGroups ig0 op))
        as (index & ig1 & Hrun & Hindex & Hlen1 & _ & Hrows & Hstop);
        [lia|done|done|by (op_simpl; unfold ig0; rewrite length_resize)|].
      exists index, ig1. op_simpl. split; [exact Hrun|].
      split; [lia|]. split; [done|]. split.
      + intros r Hr. destruct (Hrows r) as [Hig Hkey]; [lia|].
        split; [by exists g|by rewrite Hkey].
      + split; [|done]. intros Hlt Heq. apply (Hstop Hlt). congruence.
    - destruct Hseam as [Hn ->]. exists 0, ig0.
      split; [done|]. split; [lia|].
      split; [by (unfold ig0; rewrite length_resize)|].
      split; [intros; lia|]. split; [done|lia]. }
  destruct Hfirst as (index & ig1 & -> & Hindex & Hlen1 & Hrows & Hstop & Hone).
  cbn [bind].
  assert (Hprefix : Forall (fun k' => Some k' = current)
                      (map (keyAt (groupingKeys_ op) input) (seq 0 index))).
  { apply list.Forall_forall. intros k (r & -> & Hr%elem_of_seq)%list_elem_of_fmap.
    destruct (Hrows r) as [_ ->]; [lia|done]. }
  assert (Hslots1 : forall G',
            take (numGroups_ op) G' = take (numGroups_ op) (groups_ op) ->
            Forall2 (fun p s => G' !! s = Some p)
              (take index ig1) (replicate index (numGroups_ op - 1))).
  { intros G' HG'. apply Forall2_same_length_lookup. split.
    - rewrite length_take, length_replicate. lia.
    - intros r p s Hp [-> Hr]%lookup_replicate.
      rewrite lookup_take_lt in Hp by done.
      destruct (Hrows r Hr) as [(g & Hg & HGg) _].
      rewrite (take_lookup_eq G' _ _ (numGroups_ op - 1) HG') by lia.
      congruence. }
  destruct (Nat.ltb_spec index (rowCount input)) as [Hlt|Hge].
  - (* the row [index] opens a group *)
    specialize (Hstop Hlt).
    rewrite decodeKeys_spec with (width := width) by done. cbn [bind]. op_simpl.
    set (key := keyAt (groupingKeys_ op) input index) in *.
    assert (Hdec : keysDecoded
                     (set_decodedKeys (columnsOf input (groupingKeys_ op))
                        (set_inputGroups ig1 op)) input)
      by (by apply (columnsOf_decoded width)).
    destruct (startNewGroup_pool
                (set_decodedKeys (columnsOf input (groupingKeys_ op))
                   (set_inputGroups ig1 op)) rc V index key)
      as (p & c1 & rc1 & G1 & Hstart & HP1 & HG1p & HG1 & Hkc1 & Hac1);
      [done|done|done| |].
    { exact (keysDecoded_decodedKey width _ input index Hdec Hwf Hlt). }
    rewrite Hstart. cbn [bind]. op_simpl.
    replace (index + 1) with (S index) by lia.
    set (len := rowCount input - S index).
    destruct (assignRows_spec width input Hwf len (S index) index
                (setInputGroup index p
                   (set_calls c1 (set_rows (Some rc1)
                      (set_groups G1 (set_numGroups (S (numGroups_ op))
                         (set_decodedKeys (columnsOf input (groupingKeys_ op))
                            (set_inputGroups ig1 op)))))))
                rc1 (V ++ [openedRow rc key]))
      as (index' & op' & Hrun & c & rc' & G' & ig' & Hop' & HP' & Hkc & Hac
          & Hlen' & Htake & Hslots & HG');
      try done; unfold setInputGroup in *; op_simpl; try (subst len; lia).
    { by rewrite length_insert. }
    { exists p. split; [apply list_lookup_insert_eq; lia|].
      replace (S (numGroups_ op) - 1) with (numGroups_ op) by lia. done. }
    rewrite Hrun. cbn [bind]. fold key in Hop', HP', Hslots.
    rewrite length_insert in Hlen'.
    assert (Hks : ks = map (keyAt (groupingKeys_ op) input) (seq 0 index)
                       ++ key :: map (keyAt (groupingKeys_ op) input)
                                   (seq (S index) len)).
    { unfold ks, batchKeys.
      replace (rowCount input) with (index + S len) by (subst len; lia).
      by rewrite seq_app, map_app. }
    assert (Hopened : openedKeys current ks
                      = key :: openedKeys (Some key)
                                 (map (keyAt (groupingKeys_ op) input)
                                    (seq (S index) len))).
    { rewrite Hks. destruct current as [k|].
      - rewrite openedKeys_continue
          by (eapply list.Forall_impl; [exact Hprefix|]; simpl; congruence).
        cbn [openedKeys]. by rewrite bool_decide_false.
      - destruct index as [|index0]; [|by inversion Hprefix].
        cbn [seq map app openedKeys]. by rewrite bool_decide_false. }
    assert (Hassign : assignSlots (numGroups_ op) current ks
                      = replicate index (numGroups_ op - 1)
                        ++ numGroups_ op
                        :: assignSlots (S (numGroups_ op)) (Some key)
                             (map (keyAt (groupingKeys_ op) input)
                                (seq (S index) len))).
    { rewrite Hks. destruct current as [k|].
      - rewrite assignSlots_continue
          by (eapply list.Forall_impl; [exact Hprefix|]; simpl; congruence).
        rewrite length_map, length_seq.
        cbn [assignSlots]. by rewrite bool_decide_false.
      - destruct index as [|index0]; [|by inversion Hprefix].
        cbn [seq map app assignSlots replicate]. by rewrite bool_decide_false. }
    exists c, rc', G', ig', (columnsOf input (groupingKeys_ op)).
    subst n'. rewrite Hopened, Hassign. cbn [length map].
    replace (numGroups_ op + S (length (openedKeys (Some key)
               (map (keyAt (groupingKeys_ op) input) (seq (S index) len)))))
      with (S (numGroups_ op) + length (openedKeys (Some key)
               (map (keyAt (groupingKeys_ op) input) (seq (S index) len))))
      by lia.
    split; [by rewrite Hop'|].
    split; [unfold columnsOf; by rewrite length_map|].
    split.
    { rewrite <- app_assoc in HP'. cbn [app] in HP'.
      rewrite (map_ext (openedRow rc1) (openedRow rc)) in HP'; [exact HP'|].
      intros k. by apply openedRow_counts. }
    split; [congruence|]. split; [congruence|]. split; [lia|].
    split.
    + rewrite <- (take_drop index ig').
      assert (Hig' : ig' !! index = Some p).
      { rewrite (take_lookup_eq _ _ (S index) index Htake) by lia.
        apply list_lookup_insert_eq. lia. }
      rewrite (drop_S _ _ _ Hig').
      apply Forall2_app; [|constructor; [|done]].
      * rewrite (take_take_eq _ _ index _ Htake) by lia.
        rewrite take_insert_ge by lia.
        apply Hslots1.
        rewrite (take_take_eq _ _ (numGroups_ op) _ HG') by lia. done.
      * rewrite (take_lookup_eq _ _ _ (numGroups_ op) HG') by lia. done.
    + rewrite (take_take_eq _ _ (numGroups_ op) _ HG') by lia. done.
  - (* every row continues the last group *)
    assert (index = rowCount input) as -> by lia.
    exists (calls_ op), rc, (groups_ op), ig1, (decodedKeys_ op).
    assert (Hopened : openedKeys current ks = []).
    { destruct current as [k|].
      - rewrite <- (app_nil_r ks). rewrite openedKeys_continue; [done|].
        eapply list.Forall_impl; [exact Hprefix|]. simpl. congruence.
      - unfold ks, batchKeys. destruct (rowCount input); [done|].
        by inversion Hprefix. }
    assert (Hassign : assignSlots (numGroups_ op) current ks
                      = replicate (rowCount input) (numGroups_ op - 1)).
    { destruct current as [k|].
      - rewrite <- (app_nil_r ks). rewrite assignSlots_continue.
        + unfold ks, batchKeys. by rewrite length_map, length_seq, app_nil_r.
        + eapply list.Forall_impl; [exact Hprefix|]. simpl. congruence.
      - unfold ks, batchKeys. destruct (rowCount input); [done|].
        by inversion Hprefix. }
    subst n'. rewrite Hopened, Hassign. cbn [length map].
    rewrite Nat.add_0_r, app_nil_r, <- Hrc.
    split; [done|]. split; [done|]. split; [done|].
    split; [done|]. split; [done|]. split; [done|]. split; [|done].
    rewrite <- (firstn_all ig1), Hlen1. by apply Hslots1.
Qed.

End AssignBatch.

(** * Arguments and selections of the kernel calls *)

Section Arguments.

Context {Acc : Type}.
Implicit Types (op : Operator Acc).

Variable width : nat.
Variable input : RowVector.
Hypothesis input_wf : wellFormedBatch width input = true.

(** The column passed for one argument of an aggregate. *)
Definition argVector (arg : TypedExpr) : option Vector :=
  if (exprToChannel arg =? kConstantChannel)%N then constantArg arg
  else Some (default (FlatVector [])
               (children input !! N.to_nat (exprToChannel arg))).

Lemma pushArgs_spec op (i : nat) (inputs : list TypedExpr) :
  input_ op = Some input ->
  constantArgs_ op !! i = Some (map constantArg inputs) ->
  forallb (isArgument width) inputs = true ->
  foldM (pushArg op i (map exprToChannel inputs))
    (seq 0 (length (map exprToChannel inputs))) []
  = Ok (map argVector inputs).
Proof.
  intros Hinput Hconst Hargs. rewrite length_map.
  assert (Hloop : forall k, k <= length inputs ->
            foldM (pushArg op i (map exprToChannel inputs)) (seq 0 k) []
            = Ok (map argVector (take k inputs))).
  { induction k as [|k IH]; intros Hk; [done|].
    rewrite seq_S, foldM_app, IH by lia. cbn [bind foldM Nat.add].
    destruct (lookup_lt_is_Some_2 inputs k) as [arg Harg]; [lia|].
    unfold pushArg. rewrite list_lookup_fmap, Harg. cbn [fmap option_fmap option_map require bind].
    rewrite (take_S_r _ _ _ Harg), map_app. cbn [map].
    destruct (N.eqb_spec (exprToChannel arg) kConstantChannel) as [Hc|Hc].
    - rewrite Hconst. cbn [require bind].
      rewrite list_lookup_fmap, Harg. simpl.
      assert (argVector arg = constantArg arg) as ->; [|done].
      unfold argVector. by rewrite (proj2 (N.eqb_eq _ _) Hc).
    - rewrite Hinput. cbn [require bind].
      assert (argVector arg
              = Some (default (FlatVector [])
                        (children input !! N.to_nat (exprToChannel arg)))) as ->.
      { unfold argVector. by rewrite (proj2 (N.eqb_neq _ _) Hc). }
      rewrite forallb_forall in Hargs.
      assert (Hin : isArgument width arg = true).
      { apply Hargs, list_elem_of_In. by eapply list_elem_of_lookup_2. }
      destruct arg as [channel|value]; [|done]. simpl in *.
      apply andb_true_iff in Hin as [Hlt%N.ltb_lt _].
      destruct (lookup_lt_is_Some_2 (children input) (N.to_nat channel))
        as [column Hcolumn].
      { rewrite (wellFormedBatch_width _ _ input_wf). lia. }
      unfold childAt. rewrite Hcolumn. done. }
  rewrite Hloop by done. by rewrite firstn_all.
Qed.

Lemma argValue_spec (r : nat) (arg : TypedExpr) :
  isArgument width arg = true ->
  r < rowCount input ->
  argValueAt r (argVector arg) = Ok (argValue (rowValues input r) arg).
Proof.
  intros Harg Hr. unfold argVector.
  destruct arg as [channel|value]; simpl in *.
  - apply andb_true_iff in Harg as [Hlt%N.ltb_lt Hne%negb_true_iff].
    rewrite Hne.
    destruct (lookup_lt_is_Some_2 (children input) (N.to_nat channel))
      as [column Hcolumn].
    { rewrite (wellFormedBatch_width _ _ input_wf). lia. }
    rewrite Hcolumn. simpl.
    rewrite (columnOf_rowValues _ _ _ _ Hcolumn).
    apply valueAt_readValue.
    by rewrite (wellFormedBatch_column _ _ _ _ input_wf Hcolumn).
  - done.
Qed.

Lemma argValues_spec (r : nat) (inputs : list TypedExpr) :
  forallb (isArgument width) inputs = true ->
  r < rowCount input ->
  mapM_result (argValueAt r) (map argVector inputs)
  = Ok (map (argValue (rowValues input r)) inputs).
Proof.
  intros Hargs Hr. induction inputs as [|arg inputs IH]; [done|].
  cbn [forallb] in Hargs. apply andb_true_iff in Hargs as [Harg Hargs].
  cbn [map mapM_result]. rewrite argValue_spec by done. cbn [bind].
  by rewrite IH.
Qed.

(** The selection an aggregate is updated with: the rows that pass its
    mask, all rows when it has none. *)
Definition selectionOf (mask : option column_index_t) : SelectivityVector :=
  map (fun r => passesMask mask (rowValues input r)) (seq 0 (rowCount input)).

Lemma maskBit_spec (channel : column_index_t) column (r : nat) :
  children input !! N.to_nat channel = Some column ->
  r < rowCount input ->
  maskBit column r = isTrue (columnOf (rowValues input r) channel).
Proof.
  intros Hcolumn Hr. unfold maskBit.
  rewrite (columnOf_rowValues _ _ _ _ Hcolumn).
  rewrite valueAt_readValue
    by (by rewrite (wellFormedBatch_column _ _ _ _ input_wf Hcolumn)).
  by destruct (readValue column r).
Qed.

Lemma evaluateMask_spec (channel : column_index_t) column :
  children input !! N.to_nat channel = Some column ->
  evaluateMask column (replicate (rowCount input) true)
  = selectionOf (Some channel).
Proof.
  intros Hcolumn. unfold evaluateMask, selectionOf.
  apply list_eq. intros r. rewrite list_lookup_imap, list_lookup_fmap.
  destruct (decide (r < rowCount input)) as [Hr|Hr].
  - rewrite lookup_replicate_2, lookup_seq_lt by done. simpl.
    by rewrite (maskBit_spec channel).
  - rewrite (lookup_ge_None_2 (replicate _ _)) by (rewrite length_replicate; lia).
    rewrite (lookup_ge_None_2 (seq _ _)) by (rewrite length_seq; lia). done.
Qed.

Lemma selectionOf_None : selectionOf None = replicate (rowCount input) true.
Proof.
  unfold selectionOf. simpl. apply list_eq. intros r.
  rewrite list_lookup_fmap.
  destruct (decide (r < rowCount input)) as [Hr|Hr].
  - by rewrite lookup_replicate_2, lookup_seq_lt.
  - rewrite (lookup_ge_None_2 (replicate _ _)) by (rewrite length_replicate; lia).
    by rewrite (lookup_ge_None_2 (seq _ _)) by (rewrite length_seq; lia).
Qed.

Lemma masksAddInput_spec (masks : AggregationMasks) :
  Forall (fun m => isMask width m = true) (maskChannels masks) ->
  masksAddInput masks input (replicate (rowCount input) true)
  = Ok {| maskChannels := maskChannels masks;
          maskedRows := map (fun m => match m with
                                      | Some channel => Some (selectionOf (Some channel))
                                      | None => None
                                      end) (maskChannels masks) |}.
Proof.
  intros Hmasks. unfold masksAddInput.
  erewrite mapM_result_total; [done|].
  intros m Hm. rewrite list.Forall_forall in Hmasks. specialize (Hmasks m Hm).
  destruct m as [channel|]; [|done]. simpl in Hmasks.
  apply N.ltb_lt in Hmasks.
  destruct (lookup_lt_is_Some_2 (children input) (N.to_nat channel))
    as [column Hcolumn].
  { rewrite (wellFormedBatch_width _ _ input_wf). lia. }
  unfold childAt. rewrite Hcolumn. cbn [require bind].
  by rewrite (evaluateMask_spec channel).
Qed.

Lemma getSelectivityVector_spec op (i : nat) (masks : list (option column_index_t))
    mask :
  masks_ op = Some {| maskChannels := masks;
                      maskedRows := map (fun m => match m with
                                          | Some channel => Some (selectionOf (Some channel))
                                          | None => None
                                          end) masks |} ->
  inputRows_ op = replicate (rowCount input) true ->
  masks !! i = Some mask ->
  getSelectivityVector i op = Ok (selectionOf mask).
Proof.
  intros Hmasks Hrows Hi. unfold getSelectivityVector, activeRows.
  rewrite Hmasks. cbn [require bind maskedRows].
  rewrite list_lookup_fmap, Hi. simpl.
  destruct mask as [channel|]; simpl; [done|].
  by rewrite Hrows, selectionOf_None.
Qed.

Lemma isValid_selectionOf mask (r : nat) :
  r < rowCount input ->
  isValid (selectionOf mask) r = passesMask mask (rowValues input r).
Proof.
  intros Hr. unfold isValid, selectionOf, SelectivityVector.
  by rewrite list_lookup_fmap, lookup_seq_lt.
Qed.

End Arguments.

(** * The rows of the slots, stage by stage *)

Section Folds.

Context {A B : Type}.

(** A loop that applies an idempotent change when an element passes a test
    applies it once or not at all. *)
Lemma fold_left_idempotent (f : A -> A) (c : B -> bool) (l : list B) (a : A) :
  (forall x, f (f x) = f x) ->
  fold_left (fun x b => if c b then f x else x) l a
  = if existsb c l then f a else a.
Proof.
  intros Hf. revert a. induction l as [|b l IH]; intros a; [done|].
  cbn [fold_left existsb]. rewrite IH.
  destruct (c b); simpl; [|done]. rewrite Hf. by destruct (existsb c l).
Qed.

End Folds.

Section Slots.

Context {Acc : Type}.
Implicit Types (op : Operator Acc) (rc : RowContainer Acc) (row : Row Acc).
Implicit Types (p q : Ptr) (G : list Ptr) (V : list (Row Acc)).
Implicit Types (key : list Value) (run extra : list (list Value)).

Variable createAggregate : string -> Step -> Aggregate Acc.
Variable node : AggregationNode.

(** The row of a group with the key [key] that has absorbed the rows [run]. *)
Definition slotRow key run : Row Acc :=
  {| keys := key;
     accumulators :=
       map (fun aggregate =>
              Some (accumulate createAggregate node aggregate run))
         (aggregates node) |}.

Definition groupRow run : Row Acc := slotRow (runKey node run) run.

(** A just opened row once the first [k] aggregates have initialized it. *)
Definition initStage (k : nat) key : Row Acc :=
  {| keys := key;
     accumulators :=
       map (fun aggregate =>
              Some (initialState (kernelOf createAggregate node aggregate)))
         (take k (aggregates node))
       ++ replicate (length (aggregates node) - k) None |}.

(** A row once the first [k] aggregates have absorbed the rows [extra]. *)
Definition updateStage (k : nat) key run extra : Row Acc :=
  {| keys := key;
     accumulators :=
       map (fun aggregate =>
              Some (accumulate createAggregate node aggregate (run ++ extra)))
         (take k (aggregates node))
       ++ map (fun aggregate =>
                 Some (accumulate createAggregate node aggregate run))
            (drop k (aggregates node)) |}.

Lemma initStage_0 rc key :
  accumulatorCount rc = length (aggregates node) ->
  openedRow rc key = initStage 0 key.
Proof.
  intros Hcount. unfold openedRow, initStage. rewrite Hcount, take_0.
  by rewrite Nat.sub_0_r.
Qed.

Lemma initStage_all key :
  initStage (length (aggregates node)) key = slotRow key [].
Proof.
  unfold initStage, slotRow. by rewrite firstn_all, Nat.sub_diag, app_nil_r.
Qed.

Lemma initStage_S (k : nat) key aggregate :
  aggregates node !! k = Some aggregate ->
  setAccRow k (initialState (kernelOf createAggregate node aggregate))
    (initStage k key)
  = initStage (S k) key.
Proof.
  intros Hk. pose proof (lookup_lt_Some _ _ _ Hk) as Hlt.
  unfold setAccRow, initStage. simpl. f_equal.
  rewrite insert_app_r_alt by (rewrite length_map, length_take; lia).
  rewrite length_map, length_take.
  replace (k - k `min` length (aggregates node)) with 0 by lia.
  rewrite (take_S_r _ _ _ Hk), map_app, <- app_assoc. f_equal.
  replace (length (aggregates node) - k)
    with (S (length (aggregates node) - S k)) by lia.
  done.
Qed.

Lemma updateStage_0 key run extra : updateStage 0 key run extra = slotRow key run.
Proof. unfold updateStage, slotRow. by rewrite take_0, drop_0. Qed.

Lemma updateStage_all key run extra :
  updateStage (length (aggregates node)) key run extra
  = slotRow key (run ++ extra).
Proof.
  unfold updateStage, slotRow.
  by rewrite firstn_all, drop_all, app_nil_r.
Qed.

Lemma updateStage_S (k : nat) key run extra aggregate :
  aggregates node !! k = Some aggregate ->
  updRow k (fun acc => fold_left (accumulateRow createAggregate node aggregate)
                         extra acc)
    (updateStage k key run extra)
  = updateStage (S k) key run extra.
Proof.
  intros Hk. pose proof (lookup_lt_Some _ _ _ Hk) as Hlt.
  unfold updRow, updateStage. simpl. f_equal.
  assert (Hlen : length (map (fun aggregate0 =>
                    Some (accumulate createAggregate node aggregate0 (run ++ extra)))
                   (take k (aggregates node))) = k).
  { rewrite length_map, length_take. lia. }
  rewrite <- (Nat.add_0_r k) at 1. rewrite <- Hlen at 1.
  rewrite alter_app_r.
  rewrite (take_S_r _ _ _ Hk), map_app, <- app_assoc. f_equal.
  rewrite (drop_S _ _ _ Hk). simpl. f_equal.
  unfold accumulate. by rewrite fold_left_app.
Qed.

Lemma slotRow_shape key run :
  length (keys (slotRow key run)) = length key
  /\ length (accumulators (slotRow key run)) = length (aggregates node)
  /\ Forall is_Some (accumulators (slotRow key run)).
Proof.
  unfold slotRow. simpl. split; [done|]. split; [by rewrite length_map|].
  apply list.Forall_forall. intros x (agg & -> & _)%list_elem_of_fmap. by eexists.
Qed.

Lemma updateStage_shape (k : nat) key run extra :
  length (accumulators (updateStage k key run extra)) = length (aggregates node)
  /\ Forall is_Some (accumulators (updateStage k key run extra)).
Proof.
  unfold updateStage. simpl. split.
  - rewrite length_app, !length_map, length_take, length_drop. lia.
  - apply Forall_app. split; apply list.Forall_forall;
      intros x (agg & -> & _)%list_elem_of_fmap; by eexists.
Qed.

Lemma initStage_length (k : nat) key :
  length (accumulators (initStage k key)) = length (aggregates node).
Proof.
  unfold initStage. simpl.
  rewrite length_app, length_map, length_take, length_replicate. lia.
Qed.

(** ** Changing every row of the pool *)

Lemma pool_heapMap (T : Ptr -> Row Acc -> Row Acc) rc rc' G (n : nat) V V' :
  heapMap T rc rc' ->
  pool rc G n V ->
  length V' = length V ->
  (forall s p row,
     G !! s = Some p -> V !! s = Some row -> V' !! s = Some (T p row)) ->
  pool rc' G n V'.
Proof.
  intros (Hkc & Hac & Hlen & Hlook & Hshape) HP HV Hrows. split.
  - by rewrite HV, (pool_length _ _ _ _ HP).
  - apply (pool_bound _ _ _ _ HP).
  - apply (pool_nodup _ _ _ _ HP).
  - intros p Hp. rewrite Hlook.
    destruct (pool_valid _ _ _ _ HP p Hp) as [row ->]. by eexists.
  - intros s row' Hs.
    destruct (lookup_lt_is_Some_2 V s) as [row Hrow].
    { rewrite <- HV. by eapply lookup_lt_Some. }
    destruct (pool_rows _ _ _ _ HP s row Hrow) as (p & Hp & Hat).
    exists p. split; [done|].
    rewrite (Hrows s p row Hp Hrow) in Hs. injection Hs as <-.
    by rewrite Hlook, Hat.
Qed.

Lemma initRow_spec (kernel : Aggregate Acc) (a : nat) G (indices : list nat) p row :
  initRow kernel a G indices p row
  = if existsb (fun i => bool_decide (G !! i = Some p)) indices
    then setAccRow a (initialState kernel) row
    else row.
Proof.
  unfold initRow. apply fold_left_idempotent.
  intros r. unfold setAccRow. simpl. f_equal. apply list_insert_insert_eq.
Qed.

(** ** The initialization of the new groups *)

Lemma initializeAggregates_spec op rc V (opened : list (list Value)) :
  rows_ op = Some rc ->
  aggregates_ op = map (kernelOf createAggregate node) (aggregates node) ->
  pool rc (groups_ op) (length V + length opened)
    (V ++ map (initStage 0) opened) ->
  exists c rc',
    foldM (initializeAggregate (seq (length V) (length opened)))
      (seq 0 (length (aggregates_ op))) op
    = Ok (set_calls c (set_rows (Some rc') op))
    /\ pool rc' (groups_ op) (length V + length opened)
         (V ++ map (initStage (length (aggregates node))) opened)
    /\ keyCount rc' = keyCount rc
    /\ accumulatorCount rc' = accumulatorCount rc.
Proof.
  intros Hrc Haggs HP.
  assert (Hloop : forall k, k <= length (aggregates node) ->
    exists c rc',
      foldM (initializeAggregate (seq (length V) (length opened))) (seq 0 k) op
      = Ok (set_calls c (set_rows (Some rc') op))
      /\ pool rc' (groups_ op) (length V + length opened)
           (V ++ map (initStage k) opened)
      /\ keyCount rc' = keyCount rc
      /\ accumulatorCount rc' = accumulatorCount rc).
  { induction k as [|k IH]; intros Hk.
    - exists (calls_ op), rc. rewrite <- Hrc. done.
    - destruct IH as (c & rc1 & Hrun & HP1 & Hkc & Hac); [lia|].
      destruct (lookup_lt_is_Some_2 (aggregates node) k) as [agg Hagg]; [lia|].
      rewrite seq_S, foldM_app, Hrun. cbn [bind foldM Nat.add].
      unfold initializeAggregate. op_simpl.
      rewrite Haggs, list_lookup_fmap, Hagg. cbn [fmap option_fmap option_map require bind].
      destruct (initializeNewGroups_spec (kernelOf createAggregate node agg) k
                  (groups_ op) (seq (length V) (length opened)) rc1)
        as (rc2 & Hinit & Hmap).
      { intros i [Hi1 Hi2]%elem_of_seq.
        destruct (pool_lookup _ _ _ _ i HP1) as (p & row & Hp & Hrow & Hat); [lia|].
        exists p, row. split; [done|]. split; [done|].
        rewrite lookup_app_r in Hrow by lia.
        rewrite list_lookup_fmap in Hrow.
        destruct (opened !! (i - length V)) as [key|]; [|done].
        injection Hrow as <-. rewrite initStage_length. lia. }
      rewrite Hinit. cbn [bind].
      eexists _, rc2. split; [reflexivity|].
      split; [|destruct Hmap as (? & ? & _); split; congruence].
      eapply pool_heapMap; [exact Hmap|exact HP1| |].
      { by rewrite !length_app, !length_map. }
      intros s p row Hp Hrow. rewrite initRow_spec.
      destruct (decide (s < length V)) as [Hs|Hs].
      + rewrite lookup_app_l in Hrow |- * by done.
        destruct (existsb _ _) eqn:Hex; [|done].
        apply existsb_exists in Hex as (i & Hi%list_elem_of_In%elem_of_seq & Hi').
        apply bool_decide_eq_true in Hi'.
        pose proof (NoDup_lookup _ _ _ _ (pool_nodup _ _ _ _ HP1) Hp Hi'). lia.
      + rewrite lookup_app_r in Hrow |- * by lia.
        rewrite list_lookup_fmap in Hrow |- *.
        destruct (opened !! (s - length V)) as [key|] eqn:Hkey; [|done].
        injection Hrow as <-. simpl.
        pose proof (lookup_lt_Some _ _ _ Hkey) as Hlt.
        assert (Hex : existsb (fun i => bool_decide (groups_ op !! i = Some p))
                        (seq (length V) (length opened)) = true).
        { apply existsb_exists. exists s. split.
          - apply list_elem_of_In, elem_of_seq. lia.
          - by apply bool_decide_eq_true. }
        rewrite Hex. by rewrite (initStage_S k key agg). }
  rewrite Haggs, length_map. by apply Hloop.
Qed.

End Slots.

(** * The update of the accumulators *)

Section UpdateRows.

Context {Acc : Type}.
Implicit Types (row : Row Acc) (p : Ptr).

Lemma updRow_id (a : nat) row : updRow a (fun x : Acc => x) row = row.
Proof.
  unfold updRow. destruct row as [ks accs]. simpl. f_equal.
  apply list_alter_id. by intros [x|].
Qed.

Lemma updRow_compose (a : nat) (f g : Acc -> Acc) row :
  updRow a g (updRow a f row) = updRow a (fun x => g (f x)) row.
Proof.
  unfold updRow. simpl. f_equal.
  rewrite list_alter_alter_eq. apply list_alter_ext; [|done].
  by intros [x|] _.
Qed.

(** The updates of one row by one aggregate, as one change of its
    accumulator. *)
Lemma updateRows_updRow (update : Acc -> list Value -> Acc) (a : nat)
    (groups : list Ptr) (selected : SelectivityVector)
    (values : nat -> list Value) (rows : list nat) p : forall row,
  updateRows update a groups selected values rows p row
  = updRow a (fun x =>
      fold_left (fun x r =>
                   if isValid selected r && bool_decide (groups !! r = Some p)
                   then update x (values r) else x) rows x) row.
Proof.
  unfold updateRows. induction rows as [|r rows IH]; intros row.
  - simpl. by rewrite updRow_id.
  - cbn [fold_left]. rewrite IH.
    destruct (isValid selected r && bool_decide (groups !! r = Some p)); [|done].
    by rewrite updRow_compose.
Qed.

End UpdateRows.

Section Evaluate.

Context {Acc : Type}.
Implicit Types (op : Operator Acc) (rc : RowContainer Acc) (row : Row Acc).
Implicit Types (p q : Ptr) (G : list Ptr) (V : list (Row Acc)).

Variable createAggregate : string -> Step -> Aggregate Acc.
Variable node : AggregationNode.
Variable width : nat.
Variable input : RowVector.
Hypothesis input_wf : wellFormedBatch width input = true.

Lemma tableOf_lookup (r : nat) :
  r < rowCount input -> tableOf input !! r = Some (rowValues input r).
Proof.
  intros Hr. unfold tableOf. by rewrite list_lookup_fmap, lookup_seq_lt.
Qed.

Lemma tableOf_length : length (tableOf input) = rowCount input.
Proof. unfold tableOf. by rewrite length_map, length_seq. Qed.

(** The rows of the batch an aggregate folds into the accumulator of the
    slot [s] are the rows of [s] that pass its mask. *)
Lemma updates_of_slot (aggregate : PlanAggregate) (ig : list Ptr)
    (slots : list nat) p (s : nat) (x : Acc) :
  length slots = rowCount input ->
  (forall r, r < rowCount input -> ig !! r = Some p <-> slots !! r = Some s) ->
  fold_left (fun x r =>
               if isValid (selectionOf input (mask aggregate)) r
                  && bool_decide (ig !! r = Some p)
               then updateOf (step node) (kernelOf createAggregate node aggregate)
                      x (map (argValue (rowValues input r)) (callInputs aggregate))
               else x) (seq 0 (rowCount input)) x
  = fold_left (accumulateRow createAggregate node aggregate)
      (rowsOfSlot s slots (tableOf input)) x.
Proof.
  intros Hlen Hslots.
  rewrite <- (firstn_all slots), <- (firstn_all (tableOf input)) at 1.
  rewrite Hlen, tableOf_length.
  change (rowCount input) with (0 + rowCount input) at 2 3.
  apply (fold_left_seq_ind
           (fun i y => y = fold_left (accumulateRow createAggregate node aggregate)
                             (rowsOfSlot s (take i slots) (take i (tableOf input)))
                             x)); [done|].
  intros r y Hr ->.
  destruct (lookup_lt_is_Some_2 slots r) as [s' Hs']; [lia|].
  rewrite (take_S_r _ _ _ Hs'), (take_S_r _ _ _ (tableOf_lookup r ltac:(lia))).
  rewrite rowsOfSlot_snoc
    by (rewrite !length_take, tableOf_length; lia).
  rewrite fold_left_app.
  rewrite isValid_selectionOf by lia.
  destruct (decide (s' = s)) as [->|Hne].
  - rewrite (bool_decide_true (ig !! r = Some p)) by (apply Hslots; [lia|done]).
    rewrite andb_true_r. cbn [fold_left]. unfold accumulateRow.
    by destruct (passesMask (mask aggregate) (rowValues input r)).
  - rewrite (bool_decide_false (ig !! r = Some p)).
    + by rewrite andb_false_r.
    + intros Hp%Hslots; [|lia]. congruence.
Qed.

Hypothesis node_wf : wellFormedNode width node = true.

Lemma wellFormedNode_aggregate (k : nat) aggregate :
  aggregates node !! k = Some aggregate ->
  forallb (isArgument width) (callInputs aggregate) = true
  /\ isMask width (mask aggregate) = true.
Proof.
  intros Hk. unfold wellFormedNode in node_wf.
  apply andb_true_iff in node_wf as [_ Haggs].
  rewrite forallb_forall in Haggs.
  apply andb_true_iff, Haggs, list_elem_of_In.
  by eapply list_elem_of_lookup_2.
Qed.

(** The selections the mask collaborator holds after it saw the batch. *)
Definition maskedSelections : list (option SelectivityVector) :=
  map (fun m => match m with
                | Some channel => Some (selectionOf input (Some channel))
                | None => None
                end) (map mask (aggregates node)).

Lemma updRow_ext (a : nat) (f g : Acc -> Acc) row :
  (forall x, f x = g x) -> updRow a f row = updRow a g row.
Proof.
  intros Hfg. unfold updRow. f_equal. apply list_alter_ext; [|done].
  intros [x|] _; simpl; by rewrite ?Hfg.
Qed.

Lemma evaluateAggregates_spec op rc
    (KR : list (list Value * list (list Value))) (slots : list nat) :
  input_ op = Some input ->
  rows_ op = Some rc ->
  step_ op = step node ->
  aggregates_ op = map (kernelOf createAggregate node) (aggregates node) ->
  args_ op = map (fun a => map exprToChannel (callInputs a)) (aggregates node) ->
  constantArgs_ op
  = map (fun a => map constantArg (callInputs a)) (aggregates node) ->
  masks_ op = Some {| maskChannels := map mask (aggregates node);
                      maskedRows := maskedSelections |} ->
  inputRows_ op = replicate (rowCount input) true ->
  length slots = rowCount input ->
  Forall2 (fun p s => groups_ op !! s = Some p) (inputGroups_ op) slots ->
  Forall (fun s => s < length KR) slots ->
  pool rc (groups_ op) (length KR)
    (map (fun kr => slotRow createAggregate node kr.1 kr.2) KR) ->
  exists c rc',
    evaluateAggregates op = Ok (set_calls c (set_rows (Some rc') op))
    /\ pool rc' (groups_ op) (length KR)
         (imap (fun s kr =>
                  slotRow createAggregate node kr.1
                    (kr.2 ++ rowsOfSlot s slots (tableOf input))) KR)
    /\ keyCount rc' = keyCount rc
    /\ accumulatorCount rc' = accumulatorCount rc.
Proof.
  intros Hinput Hrc Hstep Haggs Hargs Hconst Hmasks Hrows Hlen Hig Hbound HP.
  set (extra := fun s => rowsOfSlot s slots (tableOf input)).
  assert (Hloop : forall k, k <= length (aggregates node) ->
    exists c rc',
      foldM evaluateAggregate (seq 0 k) op
      = Ok (set_calls c (set_rows (Some rc') op))
      /\ pool rc' (groups_ op) (length KR)
           (imap (fun s kr =>
                    updateStage createAggregate node k kr.1 kr.2 (extra s)) KR)
      /\ keyCount rc' = keyCount rc
      /\ accumulatorCount rc' = accumulatorCount rc).
  { induction k as [|k IH]; intros Hk.
    - exists (calls_ op), rc. rewrite <- Hrc. split; [done|]. split; [|done].
      replace (imap (fun s kr =>
                 updateStage createAggregate node 0 kr.1 kr.2 (extra s)) KR)
        with (map (fun kr => slotRow createAggregate node kr.1 kr.2) KR); [done|].
      apply list_eq. intros s. rewrite list_lookup_imap, list_lookup_fmap.
      destruct (KR !! s) as [kr|]; [|done]. simpl. by rewrite updateStage_0.
    - destruct IH as (c & rc1 & Hrun & HP1 & Hkc & Hac); [lia|].
      destruct (lookup_lt_is_Some_2 (aggregates node) k) as [agg Hagg]; [lia|].
      destruct (wellFormedNode_aggregate k agg Hagg) as [Hwfargs Hwfmask].
      rewrite seq_S, foldM_app, Hrun. cbn [bind foldM Nat.add].
      unfold evaluateAggregate. op_simpl.
      rewrite Haggs, list_lookup_fmap, Hagg.
      rewrite Hargs, list_lookup_fmap, Hagg.
      cbn [fmap option_fmap option_map require bind].
      rewrite (pushArgs_spec width input input_wf _ k (callInputs agg));
        [|done|by (op_simpl; rewrite Hconst, list_lookup_fmap, Hagg)|done].
      cbn [bind].
      rewrite (getSelectivityVector_spec input _ k (map mask (aggregates node))
                 (mask agg));
        [|done|done|by rewrite list_lookup_fmap, Hagg].
      cbn [bind]. rewrite Hstep.
      set (values := fun r : nat =>
             map (argValue (rowValues input r)) (callInputs agg)).
      destruct (updateGroups_spec
                  (updateOf (step node) (kernelOf createAggregate node agg)) k
                  (inputGroups_ op) (selectionOf input (mask agg))
                  (map (argVector input) (callInputs agg)) values rc1)
        as (rc2 & Hupd & Hmap).
      { intros r Hr Hsel.
        assert (Hr' : r < rowCount input).
        { unfold selectionOf in Hr. by rewrite length_map, length_seq in Hr. }
        split; [by apply (argValues_spec width)|].
        destruct (lookup_lt_is_Some_2 slots r) as [s Hs]; [lia|].
        destruct (Forall2_lookup_r _ _ _ _ _ Hig Hs) as (p & Hp & HGs).
        pose proof (proj1 (list.Forall_forall _ _) Hbound s
                      (list_elem_of_lookup_2 _ _ _ Hs)) as Hlt.
        destruct (pool_lookup _ _ _ _ s HP1 Hlt) as (p' & row & Hp' & Hrow & Hat).
        assert (p' = p) as -> by congruence.
        exists p, row. split; [done|]. split; [done|].
        rewrite list_lookup_imap in Hrow.
        destruct (KR !! s) as [kr|]; [|done]. injection Hrow as <-.
        destruct (updateStage_shape createAggregate node k kr.1 kr.2 (extra s))
          as [-> Hsome].
        split; [lia|done]. }
      assert (Hcall :
        (if isRawInput (step node)
         then
           let* rc' := addRawInput (kernelOf createAggregate node agg) k
                         (inputGroups_ op) (selectionOf input (mask agg))
                         (map (argVector input) (callInputs agg)) rc1 in
           Ok (record (AddRawInput k (inputGroups_ op)
                         (selectionOf input (mask agg))
                         (map (argVector input) (callInputs agg)) false)
                 (set_rows (Some rc') (set_calls c (set_rows (Some rc1) op))))
         else
           let* rc' := addIntermediateResults (kernelOf createAggregate node agg) k
                         (inputGroups_ op) (selectionOf input (mask agg))
                         (map (argVector input) (callInputs agg)) rc1 in
           Ok (record (AddIntermediateResults k (inputGroups_ op)
                         (selectionOf input (mask agg))
                         (map (argVector input) (callInputs agg)) false)
                 (set_rows (Some rc') (set_calls c (set_rows (Some rc1) op)))))
        = Ok (set_calls
                (c ++ [if isRawInput (step node)
                       then AddRawInput k (inputGroups_ op)
                              (selectionOf input (mask agg))
                              (map (argVector input) (callInputs agg)) false
                       else AddIntermediateResults k (inputGroups_ op)
                              (selectionOf input (mask agg))
                              (map (argVector input) (callInputs agg)) false])
                (set_rows (Some rc2) op))).
      { unfold updateOf in Hupd. unfold addRawInput, addIntermediateResults.
        destruct (isRawInput (step node)); by rewrite Hupd. }
      rewrite Hcall.
      eexists _, rc2. split; [reflexivity|].
      split; [|destruct Hmap as (? & ? & _); split; congruence].
      eapply pool_heapMap; [exact Hmap|exact HP1| |].
      { by rewrite !length_imap. }
      intros s p row Hp Hrow. rewrite list_lookup_imap in Hrow |- *.
      destruct (KR !! s) as [kr|] eqn:Hkr; [|done].
      injection Hrow as <-. simpl. f_equal.
      rewrite updateRows_updRow.
      rewrite <- (updateStage_S createAggregate node k kr.1 kr.2 (extra s) agg Hagg).
      apply updRow_ext. intros x. symmetry. unfold values, extra.
      replace (length (selectionOf input (mask agg))) with (rowCount input)
        by (unfold selectionOf; by rewrite length_map, length_seq).
      apply updates_of_slot; [done|].
      intros r Hr. split.
      + intros Hr'.
        destruct (Forall2_lookup_l _ _ _ _ _ Hig Hr') as (s' & Hs' & HGs').
        by rewrite (NoDup_lookup _ _ _ _ (pool_nodup _ _ _ _ HP1) HGs' Hp) in Hs'.
      + intros Hs.
        destruct (Forall2_lookup_r _ _ _ _ _ Hig Hs) as (p' & Hp' & HGs').
        congruence. }
  destruct (Hloop (length (aggregates node))) as (c & rc' & Hrun & HP' & Hcounts);
    [done|].
  exists c, rc'. unfold evaluateAggregates. rewrite Haggs, length_map.
  split; [done|]. split; [|done].
  erewrite imap_ext; [exact HP'|].
  intros s kr _. simpl. symmetry. apply updateStage_all.
Qed.

End Evaluate.

(** * One batch *)

Section Batches.

Context {Acc : Type}.
Implicit Types (op : Operator Acc) (rc : RowContainer Acc) (row : Row Acc).
Implicit Types (p q : Ptr) (G : list Ptr) (V : list (Row Acc)).
Implicit Types (R : list (list (list Value))).

Variable createAggregate : string -> Step -> Aggregate Acc.
Variable node : AggregationNode.
Variable width : nat.
Variable size : nat.
Hypothesis node_wf : wellFormedNode width node = true.

Local Abbreviation key := (keyOf (nodeKeys node)).

Lemma nodeKeys_below : channelsBelow width (nodeKeys node).
Proof.
  unfold wellFormedNode in node_wf.
  apply andb_true_iff in node_wf as [Hkeys _].
  rewrite forallb_forall in Hkeys.
  unfold channelsBelow, nodeKeys. apply list.Forall_forall.
  intros c (e & -> & He%list_elem_of_In%Hkeys)%list_elem_of_fmap.
  destruct e as [channel|]; [|done]. simpl in *.
  apply N.ltb_lt in He. lia.
Qed.

Lemma nodeMasks_below :
  Forall (fun m => isMask width m = true) (map mask (aggregates node)).
Proof.
  unfold wellFormedNode in node_wf.
  apply andb_true_iff in node_wf as [_ Haggs].
  rewrite forallb_forall in Haggs.
  apply list.Forall_forall.
  intros m (agg & -> & Hagg%list_elem_of_In%Haggs)%list_elem_of_fmap.
  by apply andb_true_iff in Hagg as [_ ?].
Qed.

Lemma runKey_app run extra :
  run <> [] -> runKey node (run ++ extra) = runKey node run.
Proof. by destruct run. Qed.

(** The slots after a batch hold the runs after the batch. *)
Lemma slotRows_absorb R (table : list (list Value)) :
  nonEmptyRuns R ->
  let opened := openedKeys (currentKey key R) (map key table) in
  let slots := assignSlots (length R) (currentKey key R) (map key table) in
  imap (fun s (kr : list Value * list (list Value)) =>
          slotRow createAggregate node kr.1 (kr.2 ++ rowsOfSlot s slots table))
    (map (fun run => (runKey node run, run)) R
     ++ map (fun k => (k, [])) opened)
  = map (groupRow createAggregate node) (absorb key R table).
Proof.
  intros Hne opened slots. apply list_eq. intros s.
  rewrite list_lookup_imap, list_lookup_fmap.
  rewrite (absorb_lookup key table R s Hne). fold opened slots.
  pose proof (absorb_heads key table R Hne) as Hheads. fold opened in Hheads.
  apply (f_equal (fun l => l !! s)) in Hheads.
  rewrite list_lookup_fmap, (absorb_lookup key table R s Hne) in Hheads.
  fold opened slots in Hheads.
  destruct (decide (s < length R + length opened)) as [Hs|Hs].
  - destruct (decide (s < length R)) as [Hold|Hnew].
    + rewrite lookup_app_l by (by rewrite length_map).
      rewrite list_lookup_fmap.
      destruct (lookup_lt_is_Some_2 R s Hold) as [run Hrun].
      rewrite Hrun. simpl. unfold groupRow. f_equal. f_equal.
      rewrite runKey_app; [done|].
      unfold nonEmptyRuns in Hne. rewrite list.Forall_forall in Hne. apply Hne.
      by eapply list_elem_of_lookup_2.
    + rewrite lookup_app_r by (rewrite length_map; lia).
      rewrite length_map, list_lookup_fmap.
      rewrite lookup_app_r in Hheads by (rewrite length_map; lia).
      rewrite length_map, list_lookup_fmap in Hheads.
      destruct (lookup_lt_is_Some_2 opened (s - length R)) as [k Hk]; [lia|].
      rewrite Hk in Hheads |- *. simpl in *.
      rewrite (lookup_ge_None_2 R s) in Hheads |- * by lia. simpl in *.
      unfold groupRow. f_equal. f_equal.
      injection Hheads as Hheads. unfold runKey.
      destruct (rowsOfSlot s slots table) as [|row extra]; [done|].
      simpl in *. congruence.
  - rewrite lookup_ge_None_2; [done|].
    rewrite length_app, !length_map. lia.
Qed.

Lemma pool_rotate rc G (n k : nat) V :
  pool rc G n V -> k <= n ->
  pool rc (drop k G ++ take k G) (n - k) (drop k V).
Proof.
  intros HP Hk. pose proof (pool_bound _ _ _ _ HP) as Hbound. split.
  - rewrite length_drop, (pool_length _ _ _ _ HP). lia.
  - rewrite length_app, length_drop, length_take. lia.
  - apply list.NoDup_app.
    pose proof (pool_nodup _ _ _ _ HP) as Hnodup.
    rewrite <- (take_drop k G) in Hnodup.
    apply list.NoDup_app in Hnodup as (Htake & Hdisjoint & Hdrop).
    split; [done|]. split; [|done]. intros p Hp Hp'. by apply (Hdisjoint p).
  - intros p Hp. apply (pool_valid _ _ _ _ HP).
    rewrite <- (take_drop k G). apply elem_of_app.
    apply elem_of_app in Hp as [Hp|Hp]; auto.
  - intros s row Hs. rewrite lookup_drop in Hs.
    destruct (pool_rows _ _ _ _ HP _ _ Hs) as (p & Hp & Hrow).
    exists p. split; [|done].
    pose proof (lookup_lt_Some _ _ _ Hs) as Hlt.
    rewrite (pool_length _ _ _ _ HP) in Hlt.
    rewrite lookup_app_l by (rewrite length_drop; lia).
    by rewrite lookup_drop.
Qed.

Lemma outputRow_groupRow run :
  outputRow (step node) (map (kernelOf createAggregate node) (aggregates node))
    (groupRow createAggregate node run)
  = referenceRow createAggregate node run.
Proof.
  unfold outputRow, referenceRow, groupRow, slotRow. simpl. f_equal.
  induction (aggregates node) as [|agg aggs IH]; [done|].
  simpl. by rewrite IH.
Qed.

(** The operator between two batches, the runs [R] being open. *)
Record opInv op R : Prop := {
  inv_size : outputBatchSize_ op = size;
  inv_step : step_ op = step node;
  inv_keys : groupingKeys_ op = nodeKeys node;
  inv_aggregates :
    aggregates_ op = map (kernelOf createAggregate node) (aggregates node);
  inv_args :
    args_ op = map (fun a => map exprToChannel (callInputs a)) (aggregates node);
  inv_constants :
    constantArgs_ op
    = map (fun a => map constantArg (callInputs a)) (aggregates node);
  inv_masks :
    exists selections,
      masks_ op = Some {| maskChannels := map mask (aggregates node);
                          maskedRows := selections |};
  inv_decoded : length (decodedKeys_ op) = length (nodeKeys node);
  inv_input : input_ op = None;
  inv_pool :
    exists rc,
      rows_ op = Some rc
      /\ keyCount rc = length (nodeKeys node)
      /\ accumulatorCount rc = length (aggregates node)
      /\ pool rc (groups_ op) (numGroups_ op)
           (map (groupRow createAggregate node) R);
  inv_runs : nonEmptyRuns R;
  inv_seam : seam width op (currentKey key R)
}.

(** The rows of the first [k] open groups, as [createOutput] emits them. *)
Lemma createOutput_groups op rc R (k : nat) :
  rows_ op = Some rc ->
  step_ op = step node ->
  groupingKeys_ op = nodeKeys node ->
  aggregates_ op = map (kernelOf createAggregate node) (aggregates node) ->
  pool rc (groups_ op) (numGroups_ op) (map (groupRow createAggregate node) R) ->
  k <= numGroups_ op ->
  createOutput k op
  = Ok (outputBatch op rc k, set_calls (calls_ op ++ extractCalls op k) op)
  /\ tableOf (outputBatch op rc k)
     = map (referenceRow createAggregate node) (take k R).
Proof.
  intros Hrc Hstep Hkeys Haggs HP Hk.
  pose proof (pool_bound _ _ _ _ HP) as Hbound.
  pose proof (pool_length _ _ _ _ HP) as Hlen. rewrite length_map in Hlen.
  assert (Hslot : forall s, s < k ->
            exists p run,
              groups_ op !! s = Some p /\ R !! s = Some run
              /\ rowAt rc p = Some (groupRow createAggregate node run)).
  { intros s Hs.
    destruct (pool_lookup _ _ _ _ s HP) as (p & row & Hp & Hrow & Hat); [lia|].
    rewrite list_lookup_fmap in Hrow.
    destruct (R !! s) as [run|]; [|done]. injection Hrow as <-. eauto. }
  split.
  - apply createOutput_spec; [done|]. split; [lia|].
    intros p (s & Hp)%list_elem_of_lookup_1.
    apply lookup_take_Some in Hp as [Hp Hlt].
    destruct (Hslot s Hlt) as (p' & run & Hp' & _ & Hat).
    assert (p' = p) as -> by congruence.
    exists (groupRow createAggregate node run). split; [done|].
    destruct (slotRow_shape createAggregate node (runKey node run) run)
      as (Hk1 & Hk2 & Hk3).
    unfold groupRow. rewrite Hk1, Hk2, Hkeys, Haggs.
    unfold runKey, keyOf. by rewrite !length_map.
  - unfold tableOf. cbn [rowCount outputBatch].
    apply list_eq. intros r. rewrite !list_lookup_fmap.
    destruct (decide (r < k)) as [Hr|Hr].
    + rewrite lookup_seq_lt by done. simpl.
      destruct (Hslot r Hr) as (p & run & Hp & Hrun & Hat).
      rewrite lookup_take_lt, Hrun by done. simpl. f_equal.
      destruct (slotRow_shape createAggregate node (runKey node run) run)
        as (Hk1 & Hk2 & Hk3).
      rewrite (outputBatch_rowValues op rc k r p
                 (groupRow createAggregate node run)); try done.
      * rewrite Hstep, Haggs. apply outputRow_groupRow.
      * unfold groupRow. rewrite Hk1, Hkeys.
        unfold runKey, keyOf. by rewrite !length_map.
      * unfold groupRow. by rewrite Hk2, Haggs, length_map.
    + rewrite lookup_ge_None_2 by (rewrite length_seq; lia).
      by rewrite lookup_ge_None_2 by (rewrite length_take; lia).
Qed.

Lemma batchKeys_table (K : list column_index_t) (B : RowVector) :
  batchKeys K B = map (keyOf K) (tableOf B).
Proof. unfold batchKeys, tableOf, keyAt. by rewrite map_map. Qed.

Lemma getOutput_batch op R (B : RowVector) :
  opInv op R ->
  wellFormedBatch width B = true ->
  1 <= rowCount B ->
  let R1 := absorb key R (tableOf B) in
  exists out op',
    getOutput (addInput B op) = Ok (out, op')
    /\ ((size < length R1
         /\ (exists batch,
               out = Some batch
               /\ tableOf batch
                  = map (referenceRow createAggregate node) (take size R1))
         /\ opInv op' (drop size R1))
        \/ (length R1 <= size /\ out = None /\ opInv op' R1)).
Proof.
  intros Hinv Hwf Hrows R1.
  destruct Hinv as [Hsize Hstep Hkeys Haggs Hargs Hconst (sel & Hmasks) Hdec
                      Hinput (rc & Hrc & Hkc & Hac & HP) Hne Hseam].
  pose proof nodeKeys_below as HK.
  pose proof (pool_length _ _ _ _ HP) as HnR. rewrite length_map in HnR.
  unfold getOutput, addInput. op_simpl. rewrite Hmasks. cbn [require bind].
  rewrite (masksAddInput_spec width B Hwf) by (simpl; apply nodeMasks_below).
  cbn [bind maskChannels].
  match goal with
  | |- context [assignGroups ?o] =>
      destruct (assignGroups_spec width o B rc
                  (map (groupRow createAggregate node) R) (currentKey key R))
        as (c1 & rc1 & G1 & ig & D & Hassign & HD & HP1 & Hkc1 & Hac1 & Hig
            & Hslots & HG1)
  end; try done; op_simpl; try (by rewrite Hkeys).
  rewrite Hassign. cbn [bind]. op_simpl.
  rewrite Hkeys, batchKeys_table in *.
  set (opened := openedKeys (currentKey key R) (map key (tableOf B))) in *.
  set (slots := assignSlots (numGroups_ op) (currentKey key R)
                  (map key (tableOf B))) in *.
  set (V := map (groupRow createAggregate node) R) in *.
  assert (HV : length V = numGroups_ op) by (unfold V; by rewrite length_map).
  (* the new groups are initialized *)
  replace (numGroups_ op + length opened - numGroups_ op) with (length opened)
    by lia.
  match goal with
  | |- context [foldM (initializeAggregate _) _ ?o] =>
      destruct (initializeAggregates_spec createAggregate node o rc1 V opened)
        as (c2 & rc2 & Hinit & HP2 & Hkc2 & Hac2)
  end; try done.
  { op_simpl. rewrite HV.
    rewrite (map_ext (initStage createAggregate node 0) (openedRow rc)); [done|].
    intros k. symmetry. by apply initStage_0. }
  op_simpl. rewrite HV in Hinit, HP2. rewrite Hinit. cbn [bind].
  (* the accumulators absorb the rows *)
  set (KR := map (fun run => (runKey node run, run)) R
             ++ map (fun k : list Value => (k, @nil (list Value))) opened).
  assert (HKR : length KR = numGroups_ op + length opened).
  { unfold KR. rewrite length_app, !length_map. lia. }
  match goal with
  | |- context [evaluateAggregates ?o] =>
      destruct (evaluateAggregates_spec createAggregate node width B Hwf node_wf
                  o rc2 KR slots)
        as (c3 & rc3 & Heval & HP3 & Hkc3 & Hac3)
  end; try done.
  { unfold slots. by rewrite assignSlots_length, length_map, tableOf_length. }
  { rewrite HKR. apply assignSlots_bound.
    intros [k Hk]. apply currentKey_Some in Hk. lia. }
  { op_simpl. rewrite HKR.
    replace (map (fun kr : list Value * list (list Value) =>
                    slotRow createAggregate node kr.1 kr.2) KR)
      with (V ++ map (initStage createAggregate node (length (aggregates node)))
                   opened); [done|].
    unfold KR, V, groupRow. rewrite map_app, !map_map. f_equal.
    apply map_ext. intros k. apply initStage_all. }
  rewrite Heval. cbn [bind]. op_simpl.
  assert (HR1 : length R1 = numGroups_ op + length opened).
  { unfold R1. rewrite absorb_length by done. by rewrite HnR. }
  assert (HP4 : pool rc3 G1 (numGroups_ op + length opened)
                  (map (groupRow createAggregate node) R1)).
  { rewrite HKR in HP3. unfold R1.
    rewrite <- (slotRows_absorb R (tableOf B) Hne). rewrite HnR. exact HP3. }
  assert (Hcur : currentKey key R1
                 = Some (keyAt (nodeKeys node) B (rowCount B - 1))).
  { unfold R1, keyAt.
    apply (absorb_currentKey key R (tableOf B) (rowValues B (rowCount B - 1)));
      [done|].
    unfold tableOf.
    replace (rowCount B) with (S (rowCount B - 1)) at 1 by lia.
    rewrite seq_S, map_app. simpl. by rewrite last_snoc. }
  assert (HneR1 : nonEmptyRuns R1) by (by apply absorb_nonEmpty).
  rewrite Hsize.
  destruct (Nat.ltb_spec size (numGroups_ op + length opened)) as [Hlt|Hge].
  - (* a batch of [size] groups is emitted *)
    match goal with
    | |- context [createOutput size ?o] =>
        destruct (createOutput_groups o rc3 R1 size) as [Hcreate Htable]
    end; try done; op_simpl; try lia.
    rewrite Hcreate. cbn [bind].
    rewrite rotateGroups_spec
      by (op_simpl; pose proof (pool_bound _ _ _ _ HP4); lia).
    cbn [bind]. op_simpl. rewrite Hsize.
    eexists _, _. split; [reflexivity|]. left.
    split; [lia|]. split; [eexists; split; [reflexivity|exact Htable]|].
    split; op_simpl; try done.
    + eexists. reflexivity.
    + exists rc3. split; [done|]. split; [congruence|]. split; [congruence|].
      rewrite fmap_drop. apply pool_rotate; [done|lia].
    + by apply Forall_drop.
    + unfold seam. op_simpl. split; [done|]. split; [done|]. split; [lia|].
      rewrite Hkeys. rewrite currentKey_drop by lia. done.
  - eexists _, _. split; [reflexivity|]. right.
    split; [lia|]. split; [done|].
    split; op_simpl; try done.
    + eexists. reflexivity.
    + exists rc3. split; [done|]. split; [congruence|]. split; [congruence|done].
    + unfold seam. op_simpl. split; [done|]. split; [done|]. split; [|by rewrite Hkeys].
      destruct R1; [done|]. simpl in HR1. lia.
Qed.

End Batches.

(** * The whole stream *)

(** The rows of a sequence of batches, in order. *)
Definition rowsOf (batches : list RowVector) : list (list Value) :=
  concat (map tableOf batches).

(** The key columns of emitted rows: the first columns of the output. *)
Definition emittedKeys (node : AggregationNode) (rows : list (list Value))
    : list (list Value) :=
  map (take (length (nodeKeys node))) rows.

(** A batch the driver may pass on: its columns have one value per row, and
    it has at least one row. *)
Definition isInputBatch (width : nat) (batch : RowVector) : Prop :=
  wellFormedBatch width batch = true /\ 1 <= rowCount batch.

Section Stream.

Context {Acc : Type}.
Implicit Types (op : Operator Acc) (rc : RowContainer Acc).
Implicit Types (R : list (list (list Value))).

Variable createAggregate : string -> Step -> Aggregate Acc.
Variable node : AggregationNode.
Variable width : nat.
Variable size : nat.
Hypothesis node_wf : wellFormedNode width node = true.

Local Abbreviation key := (keyOf (nodeKeys node)).

Lemma flush_spec op R :
  opInv createAggregate node width size op R ->
  exists outputs op',
    drive [] op = Ok (outputs, op')
    /\ rowsOf outputs = map (referenceRow createAggregate node) R.
Proof.
  intros [Hsize Hstep Hkeys Haggs Hargs Hconst (sel & Hmasks) Hdec
            Hinput (rc & Hrc & Hkc & Hac & HP) Hne Hseam].
  pose proof (pool_length _ _ _ _ HP) as HnR. rewrite length_map in HnR.
  cbn [drive]. unfold isFinished, noMoreInput. op_simpl.
  rewrite Hinput, bool_decide_true by done. cbn [andb].
  destruct (Nat.eqb_spec (numGroups_ op) 0) as [Hzero|Hpos].
  - exists [], (set_noMoreInput true op). split; [done|].
    destruct R; [done|]. simpl in HnR. lia.
  - unfold getOutput. op_simpl. rewrite Hinput. cbn [andb].
    destruct (Nat.ltb_spec 0 (numGroups_ op)) as [_|]; [|lia].
    match goal with
    | |- context [createOutput _ ?o] =>
        destruct (createOutput_groups createAggregate node o rc R (numGroups_ op))
          as [Hcreate Htable]
    end; try done.
    op_simpl. rewrite Hcreate. cbn [bind option_list].
    eexists _, _. split; [reflexivity|].
    unfold rowsOf. simpl. rewrite app_nil_r, Htable.
    by rewrite <- HnR, firstn_all.
Qed.

Lemma drive_spec stream : forall op R,
  opInv createAggregate node width size op R ->
  Forall (isInputBatch width) stream ->
  exists outputs op',
    drive stream op = Ok (outputs, op')
    /\ rowsOf outputs
       = map (referenceRow createAggregate node) (absorb key R (rowsOf stream)).
Proof.
  induction stream as [|B stream IH]; intros op R Hinv Hstream.
  - by apply flush_spec.
  - apply list.Forall_cons in Hstream as [[Hwf Hrows] Hstream].
    destruct (getOutput_batch createAggregate node width size node_wf
                op R B Hinv Hwf Hrows)
      as (out & op1 & Hout & Hcases).
    cbn [drive]. rewrite Hout. cbn [bind].
    unfold rowsOf at 2. cbn [map concat]. fold (rowsOf stream).
    rewrite absorb_app.
    destruct Hcases as [(Hlt & (batch & -> & Htable) & Hinv1)
                       |(Hge & -> & Hinv1)].
    + destruct (IH _ _ Hinv1 Hstream) as (outputs & op' & -> & Hrest).
      cbn [bind option_list]. eexists _, _. split; [reflexivity|].
      unfold rowsOf in *. change (option_list (Some batch)) with [batch].
      cbn [app map concat].
      rewrite Htable, Hrest, <- map_app. f_equal.
      symmetry. by apply absorb_drop.
    + destruct (IH _ _ Hinv1 Hstream) as (outputs & op' & -> & Hrest).
      cbn [bind option_list]. eexists _, _. split; [reflexivity|]. done.
Qed.

Lemma initialized_inv : opInv createAggregate node width size (initialized createAggregate size node) [].
Proof.
  split; try done.
  - by eexists.
  - simpl. unfold nodeKeys. by rewrite length_replicate, length_map.
  - eexists. split; [reflexivity|]. simpl. unfold nodeKeys.
    rewrite length_map. split; [done|]. split; [done|].
    split; try done.
    + constructor.
    + intros p Hp. by apply elem_of_nil in Hp.
  - constructor.
Qed.

Lemma run_reference stream :
  isSupported node = true ->
  Forall (isInputBatch width) stream ->
  exists outputs,
    run createAggregate size node stream = Ok outputs
    /\ rowsOf outputs = referenceGroupBy createAggregate node (rowsOf stream).
Proof.
  intros Hsupported Hstream. unfold run.
  rewrite initialize_supported by done. cbn [bind].
  destruct (drive_spec stream _ [] initialized_inv Hstream)
    as (outputs & op' & -> & Hrows).
  exists outputs. split; [done|].
  unfold referenceGroupBy. by rewrite (runs_absorb key).
Qed.

(** The keys of the reference rows are the keys of the runs. *)
Lemma emittedKeys_reference (rows : list (list Value)) :
  emittedKeys node (referenceGroupBy createAggregate node rows)
  = openedKeys None (map key rows).
Proof.
  unfold emittedKeys, referenceGroupBy. rewrite (runs_absorb key), map_map.
  pose proof (absorb_heads key rows [] ltac:(constructor)) as Hheads.
  simpl in Hheads. change (currentKey key []) with (@None (list Value)) in Hheads.
  pose proof (absorb_nonEmpty key rows [] ltac:(constructor)) as Hne.
  apply (inj (fmap Some)). change (Some <$> openedKeys None (map key rows))
    with (map Some (openedKeys None (map key rows))). rewrite <- Hheads.
  rewrite <- list_fmap_compose. apply Forall_fmap_ext.
  unfold nonEmptyRuns in Hne. eapply list.Forall_impl; [exact Hne|].
  intros run Hrun. simpl. destruct run as [|row run]; [done|]. simpl. f_equal.
  unfold referenceRow, runKey. simpl.
  rewrite take_app_length'; [done|]. unfold keyOf. by rewrite length_map.
Qed.

(** C1, for the batches a driver passes on. Let every batch of the stream
    have one value per row in each of its columns and at least one row, and
    let the rows of the stream be non-decreasing on the grouping keys, in any
    order [le] of the key tuples. Then the operator accepts the stream, and
    the rows of all batches that [getOutput] returns, the terminal flush
    included, are the rows of the reference group-by over the concatenated
    input: one row per maximal run of rows with equal keys, with the key
    tuple of the run and its aggregate values. The key of the k-th emitted
    row is the k-th distinct key of the input. Any other split of the same
    rows into batches gives the same output rows. *)
Theorem stream_output_is_reference_group_by
    (le : list Value -> list Value -> Prop) (stream : list RowVector) :
  (forall a b c, le a b -> le b c -> le a c) ->
  (forall a b, le a b -> le b a -> a = b) ->
  isSupported node = true ->
  Forall (isInputBatch width) stream ->
  Sorted le (map key (rowsOf stream)) ->
  exists outputs,
    run createAggregate size node stream = Ok outputs
    /\ rowsOf outputs = referenceGroupBy createAggregate node (rowsOf stream)
    /\ emittedKeys node (rowsOf outputs) = distinctKeys (map key (rowsOf stream))
    /\ forall stream',
         Forall (isInputBatch width) stream' ->
         rowsOf stream' = rowsOf stream ->
         exists outputs',
           run createAggregate size node stream' = Ok outputs'
           /\ rowsOf outputs' = rowsOf outputs.
Proof.
  intros Htrans Hantisym Hsupported Hstream Hsorted.
  destruct (run_reference stream Hsupported Hstream) as (outputs & Hrun & Hrows).
  exists outputs. split; [done|]. split; [done|]. split.
  - rewrite Hrows, emittedKeys_reference.
    by apply (openedKeys_sorted le Htrans Hantisym).
  - intros stream' Hstream' Hsame.
    destruct (run_reference stream' Hsupported Hstream')
      as (outputs' & Hrun' & Hrows').
    exists outputs'. split; [done|]. by rewrite Hrows', Hrows, Hsame.
Qed.

End Stream.

(** * A sum over one column, grouped by another *)

(** The kernel of [sum]: the accumulator is the running sum of the first
    argument, nulls being skipped. *)
Definition sumInto (acc : Z) (values : list Value) : Z :=
  match values with
  | Some x :: _ => (acc + x)%Z
  | _ => acc
  end.

Definition sumKernel : Aggregate Z :=
  {| initialState := 0%Z;
     rawInput := sumInto;
     intermediateInput := sumInto;
     finalValue := fun acc => Some acc;
     accumulatorValue := fun acc => Some acc |}.

Definition createSum (name : string) (kernelFor : Step) : Aggregate Z :=
  sumKernel.

(** [sum(c1) filter (where m) group by c0]. *)
Definition sumNode (nodeStep : Step) (m : option column_index_t)
    : AggregationNode :=
  {| step := nodeStep;
     groupingKeys := [FieldAccessTypedExpr 0%N];
     aggregates := [{| callName := "sum";
                       callInputs := [FieldAccessTypedExpr 1%N];
                       sortingKeys := [];
                       distinct := false;
                       mask := m |}];
     ignoreNullKeys := false |}.

(** A batch from its columns. *)
Definition batchOf (numRows : nat) (columns : list (list Z)) : RowVector :=
  {| rowCount := numRows;
     children := map (fun column => FlatVector (map Some column)) columns |}.

(** Keys [1,1,2,2] with values [1,2,3,4], then keys [2,3] with values [5,6]. *)
Definition firstBatch : RowVector := batchOf 4 [[1; 1; 2; 2]; [1; 2; 3; 4]]%Z.
Definition secondBatch : RowVector := batchOf 2 [[2; 3]; [5; 6]]%Z.
Definition emptyBatch : RowVector := batchOf 0 [[]; []].

(** Keys [1,1,2] with values [10,20,30] and the mask [1,0,1]. *)
Definition maskedBatch : RowVector :=
  batchOf 3 [[1; 1; 2]; [10; 20; 30]; [1; 0; 1]]%Z.

Definition startOf (size : nat) (node : AggregationNode) : Operator Z :=
  initialized createSum size node.

(** The operator after one more [getOutput]. *)
Definition pull (op : Operator Z) : Operator Z :=
  match getOutput op with
  | Ok (_, op') => op'
  | Raise _ => op
  end.

(** The operator once the driver has pushed and pulled the batches. *)
Definition afterBatches (batches : list RowVector) (op : Operator Z)
    : Operator Z :=
  fold_left (fun op batch => pull (addInput batch op)) batches op.

Definition rowsAfter (op : Operator Z) : RowContainer Z :=
  default {| keyCount := 0; accumulatorCount := 0; storage := [] |} (rows_ op).

(** ** An order of the key tuples: nulls first, then by value, column by
    column *)

Definition valueLt (a b : Value) : Prop :=
  match a, b with
  | None, Some _ => True
  | Some x, Some y => (x < y)%Z
  | _, None => False
  end.

Fixpoint keyLe (a b : list Value) : Prop :=
  match a, b with
  | [], _ => True
  | _ :: _, [] => False
  | x :: a', y :: b' => valueLt x y \/ (x = y /\ keyLe a' b')
  end.

Lemma valueLt_irrefl (a : Value) : ~ valueLt a a.
Proof. destruct a; simpl; [lia|tauto]. Qed.

Lemma valueLt_trans (a b c : Value) : valueLt a b -> valueLt b c -> valueLt a c.
Proof. destruct a, b, c; simpl; try tauto; lia. Qed.

Lemma keyLe_trans (a b c : list Value) : keyLe a b -> keyLe b c -> keyLe a c.
Proof.
  revert b c. induction a as [|x a IH]; intros [|y b] [|z c]; simpl; try tauto.
  intros [Hxy|[-> Hab]] [Hyz|[-> Hbc]].
  - left. by eapply valueLt_trans.
  - by left.
  - by left.
  - right. split; [done|]. by eapply IH.
Qed.

Lemma keyLe_antisym (a b : list Value) : keyLe a b -> keyLe b a -> a = b.
Proof.
  revert b. induction a as [|x a IH]; intros [|y b]; simpl; try tauto.
  intros [Hxy|[-> Hab]] [Hyx|[Heq Hba]].
  - destruct (valueLt_irrefl x). by eapply valueLt_trans.
  - subst. by destruct (valueLt_irrefl x).
  - by destruct (valueLt_irrefl y).
  - f_equal. by apply IH.
Qed.

(** * The properties on the sum example *)

(** The sum grouped by the first column, over two batches and with one
    output row per batch: the rows are those of the reference group-by. *)
Lemma stream_output_is_reference_group_by_witness :
  exists outputs,
    run createSum 1 (sumNode kSingle None) [firstBatch; secondBatch] = Ok outputs
    /\ rowsOf outputs
       = [[Some 1; Some 3]; [Some 2; Some 12]; [Some 3; Some 6]]%Z
    /\ emittedKeys (sumNode kSingle None) (rowsOf outputs)
       = [[Some 1]; [Some 2]; [Some 3]]%Z.
Proof.
  destruct (stream_output_is_reference_group_by createSum
              (sumNode kSingle None) 2 1 eq_refl keyLe
              [firstBatch; secondBatch] keyLe_trans keyLe_antisym eq_refl)
    as (outputs & Hrun & Hrows & Hkeys & _).
  - repeat constructor.
  - vm_compute. repeat constructor; simpl; (lia || tauto).
  - exists outputs. split; [exact Hrun|]. split.
    + rewrite Hrows. vm_compute. reflexivity.
    + rewrite Hkeys. vm_compute. reflexivity.
Defined.

(** An empty batch between two batches: the stream is sorted and all its
    batches are well formed, and the operator faults at the batch after the
    empty one, where it reads row [-1] of the retained batch. *)
Definition streamWithEmptyBatch : list RowVector :=
  [firstBatch; emptyBatch; secondBatch].

Lemma empty_batch_breaks_the_stream :
  isSupported (sumNode kSingle None) = true
  /\ wellFormedNode 2 (sumNode kSingle None) = true
  /\ Forall (fun batch => wellFormedBatch 2 batch = true) streamWithEmptyBatch
  /\ Sorted keyLe (map (keyOf (nodeKeys (sumNode kSingle None)))
                     (rowsOf streamWithEmptyBatch))
  /\ run createSum 8 (sumNode kSingle None) streamWithEmptyBatch
     = Raise OutOfBounds
  /\ ~ exists outputs,
         run createSum 8 (sumNode kSingle None) streamWithEmptyBatch = Ok outputs
         /\ rowsOf outputs
            = referenceGroupBy createSum (sumNode kSingle None)
                (rowsOf streamWithEmptyBatch).
Proof.
  split; [reflexivity|]. split; [reflexivity|].
  split; [repeat constructor|].
  split; [vm_compute; repeat constructor; simpl; (lia || tauto)|].
  assert (Hrun : run createSum 8 (sumNode kSingle None) streamWithEmptyBatch
                 = Raise OutOfBounds) by (vm_compute; reflexivity).
  split; [exact Hrun|].
  intros (outputs & Hok & _). rewrite Hrun in Hok. discriminate.
Qed.

(** [getOutput] on the first batch with a target of one row. *)
Lemma output_batch_sizes_witness :
  exists output op',
    getOutput (addInput firstBatch (startOf 1 (sumNode kSingle None)))
    = Ok (output, op')
    /\ exists batch, output = Some batch /\ rowCount batch = 1.
Proof.
  destruct (getOutput (addInput firstBatch (startOf 1 (sumNode kSingle None))))
    as [[output op']|e] eqn:Hget; [|vm_compute in Hget; discriminate].
  pose proof (output_batch_sizes _ _ _ Hget) as Hsizes.
  exists output, op'. split; [reflexivity|].
  vm_compute in Hget. injection Hget as <- <-.
  cbn [input_ addInput set_input] in Hsizes.
  destruct Hsizes as (masks' & op1 & _ & Hrows & _).
  eexists. split; [reflexivity|exact Hrows].
Defined.






(** Two groups are open after the first batch. *)
Definition twoGroups : Operator Z :=
  afterBatches [firstBatch] (startOf 8 (sumNode kSingle None)).

(** A kernel whose two update paths differ: on raw input it counts the
    rows, on intermediate results it adds the partial counts. *)
Definition countKernel : Aggregate Z :=
  {| initialState := 0%Z;
     rawInput := fun acc _ => (acc + 1)%Z;
     intermediateInput := sumInto;
     finalValue := fun acc => Some acc;
     accumulatorValue := fun acc => Some acc |}.

Definition createCount (name : string) (kernelFor : Step) : Aggregate Z :=
  countKernel.

(** Two groups are open, and the first batch is pending once more. *)
Definition countedGroups : Operator Z :=
  addInput firstBatch
    (pull (addInput firstBatch
             (initialized createCount 8 (sumNode kSingle None)))).

(** The update of the two open groups in a single step: the one update
    enters [addRawInput] of the kernel, which takes the rows before to the
    rows after, and [addIntermediateResults] would have left other rows. The
    aggregate column of an output is the column that [extractValues] gives:
    the two counts. *)
Lemma step_selects_update_and_extraction_witness :
  (exists op' rows args before after,
     evaluateAggregates countedGroups = Ok op'
     /\ rows_ countedGroups = Some before
     /\ rows_ op' = Some after
     /\ addRawInput countKernel 0 (inputGroups_ countedGroups) rows args before
        = Ok after
     /\ addIntermediateResults countKernel 0 (inputGroups_ countedGroups) rows
          args before
        <> Ok after)
  /\ (exists output op' rc,
        createOutput 2 countedGroups = Ok (output, op')
        /\ rows_ countedGroups = Some rc
        /\ children output !! 1 = Some (FlatVector [Some 2; Some 2]%Z)
        /\ extractValues countKernel 0 (groups_ countedGroups) 2 rc
           = Ok (FlatVector [Some 2; Some 2]%Z)).
Proof.
  split.
  - destruct (evaluateAggregates countedGroups) as [op'|e] eqn:Heval;
      [|vm_compute in Heval; discriminate].
    destruct (step_selects_update_and_extraction countedGroups)
      as [Hupdates _].
    destruct (Hupdates op' Heval)
      as (updates & states & Hcalls & Hlength & _ & Hfirst & Hlast & Hmade).
    destruct updates as [|e [|? ?]]; try discriminate Hlength.
    destruct (Hmade 0 e eq_refl)
      as (kernel & rows & args & before & after & Hkernel & Hbefore & Hafter
          & Hcall & Hupdate).
    injection Hkernel as <-.
    assert (Hrows : rows_ countedGroups = Some before) by congruence.
    assert (Hrows' : rows_ op' = Some after).
    { change (length (aggregates_ countedGroups)) with 1 in Hlast. congruence. }
    exists op', rows, args, before, after.
    split; [reflexivity|]. split; [exact Hrows|]. split; [exact Hrows'|].
    split; [exact Hupdate|].
    subst e. vm_compute in Heval. injection Heval as <-.
    vm_compute in Hcalls.
    simplify_eq.
    vm_compute in Hrows. injection Hrows as <-.
    vm_compute in Hrows'. injection Hrows' as <-.
    vm_compute. discriminate.
  - destruct (createOutput 2 countedGroups) as [[output op']|e] eqn:Hcreate;
      [|vm_compute in Hcreate; discriminate].
    destruct (step_selects_update_and_extraction countedGroups)
      as [_ Hextracts].
    destruct (Hextracts 2 output op' Hcreate) as (_ & _ & Hcolumns).
    destruct (Hcolumns 0 ltac:(simpl; lia))
      as (kernel & rc & column & Hkernel & Hrc & Hcolumn & Hextract).
    injection Hkernel as <-.
    exists output, op', rc.
    split; [reflexivity|]. split; [exact Hrc|].
    assert (Hvalues : column = FlatVector [Some 2; Some 2]%Z).
    { vm_compute in Hcreate. injection Hcreate as <- _.
      vm_compute in Hcolumn. by injection Hcolumn as <-. }
    subst column. split; [exact Hcolumn|exact Hextract].
Defined.

Lemma update_selection_follows_mask_witness :
  exists output op' masks masks' kernel groups args held left,
    getOutput (addInput maskedBatch (startOf 8 (sumNode kSingle (Some 2%N))))
    = Ok (output, op')
    /\ masks_ (addInput maskedBatch (startOf 8 (sumNode kSingle (Some 2%N))))
       = Some masks
    /\ masksAddInput masks maskedBatch (replicate 3 true) = Ok masks'
    /\ rows_ op' = Some left
    /\ kernelUpdate kSingle kernel 0 groups [true; false; true] args held
       = Ok left.
Proof.
  assert (Hget : getOutput (addInput maskedBatch
                              (startOf 8 (sumNode kSingle (Some 2%N))))
                 = Ok (None, pull (addInput maskedBatch
                                     (startOf 8 (sumNode kSingle (Some 2%N))))))
    by (vm_compute; reflexivity).
  destruct (update_selection_follows_mask
              (addInput maskedBatch (startOf 8 (sumNode kSingle (Some 2%N))))
              maskedBatch _ _ eq_refl Hget)
    as (masks & masks' & before & updates & after & states & Hmasks & Hadd & _
        & _ & Hlength & _ & Hlast & Hupdates).
  destruct updates as [|e updates]; [discriminate Hlength|].
  destruct (Hupdates 0 e eq_refl)
    as (kernel & groups & rows & args & held & left & _ & _ & _ & Hleft
        & Hupdate & Hrows).
  injection Hmasks as <-.
  change (maskChannels _ !! 0) with (Some (Some 2%N)) in Hrows.
  destruct Hrows as (_ & column & Hcolumn & ->).
  vm_compute in Hcolumn. injection Hcolumn as <-.
  change (evaluateMask _ _) with [true; false; true] in Hupdate.
  eexists _, _, _, masks', kernel, groups, args, held, left.
  split; [exact Hget|]. split; [reflexivity|]. split; [exact Hadd|].
  split; [|exact Hupdate].
  change (length (aggregates_ _)) with 1 in Hlast. congruence.
Defined.


Lemma createOutput_reads_slots_in_order_witness :
  rows_ twoGroups = Some (rowsAfter twoGroups)
  /\ readySlots twoGroups (rowsAfter twoGroups) 2
  /\ exists batch op',
       createOutput 2 twoGroups = Ok (batch, op')
       /\ rowCount batch = 2
       /\ rowValues batch 1 = [Some 2; Some 7]%Z.
Proof.
  assert (Hrows : rows_ twoGroups = Some (rowsAfter twoGroups))
    by (vm_compute; reflexivity).
  assert (Hready : readySlots twoGroups (rowsAfter twoGroups) 2).
  { split; [vm_compute; lia|]. intros p Hp. vm_compute in Hp.
    apply elem_of_cons in Hp as [->|Hp];
      [|apply elem_of_cons in Hp as [->|Hp]; [|by apply elem_of_nil in Hp]].
    - eexists. split; [vm_compute; reflexivity|].
      split; [reflexivity|]. split; [reflexivity|]. repeat constructor.
      by eexists.
    - eexists. split; [vm_compute; reflexivity|].
      split; [reflexivity|]. split; [reflexivity|]. repeat constructor.
      by eexists. }
  split; [exact Hrows|]. split; [exact Hready|].
  destruct (createOutput_reads_slots_in_order twoGroups (rowsAfter twoGroups) 2
              Hrows Hready) as (batch & op' & Hcreate & Hcount & _ & Hrow).
  exists batch, op'. split; [exact Hcreate|]. split; [exact Hcount|].
  rewrite (Hrow 1 2 {| keys := [Some 2%Z]; accumulators := [Some 7%Z] |});
    [reflexivity|lia|vm_compute; reflexivity|vm_compute; reflexivity].
Defined.

(** The second batch is pending and the first one is retained. *)
Definition secondBatchPending : Operator Z :=
  addInput secondBatch
    (pull (addInput firstBatch (startOf 8 (sumNode kSingle None)))).

Lemma seam_read_in_bounds_witness :
  initialize createSum (construct 8 (sumNode kSingle None))
  = Ok (startOf 8 (sumNode kSingle None))
  /\ reachable nonEmpty (startOf 8 (sumNode kSingle None)) secondBatchPending
  /\ 1 <= numGroups_ secondBatchPending <= length (groups_ secondBatchPending).
Proof.
  assert (Hstart : initialize createSum (construct 8 (sumNode kSingle None))
                   = Ok (startOf 8 (sumNode kSingle None)))
    by (vm_compute; reflexivity).
  assert (Hreach : reachable nonEmpty (startOf 8 (sumNode kSingle None))
                     secondBatchPending).
  { apply reach_addInput; [|unfold nonEmpty; simpl; lia|reflexivity|reflexivity].
    apply (reach_getOutput _ _ (addInput firstBatch
                                  (startOf 8 (sumNode kSingle None))) None);
      [|vm_compute; reflexivity].
    apply reach_addInput;
      [apply reach_start|unfold nonEmpty; simpl; lia|reflexivity|reflexivity]. }
  split; [exact Hstart|]. split; [exact Hreach|].
  destruct (seam_read_in_bounds createSum 8 (sumNode kSingle None) _
              secondBatchPending secondBatch Hstart Hreach eq_refl)
    as [Hbounds _]; [|exact Hbounds].
  vm_compute. eexists. reflexivity.
Defined.

(** An empty first batch is retained and opens no group: with the next
    batch pending, the read of [groups_[numGroups_ - 1]] is out of bounds. *)
Definition pendingAfterEmptyBatch : Operator Z :=
  addInput secondBatch
    (pull (addInput emptyBatch (startOf 8 (sumNode kSingle None)))).

Lemma empty_batch_leaves_no_group :
  initialize createSum (construct 8 (sumNode kSingle None))
  = Ok (startOf 8 (sumNode kSingle None))
  /\ reachable (fun _ => True) (startOf 8 (sumNode kSingle None))
       pendingAfterEmptyBatch
  /\ input_ pendingAfterEmptyBatch = Some secondBatch
  /\ prevInput_ pendingAfterEmptyBatch = Some emptyBatch
  /\ numGroups_ pendingAfterEmptyBatch = 0
  /\ vectorAt (groups_ pendingAfterEmptyBatch)
       (Z.of_nat (numGroups_ pendingAfterEmptyBatch) - 1)
     = Raise OutOfBounds
  /\ getOutput pendingAfterEmptyBatch = Raise OutOfBounds.
Proof.
  split; [vm_compute; reflexivity|]. split.
  { apply reach_addInput; [|done|reflexivity|reflexivity].
    apply (reach_getOutput _ _ (addInput emptyBatch
                                  (startOf 8 (sumNode kSingle None))) None);
      [|vm_compute; reflexivity].
    apply reach_addInput; [apply reach_start|done|reflexivity|reflexivity]. }
  repeat split; vm_compute; reflexivity.
Qed.

(** * Key comparison, initialization and the end of the stream *)

(** X1. On rows that exist, of batches whose columns all have one value per
    row, [equalKeys] returns, and it returns true exactly when the two rows
    have the same value in every grouping-key column, a null being equal to
    a null only. *)
Theorem equalKeys_compares_every_key_column (width : nat)
    (keys : list column_index_t) (batch other : RowVector) (i j : nat) :
  channelsBelow width keys ->
  wellFormedBatch width batch = true ->
  wellFormedBatch width other = true ->
  i < rowCount batch ->
  j < rowCount other ->
  exists equal,
    equalKeys keys batch (Z.of_nat i) other (Z.of_nat j) = Ok equal
    /\ (equal = true <->
        forall c, c ∈ keys ->
          columnOf (rowValues batch i) c = columnOf (rowValues other j) c).
Proof.
  intros Hkeys Hbatch Hother Hi Hj.
  rewrite (equalKeys_spec width) by done. eexists. split; [reflexivity|].
  rewrite bool_decide_eq_true. unfold keyOf. split.
  - intros Heq c (k & Hk)%list_elem_of_lookup_1.
    apply (f_equal (fun l => l !! k)) in Heq.
    rewrite !list_lookup_fmap, Hk in Heq. simpl in Heq. congruence.
  - intros Heq. apply list_eq. intros k. rewrite !list_lookup_fmap.
    destruct (keys !! k) as [c|] eqn:Hk; [|done]. simpl. f_equal.
    apply Heq. by eapply list_elem_of_lookup_2.
Qed.

(** * A stream with one key *)

Section OneKey.

Context {R K : Type} `{EqDecision K} (key : R -> K).

Lemma runsFrom_one_key (rows : list R) : forall (cur : list R) (prev : R),
  Forall (fun row => key row = key prev) rows ->
  runsFrom key cur prev rows = [cur ++ rows].
Proof.
  induction rows as [|row rows IH]; intros cur prev Hrows.
  - simpl. by rewrite app_nil_r.
  - apply list.Forall_cons in Hrows as [Hrow Hrows]. simpl.
    rewrite bool_decide_true by done. rewrite IH.
    + by rewrite <- app_assoc.
    + eapply list.Forall_impl; [exact Hrows|]. simpl. congruence.
Qed.

Lemma runs_one_key (k : K) (rows : list R) :
  rows <> [] ->
  Forall (fun row => key row = k) rows ->
  runs key rows = [rows].
Proof.
  intros Hne Hrows. destruct rows as [|row rows]; [done|].
  apply list.Forall_cons in Hrows as [Hrow Hrows]. simpl.
  apply (runsFrom_one_key rows [row] row).
  eapply list.Forall_impl; [exact Hrows|]. simpl. congruence.
Qed.

End OneKey.

Section Extras.

Context {Acc : Type}.
Implicit Types (op : Operator Acc) (rc : RowContainer Acc).

Variable createAggregate : string -> Step -> Aggregate Acc.

Lemma rowsOf_nonEmpty (width : nat) (stream : list RowVector) :
  stream <> [] -> Forall (isInputBatch width) stream -> rowsOf stream <> [].
Proof.
  intros Hne Hstream. destruct stream as [|batch stream]; [done|].
  apply list.Forall_cons in Hstream as [[_ Hrows] _].
  unfold rowsOf, tableOf. simpl.
  destruct (rowCount batch) as [|n]; [lia|done].
Qed.

(** X2. When all rows of a stream have the same grouping-key tuple, which
    is so for every stream when the plan has no grouping keys, the operator
    emits exactly one row, whatever the batch boundaries and the output
    target are: the key tuple followed by the aggregates over all rows. *)
Theorem one_key_stream_gives_one_row (node : AggregationNode) (width size : nat)
    (stream : list RowVector) (k : list Value) :
  isSupported node = true ->
  wellFormedNode width node = true ->
  stream <> [] ->
  Forall (isInputBatch width) stream ->
  Forall (fun row => keyOf (nodeKeys node) row = k) (rowsOf stream) ->
  exists outputs,
    run createAggregate size node stream = Ok outputs
    /\ rowsOf outputs
       = [k ++ map (fun aggregate =>
                      extractOf (step node) (kernelOf createAggregate node aggregate)
                        (accumulate createAggregate node aggregate
                           (rowsOf stream)))
                 (aggregates node)].
Proof.
  intros Hsupported Hnode Hne Hstream Hkey.
  destruct (run_reference createAggregate node width size Hnode stream
              Hsupported Hstream) as (outputs & Hrun & Hrows).
  exists outputs. split; [done|]. rewrite Hrows. unfold referenceGroupBy.
  pose proof (rowsOf_nonEmpty width stream Hne Hstream) as Hrows'.
  rewrite (runs_one_key _ k) by done. simpl. unfold referenceRow. do 2 f_equal.
  unfold runKey. destruct (rowsOf stream) as [|row rows]; [done|].
  by apply list.Forall_cons in Hkey as [Hrow _].
Qed.

(** ** [close] *)


(** ** The end of the stream *)

(** X4. Once the end of the input was signalled and no input is pending,
    one [getOutput] that returns finishes the operator: it returns a batch
    exactly when groups were open, [isFinished] holds afterwards, the retained
    batch is not released, and every further [getOutput] returns nothing
    and changes nothing. *)
Theorem flush_finishes_the_operator op output op' :
  input_ op = None ->
  getOutput (noMoreInput op) = Ok (output, op') ->
  isFinished op' = true
  /\ (output = None <-> numGroups_ op = 0)
  /\ prevInput_ op' = prevInput_ op
  /\ getOutput op' = Ok (None, op').
Proof.
  intros Hinput H. unfold getOutput, noMoreInput in H. op_simpl.
  rewrite Hinput in H. cbn [andb] in H.
  destruct (Nat.ltb_spec 0 (numGroups_ op)) as [Hpos|Hzero].
  - apply bind_Ok in H as ([batch op1] & Hcreate & H). injection H as <- <-.
    apply createOutput_shape in Hcreate as (-> & _). op_simpl.
    split; [unfold isFinished; op_simpl; by rewrite Hinput|].
    split; [split; [done|lia]|]. split; [done|].
    unfold getOutput. op_simpl. by rewrite Hinput.
  - injection H as <- <-.
    assert (Hn : numGroups_ op = 0) by lia.
    split; [unfold isFinished; op_simpl; by rewrite Hinput, Hn|].
    split; [done|]. split; [done|].
    unfold getOutput. op_simpl. by rewrite Hinput, Hn.
Qed.

(** ** What [initialize] builds and what it rejects *)

(** X5. [initialize] reports the first unsupported feature in the order of
    its checks: the aggregates are checked in plan order, for sorting keys
    before the distinct modifier, and [ignoreNullKeys] is checked only after
    all aggregates. *)
Theorem initialize_reports_the_first_unsupported_feature (size : nat)
    (node : AggregationNode) :
  (forall pre aggregate post,
     aggregates node = pre ++ aggregate :: post ->
     forallb isSupportedAggregate pre = true ->
     isSupportedAggregate aggregate = false ->
     initialize createAggregate (construct size node)
     = Raise (Unsupported
         (match sortingKeys aggregate with
          | [] =>
              "Streaming aggregation doesn't support aggregations over distinct inputs yet"
          | _ :: _ =>
              "Streaming aggregation doesn't support aggregations over sorted inputs yet"
          end)))
  /\ (forallb isSupportedAggregate (aggregates node) = true ->
      ignoreNullKeys node = true ->
      initialize createAggregate (construct size node)
      = Raise (Unsupported
          "Streaming aggregation doesn't support ignoring null keys yet")).
Proof.
  split.
  - intros pre agg post Haggs Hpre Hagg. unfold initialize. simpl.
    rewrite Haggs.
    assert (Hloop : forall setup,
              foldM (setupAggregate createAggregate (step node))
                (pre ++ agg :: post) setup
              = Raise (Unsupported
                  (match sortingKeys agg with
                   | [] =>
                       "Streaming aggregation doesn't support aggregations over distinct inputs yet"
                   | _ :: _ =>
                       "Streaming aggregation doesn't support aggregations over sorted inputs yet"
                   end))).
    { intros [[[ks ars] cs] ms]. rewrite foldM_app.
      rewrite (setup_supported createAggregate) by done. cbn [bind foldM].
      unfold setupAggregate, isSupportedAggregate in *.
      destruct (sortingKeys agg); [|done].
      by destruct (distinct agg). }
    by rewrite Hloop.
  - intros Haggs Hnull. unfold initialize. simpl.
    rewrite (setup_supported createAggregate) by done. simpl. by rewrite Hnull.
Qed.

(** X6. What a successful [initialize] leaves: the channels of the grouping
    keys in plan order, one decoded-key holder per key, an empty row
    container and no group; for every aggregate of the plan, in plan order,
    a kernel created for the partial step when the plan's step emits partial
    output and for the single step otherwise, the channels of its arguments,
    and one constant per argument: a column of one value for a literal, none
    for an input column. The plan node is released. *)
Theorem initialize_builds_the_kernels_and_constants (size : nat)
    (node : AggregationNode) op :
  initialize createAggregate (construct size node) = Ok op ->
  outputBatchSize_ op = size
  /\ aggregationNode_ op = None
  /\ groupingKeys_ op = map exprToChannel (groupingKeys node)
  /\ length (decodedKeys_ op) = length (groupingKeys node)
  /\ rows_ op = Some {| keyCount := length (groupingKeys node);
                        accumulatorCount := length (aggregates node);
                        storage := [] |}
  /\ groups_ op = [] /\ numGroups_ op = 0
  /\ length (aggregates_ op) = length (aggregates node)
  /\ forall i aggregate,
       aggregates node !! i = Some aggregate ->
       aggregates_ op !! i
       = Some (createAggregate (callName aggregate)
                 (if isPartialOutput (step node) then kPartial else kSingle))
       /\ args_ op !! i = Some (map exprToChannel (callInputs aggregate))
       /\ exists constants,
            constantArgs_ op !! i = Some constants
            /\ length constants = length (callInputs aggregate)
            /\ forall j arg,
                 callInputs aggregate !! j = Some arg ->
                 constants !! j
                 = Some (match arg with
                         | ConstantTypedExpr value => Some (ConstantVector value 1)
                         | FieldAccessTypedExpr _ => None
                         end).
Proof.
  intros [_ ->]%initialize_Ok. simpl.
  split; [done|]. split; [done|]. split; [done|].
  split; [by rewrite length_replicate|]. split; [done|].
  split; [done|]. split; [done|]. split; [by rewrite length_map|].
  intros i agg Hagg. rewrite !list_lookup_fmap, Hagg. simpl.
  split; [done|]. split; [done|]. eexists. split; [reflexivity|].
  split; [by rewrite length_map|].
  intros j arg Harg. rewrite list_lookup_fmap, Harg. simpl. f_equal.
  unfold constantArg. destruct arg as [channel|value]; simpl; [|done].
  by destruct (channel =? kConstantChannel)%N.
Qed.

(** ** The arguments of the kernel calls *)

(** The argument [j] of aggregate [i], as [evaluateAggregates] passes it. *)
Definition passedArgument op (input : RowVector) (i j : nat)
    (channel : column_index_t) (arg : option Vector) : Prop :=
  if (channel =? kConstantChannel)%N then
    exists constants,
      constantArgs_ op !! i = Some constants /\ constants !! j = Some arg
  else
    exists column,
      children input !! N.to_nat channel = Some column /\ arg = Some column.

Lemma pushArgs_effect op (input : RowVector) (i : nat)
    (channels : list column_index_t) (args : list (option Vector)) :
  input_ op = Some input ->
  foldM (pushArg op i channels) (seq 0 (length channels)) [] = Ok args ->
  length args = length channels
  /\ forall j channel,
       channels !! j = Some channel ->
       exists arg, args !! j = Some arg /\ passedArgument op input i j channel arg.
Proof.
  intros Hinput H.
  eapply (foldM_seq_ind (fun k (pushed : list (option Vector)) =>
            length pushed = k
            /\ forall j channel,
                 j < k -> channels !! j = Some channel ->
                 exists arg,
                   pushed !! j = Some arg
                   /\ passedArgument op input i j channel arg)) in H.
  - destruct H as [Hlen Hargs]. split; [done|].
    intros j channel Hj. apply Hargs; [|done]. by eapply lookup_lt_Some.
  - split; [done|]. intros; lia.
  - intros k pushed pushed' _ [Hlen Hargs] Hpush. unfold pushArg in Hpush.
    apply bind_Ok in Hpush as (c & Hc%require_Ok & Hpush).
    assert (Hnew : exists arg,
              pushed' = pushed ++ [arg] /\ passedArgument op input i k c arg).
    { unfold passedArgument.
      destruct (c =? kConstantChannel)%N.
      - apply bind_Ok in Hpush as (constants & Hcs%require_Ok & Hpush).
        apply bind_Ok in Hpush as (constant & Hconst%require_Ok & Hpush).
        injection Hpush as <-. eauto.
      - rewrite Hinput in Hpush. cbn [require bind] in Hpush.
        apply bind_Ok in Hpush as (column & Hcolumn%childAt_Ok & Hpush).
        injection Hpush as <-. eauto. }
    destruct Hnew as (arg & -> & Harg).
    split; [rewrite length_app; simpl; lia|].
    intros j channel Hj Hchannel. destruct (decide (j = k)) as [->|Hne].
    + exists arg. rewrite lookup_app_r by lia.
      rewrite Hlen, Nat.sub_diag. split; [done|].
      unfold column_index_t in *. rewrite Hc in Hchannel.
      by injection Hchannel as <-.
    + destruct (Hargs j channel) as (a & Ha & Hpassed); [lia|done|].
      exists a. split; [|done]. by apply lookup_app_l_Some.
Qed.

(** X7. Every update that [evaluateAggregates] makes enters the kernel of
    the aggregate with one column per argument, in order: the column of the
    pending input at the argument's channel, or, for a channel that marks a
    literal, the constant that [initialize] stored for this argument; the
    constant is not rebuilt. The rows it leaves are the rows that these
    updates produce, one after the other. *)
Theorem evaluateAggregates_passes_columns_and_constants op (input : RowVector)
    op' :
  input_ op = Some input ->
  evaluateAggregates op = Ok op' ->
  exists updates (states : list (option (RowContainer Acc))),
    calls_ op' = calls_ op ++ updates
    /\ constantArgs_ op' = constantArgs_ op
    /\ length updates = length (aggregates_ op)
    /\ length states = S (length (aggregates_ op))
    /\ states !! 0 = Some (rows_ op)
    /\ states !! length (aggregates_ op) = Some (rows_ op')
    /\ forall i e, updates !! i = Some e ->
         exists kernel rows args channels before after,
           e = updateCall (step_ op) i (inputGroups_ op) rows args
           /\ aggregates_ op !! i = Some kernel
           /\ states !! i = Some (Some before)
           /\ states !! S i = Some (Some after)
           /\ kernelUpdate (step_ op) kernel i (inputGroups_ op) rows args
                before
              = Ok after
           /\ args_ op !! i = Some channels
           /\ length args = length channels
           /\ forall j channel,
                channels !! j = Some channel ->
                exists arg,
                  args !! j = Some arg
                  /\ passedArgument op input i j channel arg.
Proof.
  intros Hinput H.
  apply evaluateAggregates_effect in H
    as (updates & states & Hop' & Hlen & Hstates & Hfirst & Hlast & Hmade).
  exists updates, states.
  split; [by rewrite Hop'|]. split; [by rewrite Hop'|].
  split; [done|]. split; [done|]. split; [done|]. split; [done|].
  intros i e (rows & args & before & after & Hbefore & Hafter & kernel
              & channels & Hkernel & Hchannels & Hargs & _ & Hupdate
              & ->)%Hmade.
  apply (pushArgs_effect op input i channels args Hinput) in Hargs
    as [Hlength Hpassed].
  exists kernel, rows, args, channels, before, after. done.
Qed.

(** ** What [getOutput] keeps and what it retains *)

(** The members that only [initialize] writes. *)
Definition sameSetup op op' : Prop :=
  outputBatchSize_ op' = outputBatchSize_ op
  /\ step_ op' = step_ op
  /\ groupingKeys_ op' = groupingKeys_ op
  /\ aggregates_ op' = aggregates_ op
  /\ args_ op' = args_ op
  /\ constantArgs_ op' = constantArgs_ op
  /\ noMoreInput_ op' = noMoreInput_ op.

(** [getOutput] on a pending input, up to the output. *)
Lemma getOutput_pending op (input : RowVector) output op' :
  input_ op = Some input ->
  getOutput op = Ok (output, op') ->
  exists op3,
    sameSetup op op3
    /\ input_ op3 = Some input
    /\ ((outputBatchSize_ op < numGroups_ op3
         /\ exists batch op4 G,
              createOutput (outputBatchSize_ op) op3 = Ok (batch, op4)
              /\ output = Some batch
              /\ op' = consumed
                         (set_numGroups (numGroups_ op3 - outputBatchSize_ op)
                            (set_groups G
                               (set_calls
                                  (calls_ op3
                                   ++ extractCalls op3 (outputBatchSize_ op))
                                  op3))))
        \/ (numGroups_ op3 <= outputBatchSize_ op
            /\ output = None
            /\ op' = consumed op3)).
Proof.
  intros Hin H.
  destruct (getOutput_steps _ _ _ _ Hin H)
    as (masks & masks' & op1 & op2 & op3 & Hmasks & Hadd & Hassign & Hinit
        & Heval & Hout).
  destruct (assignGroups_effect _ _ input Hassign Hin) as (Hopens & _).
  destruct Hopens as (c & r & G & n & ig & D & evs & -> & _).
  apply initializeAggregates_shape in Hinit as (r2 & ->).
  apply evaluateAggregates_shape in Heval as (r3 & updates & Hop3 & _).
  assert (Hsame : sameSetup op op3) by (by rewrite Hop3).
  assert (Hin3 : input_ op3 = Some input) by (by rewrite Hop3).
  assert (Hsize : outputBatchSize_ op3 = outputBatchSize_ op) by (by rewrite Hop3).
  exists op3. split; [exact Hsame|]. split; [exact Hin3|].
  rewrite Hsize in Hout.
  destruct Hout as [(Hlt & batch & op4 & op5 & Hcreate & Hrotate & -> & ->)
                   |(Hge & -> & ->)].
  - left. split; [exact Hlt|].
    pose proof Hcreate as (Hop4 & _)%createOutput_shape.
    apply rotateGroups_effect in Hrotate as (G' & -> & _).
    exists batch, op4, G'. split; [exact Hcreate|]. split; [done|].
    rewrite Hop4. op_simpl. by rewrite Hsize.
  - right. done.
Qed.

(** X8. A [getOutput] that returns has consumed the pending input: no input
    is pending afterwards and the batch it processed is retained as the
    previous batch, whether it has rows or not and whether groups were
    emitted or not; with no input pending, the retained batch stays. The
    members that [initialize] wrote are not changed. *)
Theorem getOutput_retains_the_processed_batch op output op' :
  getOutput op = Ok (output, op') ->
  input_ op' = None
  /\ prevInput_ op' = match input_ op with
                      | Some input => Some input
                      | None => prevInput_ op
                      end
  /\ sameSetup op op'.
Proof.
  intros H. destruct (input_ op) as [input|] eqn:Hin.
  - destruct (getOutput_pending op input output op' Hin H)
      as (op3 & Hsame & Hin3 & [(_ & batch & op4 & G & _ & _ & ->)
                               |(_ & _ & ->)]);
      unfold consumed; op_simpl; done.
  - unfold getOutput in H. rewrite Hin in H.
    destruct (noMoreInput_ op && (0 <? numGroups_ op)).
    + apply bind_Ok in H as ([batch op1] & Hcreate & H). injection H as <- <-.
      apply createOutput_shape in Hcreate as (-> & _). by op_simpl.
    + by injection H as <- <-.
Qed.

(** ** The batches that are returned *)

Lemma extractColumn_size rc (G : list Ptr) (n i : nat) column :
  extractColumn rc G n i = Ok column -> vectorSize column = n.
Proof.
  unfold extractColumn. intros H.
  destruct (Nat.ltb_spec (length G) n) as [|Hn]; [done|].
  apply bind_Ok in H as (values & Hvalues%mapM_result_length & H).
  injection H as <-. simpl. rewrite Hvalues, length_take. lia.
Qed.

Lemma extractGroups_size (extract : Acc -> Value) rc (G : list Ptr) (n a : nat)
    column :
  extractGroups extract a G n rc = Ok column -> vectorSize column = n.
Proof.
  unfold extractGroups. intros H.
  destruct (Nat.ltb_spec (length G) n) as [|Hn]; [done|].
  apply bind_Ok in H as (values & Hvalues%mapM_result_length & H).
  injection H as <-. simpl. rewrite Hvalues, length_take. lia.
Qed.

Lemma createOutput_rectangular (n : nat) op batch op' :
  createOutput n op = Ok (batch, op') ->
  wellFormedBatch (length (groupingKeys_ op) + length (aggregates_ op)) batch
  = true
  /\ rowCount batch = n.
Proof.
  intros H. pose proof H as (_ & Hrows & Hwidth)%createOutput_shape.
  split; [|done]. unfold wellFormedBatch. rewrite Hwidth, Nat.eqb_refl. simpl.
  rewrite Hrows. unfold createOutput in H.
  apply bind_Ok in H as ([ks op1] & Hkeys & H).
  apply bind_Ok in H as ([cs op2] & Haggs & H). injection H as <- <-. simpl.
  rewrite forallb_app. apply andb_true_iff. split.
  - eapply (foldM_seq_ind (fun k (state : list Vector * Operator Acc) =>
              forallb (fun column => vectorSize column =? n) state.1 = true))
      in Hkeys; [exact Hkeys|done|].
    intros k [columns x] [columns' y] _ Hcolumns Hy. cbn [fst snd] in *.
    unfold extractKeyColumn in Hy.
    apply bind_Ok in Hy as (rc & _ & Hy).
    apply bind_Ok in Hy as (column & Hcolumn%extractColumn_size & Hy).
    injection Hy as <- <-. rewrite forallb_app, Hcolumns. simpl.
    by rewrite Hcolumn, Nat.eqb_refl.
  - eapply (foldM_seq_ind (fun k (state : list Vector * Operator Acc) =>
              forallb (fun column => vectorSize column =? n) state.1 = true))
      in Haggs; [exact Haggs|done|].
    intros k [columns x] [columns' y] _ Hcolumns Hy. cbn [fst snd] in *.
    unfold extractAggregateColumn, extractAccumulators, extractValues in Hy.
    apply bind_Ok in Hy as (kernel & _ & Hy).
    apply bind_Ok in Hy as (rc & _ & Hy).
    destruct (isPartialOutput (step_ x));
      apply bind_Ok in Hy as (column & Hcolumn%extractGroups_size & Hy);
      injection Hy as <- <-; rewrite forallb_app, Hcolumns; simpl;
      by rewrite Hcolumn, Nat.eqb_refl.
Qed.

(** X9. Every batch that [getOutput] returns is rectangular: it has one
    column per grouping key and per aggregate, and every column has exactly
    as many values as the batch has rows. The batch of the terminal flush
    has at least one row; a batch returned while an input is processed has
    [outputBatchSize_] rows, so that it is empty when that target is zero. *)
Theorem returned_batches_are_rectangular op batch op' :
  getOutput op = Ok (Some batch, op') ->
  wellFormedBatch (length (groupingKeys_ op) + length (aggregates_ op)) batch
  = true
  /\ match input_ op with
     | Some _ => rowCount batch = outputBatchSize_ op
     | None => 1 <= rowCount batch
     end.
Proof.
  intros H. destruct (input_ op) as [input|] eqn:Hin.
  - destruct (getOutput_pending op input _ op' Hin H)
      as (op3 & (_ & _ & Hkeys & Haggs & _) & _
          & [(_ & batch' & op4 & G & Hcreate & [= <-] & _)|(_ & [=] & _)]).
    apply createOutput_rectangular in Hcreate as [Hwf Hrows].
    split; [|done]. by rewrite <- Hkeys, <- Haggs.
  - unfold getOutput in H. rewrite Hin in H.
    destruct (noMoreInput_ op && (0 <? numGroups_ op)) eqn:Hflush; [|done].
    apply bind_Ok in H as ([batch' op1] & Hcreate & H). injection H as <- <-.
    apply createOutput_rectangular in Hcreate as [Hwf Hrows].
    split; [done|]. apply andb_true_iff in Hflush as [_ Hpos%Nat.ltb_lt]. lia.
Qed.

(** ** A retained batch without rows *)

Lemma equalKeys_before_first_row (channel : column_index_t)
    (keys : list column_index_t) (prev other : RowVector) (values : list Value)
    (index : Z) :
  children prev !! N.to_nat channel = Some (FlatVector values) ->
  equalKeys (channel :: keys) prev (-1) other index = Raise OutOfBounds.
Proof.
  intros Hcolumn. cbn [equalKeys]. unfold childAt at 1. rewrite Hcolumn.
  cbn [require bind].
  destruct (childAt other channel) as [column|e] eqn:Hother.
  - by cbn [bind].
  - unfold childAt in Hother.
    destruct (children other !! N.to_nat channel); [done|].
    simpl in Hother. by injection Hother as <-.
Qed.

Lemma assignGroups_after_empty_batch op (input prev : RowVector)
    (channel : column_index_t) (keys : list column_index_t)
    (values : list Value) :
  input_ op = Some input ->
  1 <= rowCount input ->
  prevInput_ op = Some prev ->
  rowCount prev = 0 ->
  groupingKeys_ op = channel :: keys ->
  children prev !! N.to_nat channel = Some (FlatVector values) ->
  assignGroups op = Raise OutOfBounds.
Proof.
  intros Hinput Hrows Hprev Hempty Hkeys Hcolumn.
  unfold assignGroups. rewrite Hinput. cbn [require bind]. op_simpl.
  rewrite Hprev, Hempty.
  destruct (vectorAt (groups_ op) (Z.of_nat (numGroups_ op) - 1))
    as [prevGroup|e] eqn:Hgroup.
  - cbn [bind]. destruct (rowCount input) as [|n]; [lia|].
    cbn [continueLastGroup]. op_simpl. rewrite Hkeys.
    change (Z.of_nat 0 - 1)%Z with (-1)%Z.
    by rewrite (equalKeys_before_first_row channel keys prev input values).
  - unfold vectorAt in Hgroup.
    destruct (Z.of_nat (numGroups_ op) - 1 <? 0)%Z;
      [by injection Hgroup as <-|].
    destruct (groups_ op !! _); [done|]. simpl in Hgroup.
    by injection Hgroup as <-.
Qed.

(** X10. A retained previous batch without rows makes the next batch with
    rows fault, when there is at least one grouping key and the column of
    the first grouping key in the retained batch is a flat vector:
    [assignGroups] then reads row [-1] of that column, or [groups_[-1]] when
    no group is open, both reads out of range, and [getOutput] returns no
    result. (Without grouping keys nothing is compared, and a constant
    column answers for any row.) *)
Theorem getOutput_faults_after_an_empty_batch op (input prev : RowVector)
    (masks masks' : AggregationMasks) (channel : column_index_t)
    (keys : list column_index_t) (values : list Value) :
  input_ op = Some input ->
  1 <= rowCount input ->
  prevInput_ op = Some prev ->
  rowCount prev = 0 ->
  groupingKeys_ op = channel :: keys ->
  children prev !! N.to_nat channel = Some (FlatVector values) ->
  masks_ op = Some masks ->
  masksAddInput masks input (replicate (rowCount input) true) = Ok masks' ->
  getOutput op = Raise OutOfBounds.
Proof.
  intros Hinput Hrows Hprev Hempty Hkeys Hcolumn Hmasks Hadd.
  unfold getOutput. rewrite Hinput. op_simpl. rewrite Hmasks.
  cbn [require bind]. rewrite Hadd. cbn [bind].
  by rewrite (assignGroups_after_empty_batch _ input prev channel keys values).
Qed.

End Extras.

(** * The slots and the rows of the container *)

Section SlotsAndRows.

Context {Acc : Type}.
Implicit Types (op : Operator Acc) (rc : RowContainer Acc).
Implicit Types (p q : Ptr) (G : list Ptr).

(** A property of the operator before and after [assignGroups] that holds
    across the writes to [inputGroups_] and [decodedKeys_] and across every
    [startNewGroup] holds across [assignGroups]. *)
Lemma assignGroups_rel (Rel : Operator Acc -> Operator Acc -> Prop) :
  (forall op, Rel op op) ->
  (forall op1 op2 op3, Rel op1 op2 -> Rel op2 op3 -> Rel op1 op3) ->
  (forall op ig D, Rel op (set_inputGroups ig (set_decodedKeys D op))) ->
  (forall op index p op', startNewGroup index op = Ok (p, op') -> Rel op op') ->
  forall op op', assignGroups op = Ok op' -> Rel op op'.
Proof.
  intros Hrefl Htrans Hset Hstart op op' H.
  assert (Hig : forall x ig, Rel x (set_inputGroups ig x))
    by (intros x ig; apply (Hset x ig (decodedKeys_ x))).
  assert (Hdecoded : forall x D, Rel x (set_decodedKeys D x))
    by (intros x D; apply (Hset x (inputGroups_ x) D)).
  unfold assignGroups in H.
  apply bind_Ok in H as (input & _ & H).
  set (op0 := set_inputGroups (resize (rowCount input) nullptr (inputGroups_ op)) op)
    in H.
  assert (H0 : Rel op op0) by apply Hig.
  apply bind_Ok in H as ([index op1] & Hseam & H).
  assert (H1 : Rel op op1).
  { destruct (prevInput_ op0) as [prevInput|].
    - apply bind_Ok in Hseam as (prevGroup & _ & Hseam).
      apply continueLastGroup_effect in Hseam as (ig & -> & _).
      eapply Htrans; [exact H0|apply Hig].
    - by injection Hseam as <- <-. }
  destruct (index <? rowCount input); [|by injection H as <-].
  apply bind_Ok in H as (op2 & Hdecode & H).
  apply decodeKeys_effect in Hdecode as [D ->].
  apply bind_Ok in H as ([newGroup op3] & Hnew & H).
  apply bind_Ok in H as ([index' op4] & Hloop & H). injection H as <-.
  assert (H3 : Rel op (setInputGroup index newGroup op3)).
  { eapply Htrans; [exact H1|]. eapply Htrans; [apply Hdecoded|].
    eapply Htrans; [eapply Hstart; exact Hnew|apply Hig]. }
  eapply Htrans; [exact H3|].
  apply (foldM_preserves
           (fun (s s' : nat * Operator Acc) => Rel s.2 s'.2)) in Hloop;
    [exact Hloop| | |].
  - intros s. apply Hrefl.
  - intros s1 s2 s3. apply Htrans.
  - intros [idx x] i [idx' y] _ Hy. simpl. unfold assignRow in Hy.
    apply bind_Ok in Hy as (equal & _ & Hy). destruct equal.
    + apply bind_Ok in Hy as (group & _ & Hy). injection Hy as <- <-.
      apply Hig.
    + apply bind_Ok in Hy as ([p x1] & Hx1 & Hy). injection Hy as <- <-.
      eapply Htrans; [eapply Hstart; exact Hx1|apply Hig].
Qed.

(** Writing the keys of a row changes no other row and allocates none. *)
Lemma storeKeys_storage p (index : nat) op rc op' :
  rows_ op = Some rc ->
  storeKeys p index op = Ok op' ->
  exists c rc',
    op' = set_calls c (set_rows (Some rc') op)
    /\ length (storage rc') = length (storage rc).
Proof.
  intros Hrc H. unfold storeKeys in H.
  eapply (foldM_seq_ind (fun _ x =>
            exists c rc',
              x = set_calls c (set_rows (Some rc') op)
              /\ length (storage rc') = length (storage rc))) in H; [exact H| |].
  - exists (calls_ op), rc. by rewrite <- Hrc.
  - intros i x y _ (c & rc1 & -> & Hlen) Hy. unfold storeKey in Hy. op_simpl.
    cbn [require bind] in Hy.
    apply bind_Ok in Hy as (decoded & _ & Hy).
    apply bind_Ok in Hy as (rc2 & Hstore & Hy). injection Hy as <-.
    eexists _, rc2. split; [reflexivity|].
    unfold store in Hstore.
    apply bind_Ok in Hstore as (value & _ & Hstore).
    apply bind_Ok in Hstore as (row & _ & Hstore).
    destruct (i <? length (keys row)); [|done]. injection Hstore as <-.
    by rewrite storage_setRow_length.
Qed.

(** What [startNewGroup] does to the slots and to the number of rows. *)
Lemma startNewGroup_storage (index : nat) op rc p op' :
  rows_ op = Some rc ->
  startNewGroup index op = Ok (p, op') ->
  exists rc',
    rows_ op' = Some rc'
    /\ numGroups_ op' = S (numGroups_ op)
    /\ if numGroups_ op <? length (groups_ op) then
         groups_ op' = groups_ op
         /\ groups_ op !! numGroups_ op = Some p
         /\ length (storage rc') = length (storage rc)
       else
         groups_ op' = <[numGroups_ op := p]>
                         (resize (numGroups_ op + 1) nullptr (groups_ op))
         /\ p = S (length (storage rc))
         /\ length (storage rc') = S (length (storage rc)).
Proof.
  intros Hrc H. unfold startNewGroup in H.
  destruct (numGroups_ op <? length (groups_ op)).
  - apply bind_Ok in H as (group & Hgroup%require_Ok & H). op_simpl.
    rewrite Hrc in H. cbn [require bind] in H.
    apply bind_Ok in H as (rc1 & Hinit & H).
    apply bind_Ok in H as (op1 & Hstore & H). injection H as <- <-.
    unfold initializeRow in Hinit.
    apply bind_Ok in Hinit as (row & _ & Hinit). injection Hinit as <-.
    apply (storeKeys_storage _ _ _ (setRow rc group (blankRow rc))) in Hstore
      as (c & rc' & -> & Hlen); [|done].
    exists rc'. op_simpl. split; [done|]. split; [done|]. split; [done|].
    split; [done|]. by rewrite Hlen, storage_setRow_length.
  - rewrite Hrc in H. cbn [require bind] in H.
    unfold newRow in H. cbn [fst snd] in H.
    apply bind_Ok in H as (op1 & Hstore & H). injection H as <- <-.
    apply (storeKeys_storage _ _ _
             {| keyCount := keyCount rc;
                accumulatorCount := accumulatorCount rc;
                storage := storage rc ++ [blankRow rc] |}) in Hstore
      as (c & rc' & -> & Hlen); [|done].
    exists rc'. op_simpl. split; [done|]. split; [done|]. split; [done|].
    split; [done|]. rewrite Hlen. simpl. rewrite length_app. simpl. lia.
Qed.

(** Every row of the container is the row of exactly one slot. *)
Definition slotsOwnRows op : Prop :=
  exists rc,
    rows_ op = Some rc
    /\ groups_ op ≡ₚ seq 1 (length (storage rc))
    /\ numGroups_ op <= length (groups_ op).

Lemma slotsOwnRows_length op rc :
  slotsOwnRows op -> rows_ op = Some rc ->
  length (groups_ op) = length (storage rc).
Proof.
  intros (rc' & Hrc & Hperm & _) Hrc'.
  assert (rc' = rc) as -> by congruence.
  apply Permutation_length in Hperm. by rewrite length_seq in Hperm.
Qed.

(** The slots after some steps: rows were allocated only for the groups
    that did not fit in the slots that were there. *)
Definition slotsGrow op op' : Prop :=
  slotsOwnRows op ->
  slotsOwnRows op'
  /\ numGroups_ op <= numGroups_ op'
  /\ length (groups_ op') = length (groups_ op) `max` numGroups_ op'.

Lemma slotsGrow_refl op : slotsGrow op op.
Proof.
  intros Hown. split; [done|]. split; [done|].
  destruct Hown as (rc & _ & _ & Hn). lia.
Qed.

Lemma slotsGrow_trans op1 op2 op3 :
  slotsGrow op1 op2 -> slotsGrow op2 op3 -> slotsGrow op1 op3.
Proof.
  intros H12 H23 Hown. destruct (H12 Hown) as (Hown2 & Hn2 & Hlen2).
  destruct (H23 Hown2) as (Hown3 & Hn3 & Hlen3).
  split; [done|]. split; lia.
Qed.

Lemma slotsGrow_set op (ig : list Ptr) (D : list Vector) :
  slotsGrow op (set_inputGroups ig (set_decodedKeys D op)).
Proof.
  intros Hown. split; [exact Hown|]. split; [done|]. simpl.
  destruct Hown as (rc & _ & _ & Hn). lia.
Qed.

Lemma slotsGrow_startNewGroup (index : nat) op p op' :
  startNewGroup index op = Ok (p, op') -> slotsGrow op op'.
Proof.
  intros H (rc & Hrc & Hperm & Hn).
  destruct (startNewGroup_storage index op rc p op' Hrc H)
    as (rc' & Hrc' & Hn' & Hcase).
  pose proof (Permutation_length Hperm) as Hlen. rewrite length_seq in Hlen.
  destruct (Nat.ltb_spec (numGroups_ op) (length (groups_ op))) as [Hlt|Hge].
  - destruct Hcase as (HG & _ & Hstorage).
    split; [|split; [lia|rewrite HG; lia]].
    exists rc'. split; [done|]. rewrite HG, Hstorage. split; [done|lia].
  - destruct Hcase as (HG & -> & Hstorage).
    assert (Heq : numGroups_ op = length (groups_ op)) by lia.
    assert (HG' : groups_ op' = groups_ op ++ [S (length (storage rc))]).
    { rewrite HG, Heq. rewrite resize_ge by lia.
      replace (length (groups_ op) + 1 - length (groups_ op)) with 1 by lia.
      simpl. rewrite insert_app_r_alt by lia. by rewrite Nat.sub_diag. }
    split; [|split; [lia|rewrite HG', length_app; simpl; lia]].
    exists rc'. split; [done|]. rewrite HG', Hstorage. split.
    + rewrite seq_S. by apply Permutation_app_tail.
    + rewrite length_app. simpl. lia.
Qed.

Lemma assignGroups_slots op op' :
  assignGroups op = Ok op' -> slotsGrow op op'.
Proof.
  apply (assignGroups_rel slotsGrow).
  - apply slotsGrow_refl.
  - apply slotsGrow_trans.
  - apply slotsGrow_set.
  - intros x index p y. apply slotsGrow_startNewGroup.
Qed.

(** The kernels write into rows that exist and allocate none. *)
Lemma setAccumulator_storage rc (a : nat) p (f : option Acc -> Result Acc) rc' :
  setAccumulator rc a p f = Ok rc' ->
  length (storage rc') = length (storage rc).
Proof.
  unfold setAccumulator. intros H.
  apply bind_Ok in H as (row & _ & H).
  apply bind_Ok in H as (old & _ & H).
  apply bind_Ok in H as (new & _ & H). injection H as <-.
  apply storage_setRow_length.
Qed.

Lemma initializeNewGroups_storage (kernel : Aggregate Acc) (a : nat) G
    (indices : list nat) rc rc' :
  initializeNewGroups kernel a G indices rc = Ok rc' ->
  length (storage rc') = length (storage rc).
Proof.
  unfold initializeNewGroups. intros H.
  apply (foldM_preserves
           (fun x y : RowContainer Acc =>
              length (storage y) = length (storage x))) in H; [done|done| |].
  - intros x y z. congruence.
  - intros x i y _ Hy. apply bind_Ok in Hy as (p & _ & Hy).
    by apply setAccumulator_storage in Hy.
Qed.

Lemma updateGroups_storage (update : Acc -> list Value -> Acc) (a : nat) G
    (rows : SelectivityVector) (args : list (option Vector)) rc rc' :
  updateGroups update a G rows args rc = Ok rc' ->
  length (storage rc') = length (storage rc).
Proof.
  unfold updateGroups. intros H.
  apply (foldM_preserves
           (fun x y : RowContainer Acc =>
              length (storage y) = length (storage x))) in H; [done|done| |].
  - intros x y z. congruence.
  - intros x r y _ Hy. destruct (isValid rows r); [|by injection Hy as <-].
    apply bind_Ok in Hy as (p & _ & Hy).
    apply bind_Ok in Hy as (values & _ & Hy).
    by apply setAccumulator_storage in Hy.
Qed.

(** Steps that write to the rows and to the record of calls only. *)
Definition writesRows op rc op' : Prop :=
  exists c rc',
    op' = set_calls c (set_rows (Some rc') op)
    /\ length (storage rc') = length (storage rc).

Lemma initializeAggregates_storage (newGroups : list nat) op rc op' :
  rows_ op = Some rc ->
  foldM (initializeAggregate newGroups) (seq 0 (length (aggregates_ op))) op
  = Ok op' ->
  writesRows op rc op'.
Proof.
  intros Hrc H.
  eapply (foldM_seq_ind (fun _ x => writesRows op rc x)) in H; [exact H| |].
  - exists (calls_ op), rc. by rewrite <- Hrc.
  - intros i x y _ (c & rc1 & -> & Hlen) Hy.
    unfold initializeAggregate in Hy. op_simpl.
    apply bind_Ok in Hy as (kernel & _ & Hy). cbn [require bind] in Hy.
    apply bind_Ok in Hy as (rc2 & Hinit%initializeNewGroups_storage & Hy).
    injection Hy as <-. eexists _, rc2. split; [reflexivity|]. congruence.
Qed.

Lemma evaluateAggregates_storage op rc op' :
  rows_ op = Some rc ->
  evaluateAggregates op = Ok op' ->
  writesRows op rc op'.
Proof.
  intros Hrc H. unfold evaluateAggregates in H.
  eapply (foldM_seq_ind (fun _ x => writesRows op rc x)) in H; [exact H| |].
  - exists (calls_ op), rc. by rewrite <- Hrc.
  - intros i x y _ (c & rc1 & -> & Hlen) Hy.
    unfold evaluateAggregate in Hy. op_simpl.
    apply bind_Ok in Hy as (kernel & _ & Hy).
    apply bind_Ok in Hy as (channels & _ & Hy).
    apply bind_Ok in Hy as (args & _ & Hy).
    apply bind_Ok in Hy as (rows & _ & Hy). cbn [require bind] in Hy.
    unfold addRawInput, addIntermediateResults in Hy.
    destruct (isRawInput (step_ op));
      apply bind_Ok in Hy as (rc2 & Hupdate%updateGroups_storage & Hy);
      injection Hy as <-; eexists _, rc2; (split; [reflexivity|congruence]).
Qed.

(** [getOutput] keeps the slots and the rows in step, and allocates rows
    only for the groups that do not fit in the slots that are there. *)
Lemma getOutput_slots op output op' :
  slotsOwnRows op ->
  getOutput op = Ok (output, op') ->
  slotsOwnRows op'
  /\ length (groups_ op')
     = match input_ op with
       | Some _ =>
           length (groups_ op)
           `max` (numGroups_ op'
                  + match output with
                    | Some _ => outputBatchSize_ op
                    | None => 0
                    end)
       | None => length (groups_ op)
       end.
Proof.
  intros Hown H. destruct (input_ op) as [input|] eqn:Hin.
  - destruct (getOutput_steps _ _ _ _ Hin H)
      as (masks & masks' & op1 & op2 & op3 & Hmasks & Hadd & Hassign & Hinit
          & Heval & Hout).
    destruct (assignGroups_slots _ _ Hassign Hown)
      as ((rc1 & Hrc1 & Hperm1 & Hn1) & Hgrow & Hlen1).
    assert (Hsize1 : outputBatchSize_ op1 = outputBatchSize_ op).
    { destruct (assignGroups_effect _ _ input Hassign Hin) as (Hopens & _).
      by destruct Hopens as (c & r & G & n & ig & D & evs & -> & _). }
    apply initializeAggregates_shape in Hinit as Hshape2.
    destruct Hshape2 as (r2 & Hop2).
    assert (Hrc2 : exists rc2, op2 = set_calls (calls_ op2) (set_rows (Some rc2) op1)
                               /\ length (storage rc2) = length (storage rc1)).
    { apply (initializeAggregates_storage _ _ rc1) in Hinit
        as (c & rc2 & -> & Hlen); [|done]. by exists rc2. }
    destruct Hrc2 as (rc2 & Hop2' & Hlen2).
    assert (Hrc3 : exists rc3, op3 = set_calls (calls_ op3) (set_rows (Some rc3) op1)
                               /\ length (storage rc3) = length (storage rc1)).
    { apply (evaluateAggregates_storage _ rc2) in Heval
        as (c & rc3 & -> & Hlen); [|by rewrite Hop2'].
      exists rc3. rewrite Hop2'. split; [done|congruence]. }
    destruct Hrc3 as (rc3 & Hop3 & Hlen3).
    clear Hop2 Hop2' Hinit Heval.
    assert (Hg3 : groups_ op3 = groups_ op1) by (by rewrite Hop3).
    assert (Hn3 : numGroups_ op3 = numGroups_ op1) by (by rewrite Hop3).
    assert (Hr3 : rows_ op3 = Some rc3) by (by rewrite Hop3).
    assert (Hs3 : outputBatchSize_ op3 = outputBatchSize_ op)
      by (by rewrite Hop3).
    simpl in Hlen1.
    destruct Hout as [(Hlt & batch & op4 & op5 & Hcreate & Hrotate & -> & ->)
                     |(Hge & -> & ->)].
    + apply createOutput_shape in Hcreate as (-> & _).
      rewrite rotateGroups_spec in Hrotate by (op_simpl; rewrite Hg3; lia).
      injection Hrotate as <-. unfold consumed. op_simpl.
      rewrite Hg3, Hn3, Hs3 in *. split.
      * exists rc3. split; [done|]. rewrite Hlen3. op_simpl. split.
        -- etransitivity; [apply Permutation_app_comm|].
           by rewrite take_drop.
        -- rewrite length_app, length_drop, length_take. lia.
      * rewrite length_app, length_drop, length_take. lia.
    + unfold consumed. op_simpl. rewrite Hg3, Hn3 in *. split.
      * exists rc3. split; [done|]. op_simpl. rewrite Hg3, Hn3, Hlen3. done.
      * lia.
  - unfold getOutput in H. rewrite Hin in H.
    destruct (noMoreInput_ op && (0 <? numGroups_ op)).
    + apply bind_Ok in H as ([batch op1] & Hcreate & H). injection H as <- <-.
      apply createOutput_shape in Hcreate as (-> & _). op_simpl.
      split; [|done]. destruct Hown as (rc & Hrc & Hperm & Hn).
      exists rc. split; [done|]. split; [done|]. simpl. lia.
    + by injection H as <- <-.
Qed.

Variable createAggregate : string -> Step -> Aggregate Acc.

Lemma reachable_slotsOwnRows (size : nat) (node : AggregationNode) start op :
  initialize createAggregate (construct size node) = Ok start ->
  reachable (fun _ => True) start op ->
  slotsOwnRows op.
Proof.
  intros [_ ->]%initialize_Ok Hreach.
  induction Hreach as [|op input _ IH _ _ _|op output op' _ IH Hget|op _ IH].
  - eexists. split; [reflexivity|]. simpl. split; [done|lia].
  - exact IH.
  - by destruct (getOutput_slots op output op' IH Hget).
  - exact IH.
Qed.

(** X11. In every state that the driver protocol reaches from an
    initialized operator, whatever batches are pushed, the slot pointers in
    [groups_] are exactly the rows of the container, each once: no two slots
    share a row, every slot points to a row that exists, no row is lost, and
    the open groups are within [groups_]. *)
Theorem slots_are_the_rows_of_the_container (size : nat) (node : AggregationNode)
    start op :
  initialize createAggregate (construct size node) = Ok start ->
  reachable (fun _ => True) start op ->
  exists rc,
    rows_ op = Some rc
    /\ groups_ op ≡ₚ seq 1 (length (storage rc))
    /\ NoDup (groups_ op)
    /\ (forall p, p ∈ groups_ op -> is_Some (rowAt rc p))
    /\ numGroups_ op <= length (groups_ op).
Proof.
  intros Hstart Hreach.
  destruct (reachable_slotsOwnRows size node start op Hstart Hreach)
    as (rc & Hrc & Hperm & Hn).
  exists rc. split; [done|]. split; [done|]. split; [|split; [|done]].
  - rewrite Hperm. apply NoDup_seq.
  - intros p Hp. rewrite Hperm in Hp. apply elem_of_seq in Hp.
    apply rowAt_is_Some. lia.
Qed.

(** X12. A [getOutput] that returns allocates rows only for the groups that
    do not fit in the slots that are there: afterwards the container holds
    as many rows as before, or, if that is more, as many as groups were open
    once the batch was assigned; the rows of emitted groups are reused
    before a row is allocated. The terminal flush allocates nothing. *)
Theorem getOutput_allocates_only_beyond_the_free_slots (size : nat)
    (node : AggregationNode) start op output op' :
  initialize createAggregate (construct size node) = Ok start ->
  reachable (fun _ => True) start op ->
  getOutput op = Ok (output, op') ->
  exists rc rc',
    rows_ op = Some rc
    /\ rows_ op' = Some rc'
    /\ length (storage rc')
       = match input_ op with
         | Some _ =>
             length (storage rc)
             `max` (numGroups_ op'
                    + match output with
                      | Some _ => outputBatchSize_ op
                      | None => 0
                      end)
         | None => length (storage rc)
         end.
Proof.
  intros Hstart Hreach Hget.
  pose proof (reachable_slotsOwnRows size node start op Hstart Hreach) as Hown.
  destruct (getOutput_slots op output op' Hown Hget) as [Hown' Hlen].
  pose proof Hown as (rc & Hrc & _). pose proof Hown' as (rc' & Hrc' & _).
  exists rc, rc'. split; [done|]. split; [done|].
  rewrite <- (slotsOwnRows_length op' rc' Hown' Hrc').
  rewrite <- (slotsOwnRows_length op rc Hown Hrc). exact Hlen.
Qed.

End SlotsAndRows.

(** * Masks and two-stage plans *)

Section Masked.

Context {Acc : Type}.
Variable createAggregate : string -> Step -> Aggregate Acc.

Lemma accumulate_all_masked (node : AggregationNode) (aggregate : PlanAggregate)
    (run : list (list Value)) :
  Forall (fun row => passesMask (mask aggregate) row = false) run ->
  accumulate createAggregate node aggregate run
  = initialState (kernelOf createAggregate node aggregate).
Proof.
  unfold accumulate. intros Hrun.
  generalize (initialState (kernelOf createAggregate node aggregate)).
  induction Hrun as [|row run Hrow _ IH]; intros acc; [done|].
  cbn [fold_left]. rewrite IH. unfold accumulateRow. by rewrite Hrow.
Qed.

(** X13. Rows that fail the mask of an aggregate still open groups: when no
    row of the stream passes the mask of aggregate [i], the operator emits
    one row per run of equal keys all the same, and column [i] of the
    aggregates holds, in every row, what the kernel extracts from a freshly
    initialized accumulator. *)
Theorem masked_rows_still_open_groups (node : AggregationNode)
    (width size : nat) (stream : list RowVector) (i : nat)
    (aggregate : PlanAggregate) :
  isSupported node = true ->
  wellFormedNode width node = true ->
  Forall (isInputBatch width) stream ->
  aggregates node !! i = Some aggregate ->
  Forall (fun row => passesMask (mask aggregate) row = false) (rowsOf stream) ->
  exists outputs,
    run createAggregate size node stream = Ok outputs
    /\ emittedKeys node (rowsOf outputs)
       = map (runKey node) (runs (keyOf (nodeKeys node)) (rowsOf stream))
    /\ forall row,
         row ∈ rowsOf outputs ->
         row !! (length (nodeKeys node) + i)
         = Some (extractOf (step node) (kernelOf createAggregate node aggregate)
                   (initialState (kernelOf createAggregate node aggregate))).
Proof.
  intros Hsupported Hnode Hstream Hagg Hmask.
  destruct (run_reference createAggregate node width size Hnode stream
              Hsupported Hstream) as (outputs & Hrun & Hrows).
  exists outputs. split; [done|]. rewrite Hrows. unfold referenceGroupBy. split.
  - unfold emittedKeys. rewrite map_map. apply map_ext. intros run.
    unfold referenceRow. rewrite take_app_length'; [done|].
    unfold runKey, keyOf. by rewrite length_map.
  - intros row (run & -> & Hrun')%list_elem_of_fmap. unfold referenceRow.
    rewrite lookup_app_r
      by (unfold runKey, keyOf; rewrite length_map; lia).
    replace (length (runKey node run)) with (length (nodeKeys node))
      by (unfold runKey, keyOf; by rewrite length_map).
    replace (length (nodeKeys node) + i - length (nodeKeys node)) with i by lia.
    rewrite list_lookup_fmap, Hagg. simpl. do 2 f_equal.
    apply accumulate_all_masked.
    rewrite list.Forall_forall in Hmask |- *. intros r Hr. apply Hmask.
    rewrite <- (runs_concat (keyOf (nodeKeys node)) (rowsOf stream)).
    apply list_elem_of_In, in_concat. exists run.
    split; by apply list_elem_of_In.
Qed.

End Masked.

(** ** The batches of a whole run *)

Section Outputs.

Context {Acc : Type}.
Implicit Types (op : Operator Acc).

Lemma getOutput_sameSetup op output op' :
  getOutput op = Ok (output, op') -> sameSetup op op'.
Proof.
  intros H. destruct (input_ op) as [input|] eqn:Hin.
  - destruct (getOutput_pending op input output op' Hin H)
      as (op3 & Hsame & Hin3 & [(_ & batch & op4 & G & _ & _ & ->)
                               |(_ & _ & ->)]);
      unfold consumed; op_simpl; done.
  - unfold getOutput in H. rewrite Hin in H.
    destruct (noMoreInput_ op && (0 <? numGroups_ op)).
    + apply bind_Ok in H as ([batch op1] & Hcreate & H). injection H as <- <-.
      apply createOutput_shape in Hcreate as (-> & _). by op_simpl.
    + by injection H as <- <-.
Qed.

Lemma getOutput_inputBatch op batch op' :
  getOutput op = Ok (Some batch, op') ->
  1 <= outputBatchSize_ op ->
  isInputBatch (length (groupingKeys_ op) + length (aggregates_ op)) batch.
Proof.
  intros H Hsize. destruct (input_ op) as [input|] eqn:Hin.
  - destruct (getOutput_pending op input _ op' Hin H)
      as (op3 & (_ & _ & Hkeys & Haggs & _) & _
          & [(_ & batch' & op4 & G & Hcreate & [= <-] & _)|(_ & [=] & _)]).
    apply createOutput_rectangular in Hcreate as [Hwf Hrows].
    split; [by rewrite <- Hkeys, <- Haggs|lia].
  - unfold getOutput in H. rewrite Hin in H.
    destruct (noMoreInput_ op && (0 <? numGroups_ op)) eqn:Hflush; [|done].
    apply bind_Ok in H as ([batch' op1] & Hcreate & H). injection H as <- <-.
    apply createOutput_rectangular in Hcreate as [Hwf Hrows].
    split; [done|]. apply andb_true_iff in Hflush as [_ Hpos%Nat.ltb_lt]. lia.
Qed.

Lemma drive_inputBatches (stream : list RowVector) : forall op outputs op',
  drive stream op = Ok (outputs, op') ->
  1 <= outputBatchSize_ op ->
  Forall (isInputBatch (length (groupingKeys_ op) + length (aggregates_ op)))
    outputs.
Proof.
  induction stream as [|batch stream IH]; intros op outputs op' H Hsize.
  - cbn [drive] in H. destruct (isFinished (noMoreInput op)).
    + injection H as <- <-. constructor.
    + apply bind_Ok in H as ([output op1] & Hget & H). injection H as <- <-.
      destruct output as [out|]; [|constructor].
      apply list.Forall_singleton.
      by apply (getOutput_inputBatch (noMoreInput op) out op1).
  - cbn [drive] in H.
    apply bind_Ok in H as ([output op1] & Hget & H).
    apply bind_Ok in H as ([rest op2] & Hrest & H). injection H as <- <-.
    pose proof (getOutput_sameSetup _ _ _ Hget)
      as (Hs & _ & Hkeys & Haggs & _).
    op_simpl. apply Forall_app. split.
    + destruct output as [out|]; [|constructor].
      apply list.Forall_singleton.
      by apply (getOutput_inputBatch (addInput batch op) out op1).
    + rewrite <- Hkeys, <- Haggs. apply (IH op1 rest op2); [done|lia].
Qed.

End Outputs.

(** ** Rows whose neighbours have different keys *)

Section Neighbours.

Context {R K : Type} `{EqDecision K} (key : R -> K).

(** No key of the list equals the one before it, [current] being before
    the first. *)
Fixpoint neighboursDiffer (current : option K) (ks : list K) : Prop :=
  match ks with
  | [] => True
  | k :: ks' => current <> Some k /\ neighboursDiffer (Some k) ks'
  end.

Lemma openedKeys_neighbours (ks : list K) : forall current,
  neighboursDiffer current (openedKeys current ks).
Proof.
  induction ks as [|k ks IH]; intros current; [done|].
  cbn [openedKeys]. case_bool_decide; [apply IH|].
  split; [done|apply IH].
Qed.

Lemma absorb_neighbours (rows : list R) : forall runs,
  nonEmptyRuns runs ->
  neighboursDiffer (currentKey key runs) (map key rows) ->
  absorb key runs rows = runs ++ map (fun row => [row]) rows.
Proof.
  induction rows as [|row rows IH]; intros runs Hne Hrows.
  - simpl. by rewrite app_nil_r.
  - destruct Hrows as [Hrow Hrows]. cbn [absorb fold_left map].
    unfold absorbRow at 2. rewrite bool_decide_false by done.
    fold (absorb key (runs ++ [[row]]) rows). rewrite IH.
    + by rewrite <- app_assoc.
    + apply Forall_app. split; [done|]. by apply list.Forall_singleton.
    + by rewrite currentKey_app.
Qed.

(** The first rows of consecutive runs have different keys. *)
Lemma runsFrom_heads (headKey : list R -> K) (rows : list R) :
  (forall row run, headKey (row :: run) = key row) ->
  forall current previous before first rest,
    current = first :: rest ->
    key first = key previous ->
    before <> Some (key previous) ->
    neighboursDiffer before (map headKey (runsFrom key current previous rows)).
Proof.
  intros Hhead.
  induction rows as [|row rows IH];
    intros current previous before first rest -> Hfirst Hbefore.
  - simpl. rewrite Hhead, Hfirst. done.
  - cbn [runsFrom]. case_bool_decide as Hrow.
    + apply (IH _ row before first (rest ++ [row])); [done|congruence|].
      by rewrite Hrow.
    + cbn [map neighboursDiffer]. rewrite Hhead, Hfirst. split; [done|].
      apply (IH _ row _ row []); [done|done|]. congruence.
Qed.

Lemma runs_heads (headKey : list R -> K) (rows : list R) :
  (forall row run, headKey (row :: run) = key row) ->
  neighboursDiffer None (map headKey (runs key rows)).
Proof.
  intros Hhead. destruct rows as [|row rows]; [done|].
  by apply (runsFrom_heads headKey rows Hhead [row] row None row []).
Qed.

Lemma runs_neighbours (rows : list R) :
  neighboursDiffer None (map key rows) ->
  runs key rows = map (fun row => [row]) rows.
Proof.
  intros Hrows. rewrite runs_absorb.
  by rewrite (absorb_neighbours rows []) by (done || constructor).
Qed.

End Neighbours.

(** ** A partial stage followed by a final stage *)

(** The plan with another step. *)
Definition withStep (nodeStep : Step) (node : AggregationNode)
    : AggregationNode :=
  {| step := nodeStep;
     groupingKeys := groupingKeys node;
     aggregates := aggregates node;
     ignoreNullKeys := ignoreNullKeys node |}.

(** The final stage over the output of a partial stage of [node]: the keys
    are the first columns of that output, and every aggregate reads, without
    a mask, the column of intermediate results that follows them. *)
Definition finalStage (node : AggregationNode) : AggregationNode :=
  {| step := kFinal;
     groupingKeys :=
       map (fun i => FieldAccessTypedExpr (N.of_nat i))
         (seq 0 (length (groupingKeys node)));
     aggregates :=
       imap (fun i aggregate =>
               {| callName := callName aggregate;
                  callInputs :=
                    [FieldAccessTypedExpr
                       (N.of_nat (length (groupingKeys node) + i))];
                  sortingKeys := [];
                  distinct := false;
                  mask := None |}) (aggregates node);
     ignoreNullKeys := false |}.

Section TwoStages.

Context {Acc : Type}.
Variable createAggregate : string -> Step -> Aggregate Acc.

(** What the kernels promise: the single-step kernel that reads, into a fresh
    accumulator, the intermediate result a partial-step kernel extracted
    after some raw inputs, ends with the value it has after the raw inputs
    themselves. *)
Definition mergesPartialState : Prop :=
  forall (name : string) (inputs : list (list Value)),
    let partialKernel := createAggregate name kPartial in
    let singleKernel := createAggregate name kSingle in
    finalValue singleKernel
      (intermediateInput singleKernel (initialState singleKernel)
         [accumulatorValue partialKernel
            (fold_left (rawInput partialKernel) inputs
               (initialState partialKernel))])
    = finalValue singleKernel
        (fold_left (rawInput singleKernel) inputs (initialState singleKernel)).

(** The argument lists an aggregate receives for a run: one per row that
    passes its mask. *)
Definition inputsOf (aggregate : PlanAggregate) (run : list (list Value))
    : list (list Value) :=
  map (fun row => map (argValue row) (callInputs aggregate))
    (List.filter (passesMask (mask aggregate)) run).

Lemma accumulate_inputsOf (node : AggregationNode) (aggregate : PlanAggregate)
    (run : list (list Value)) :
  accumulate createAggregate node aggregate run
  = fold_left (updateOf (step node) (kernelOf createAggregate node aggregate))
      (inputsOf aggregate run)
      (initialState (kernelOf createAggregate node aggregate)).
Proof.
  unfold accumulate, inputsOf.
  generalize (initialState (kernelOf createAggregate node aggregate)).
  induction run as [|row run IH]; intros acc; [done|].
  cbn [fold_left List.filter]. rewrite IH. unfold accumulateRow.
  by destruct (passesMask (mask aggregate) row).
Qed.

Lemma keyOf_first_columns (key rest : list Value) :
  keyOf (map N.of_nat (seq 0 (length key))) (key ++ rest) = key.
Proof.
  unfold keyOf. apply list_eq. intros i.
  rewrite !list_lookup_fmap.
  destruct (decide (i < length key)) as [Hlt|Hge].
  - rewrite lookup_seq_lt by done. simpl. unfold columnOf.
    rewrite Nat2N.id, lookup_app_l by done.
    unfold Value in *. destruct (key !! i) as [v|] eqn:Hv; [done|].
    apply lookup_ge_None in Hv. lia.
  - rewrite lookup_seq_ge by lia. simpl.
    symmetry. apply lookup_ge_None. lia.
Qed.

Lemma nodeKeys_finalStage (node : AggregationNode) :
  nodeKeys (finalStage node)
  = map N.of_nat (seq 0 (length (groupingKeys node))).
Proof. unfold nodeKeys. simpl. by rewrite map_map. Qed.

Lemma runKey_length (node : AggregationNode) (run : list (list Value)) :
  length (runKey node run) = length (groupingKeys node).
Proof. unfold runKey, keyOf, nodeKeys. by rewrite !length_map. Qed.

Lemma keyOf_finalStage (node partialNode : AggregationNode)
    (run : list (list Value)) :
  groupingKeys partialNode = groupingKeys node ->
  keyOf (nodeKeys (finalStage node)) (referenceRow createAggregate partialNode run)
  = runKey partialNode run.
Proof.
  intros Hkeys. rewrite nodeKeys_finalStage. unfold referenceRow.
  rewrite <- Hkeys, <- (runKey_length partialNode run).
  apply keyOf_first_columns.
Qed.

(** The final stage turns the row a partial stage emits for a run into the
    row a single stage emits for it. *)
Lemma referenceRow_finalStage (node : AggregationNode)
    (run : list (list Value)) :
  mergesPartialState ->
  referenceRow createAggregate (finalStage node)
    [referenceRow createAggregate (withStep kPartial node) run]
  = referenceRow createAggregate (withStep kSingle node) run.
Proof.
  intros Hmerge. unfold referenceRow at 1 3. f_equal.
  - unfold runKey at 1. change (default [] (head [?row])) with row.
    by rewrite (keyOf_finalStage node (withStep kPartial node)).
  - apply list_eq. intros i. cbn [finalStage aggregates withStep step].
    rewrite !list_lookup_fmap, list_lookup_imap.
    destruct (aggregates node !! i) as [aggregate|] eqn:Hagg; [|done].
    cbn [fmap option_fmap option_map extractOf isPartialOutput step]. f_equal.
    rewrite (accumulate_inputsOf (withStep kSingle node)).
    rewrite (accumulate_inputsOf (finalStage node)).
    unfold kernelOf, updateOf.
    cbn [step withStep finalStage isPartialOutput isRawInput callName].
    pose proof (Hmerge (callName aggregate) (inputsOf aggregate run)) as Hlaw.
    cbv zeta in Hlaw. rewrite <- Hlaw. f_equal.
    unfold inputsOf at 1.
    cbn [mask passesMask List.filter callInputs map argValue fold_left].
    do 2 f_equal.
    unfold columnOf, referenceRow. rewrite Nat2N.id.
    rewrite lookup_app_r by (rewrite runKey_length; simpl; lia).
    rewrite runKey_length. cbn [withStep groupingKeys aggregates step].
    replace (length (groupingKeys node) + i - length (groupingKeys node))
      with i by lia.
    rewrite list_lookup_fmap, Hagg.
    cbn [fmap option_fmap option_map default extractOf isPartialOutput from_option id].
    f_equal.
    by rewrite (accumulate_inputsOf (withStep kPartial node)).
Qed.

Lemma referenceGroupBy_finalStage (node : AggregationNode)
    (rows : list (list Value)) :
  mergesPartialState ->
  referenceGroupBy createAggregate (finalStage node)
    (referenceGroupBy createAggregate (withStep kPartial node) rows)
  = referenceGroupBy createAggregate (withStep kSingle node) rows.
Proof.
  intros Hmerge. unfold referenceGroupBy at 1.
  rewrite runs_neighbours.
  - unfold referenceGroupBy. rewrite !map_map. apply map_ext. intros run.
    by apply referenceRow_finalStage.
  - unfold referenceGroupBy. rewrite map_map.
    erewrite map_ext
      by (intros run; apply (keyOf_finalStage node (withStep kPartial node));
          reflexivity).
    apply (runs_heads (keyOf (nodeKeys (withStep kPartial node)))). done.
Qed.

Lemma wellFormedNode_finalStage (node : AggregationNode) :
  (N.of_nat (length (groupingKeys node) + length (aggregates node))
   <= kConstantChannel)%N ->
  wellFormedNode (length (groupingKeys node) + length (aggregates node))
    (finalStage node) = true.
Proof.
  intros Hwidth. unfold wellFormedNode. apply andb_true_iff. split.
  - apply forallb_forall. intros e He. apply list_elem_of_In in He.
    cbn [finalStage groupingKeys] in He.
    apply list_elem_of_fmap in He as (i & -> & Hi%elem_of_seq).
    simpl. apply N.ltb_lt. lia.
  - apply forallb_forall. intros a Ha. apply list_elem_of_In in Ha.
    cbn [finalStage aggregates] in Ha.
    apply elem_of_lookup_imap in Ha as (i & aggregate & -> & Hi).
    apply lookup_lt_Some in Hi. cbn [callInputs mask forallb isArgument isMask].
    rewrite !andb_true_r. apply andb_true_iff. split.
    + apply N.ltb_lt. lia.
    + apply negb_true_iff, N.eqb_neq. lia.
Qed.

Lemma isSupported_finalStage (node : AggregationNode) :
  isSupported (finalStage node) = true.
Proof.
  unfold isSupported. cbn [finalStage ignoreNullKeys negb].
  rewrite andb_true_r. apply forallb_forall. intros a Ha.
  apply list_elem_of_In in Ha. cbn [aggregates] in Ha.
  by apply elem_of_lookup_imap in Ha as (i & aggregate & -> & _).
Qed.

Lemma run_inputBatches (size : nat) (node : AggregationNode)
    (stream outputs : list RowVector) :
  run createAggregate size node stream = Ok outputs ->
  1 <= size ->
  Forall (isInputBatch (length (groupingKeys node) + length (aggregates node)))
    outputs.
Proof.
  unfold run. intros H Hsize.
  apply bind_Ok in H as (op & Hinit & H).
  apply bind_Ok in H as ([outs op'] & Hdrive & H). injection H as <-.
  destruct (isSupported node) eqn:Hsupported.
  - rewrite initialize_supported in Hinit by done. injection Hinit as <-.
    apply drive_inputBatches in Hdrive; [|done].
    cbn [initialized groupingKeys_ aggregates_] in Hdrive.
    by rewrite !length_map in Hdrive.
  - destruct (initialize_unsupported createAggregate size node Hsupported)
      as (message & Hraise). congruence.
Qed.

(** X14. A partial stage followed by a final stage is a single stage. When
    the kernels merge partial states faithfully, feeding the batches a
    partial-step operator returns to a final-step operator over them gives
    the rows the single-step operator returns for the original stream,
    whatever the three output batch sizes are. *)
Theorem partial_then_final_is_single (node : AggregationNode)
    (width partialSize finalSize singleSize : nat) (stream : list RowVector) :
  mergesPartialState ->
  isSupported node = true ->
  wellFormedNode width node = true ->
  Forall (isInputBatch width) stream ->
  1 <= partialSize ->
  (N.of_nat (length (groupingKeys node) + length (aggregates node))
   <= kConstantChannel)%N ->
  exists partials outputs single,
    run createAggregate partialSize (withStep kPartial node) stream = Ok partials
    /\ run createAggregate finalSize (finalStage node) partials = Ok outputs
    /\ run createAggregate singleSize (withStep kSingle node) stream = Ok single
    /\ rowsOf outputs = rowsOf single.
Proof.
  intros Hmerge Hsupported Hnode Hstream Hsize Hwidth.
  destruct (run_reference createAggregate (withStep kPartial node) width
              partialSize Hnode stream Hsupported Hstream)
    as (partials & Hpartial & Hrows).
  destruct (run_reference createAggregate (withStep kSingle node) width
              singleSize Hnode stream Hsupported Hstream)
    as (single & Hsingle & Hrows').
  pose proof (run_inputBatches _ _ _ _ Hpartial Hsize) as Hbatches.
  destruct (run_reference createAggregate (finalStage node) _ finalSize
              (wellFormedNode_finalStage node Hwidth) partials
              (isSupported_finalStage node) Hbatches)
    as (outputs & Hfinal & Hrows'').
  exists partials, outputs, single. repeat split; try done.
  rewrite Hrows'', Hrows, Hrows'. by apply referenceGroupBy_finalStage.
Qed.

End TwoStages.

(** ** The groups of the rows of one batch *)

Section Adjacent.

Context {K : Type} `{EqDecision K}.

Lemma assignSlots_first (n : nat) (current : option K) (k : K) (ks : list K) :
  assignSlots n current (k :: ks) !! 0
  = Some (if bool_decide (current = Some k) then n - 1 else n).
Proof. cbn [assignSlots]. by case_bool_decide. Qed.

(** Two rows in a row have the same slot exactly when they have the same
    key. *)
Lemma assignSlots_neighbours (ks : list K) : forall n current i s s' k k',
  (is_Some current -> 1 <= n) ->
  assignSlots n current ks !! i = Some s ->
  assignSlots n current ks !! S i = Some s' ->
  ks !! i = Some k ->
  ks !! S i = Some k' ->
  s = s' <-> k = k'.
Proof.
  induction ks as [|k0 ks IH]; intros n current i s s' k k' Hn Hs Hs' Hk Hk';
    [done|].
  destruct i as [|i].
  - destruct ks as [|k1 ks]; [done|].
    injection Hk as ->. injection Hk' as ->.
    cbn [assignSlots] in Hs, Hs'.
    case_bool_decide as Hcur.
    + assert (1 <= n) by (apply Hn; by eexists).
      cbn [assignSlots] in Hs'. case_bool_decide as Hcur'.
      * injection Hs as <-. injection Hs' as <-. split; [congruence|done].
      * injection Hs as <-. injection Hs' as <-.
        split; [lia|congruence].
    + cbn [assignSlots] in Hs'. case_bool_decide as Hcur'.
      * injection Hs as <-. injection Hs' as <-.
        split; [congruence|intros _; lia].
      * injection Hs as <-. injection Hs' as <-.
        split; [lia|congruence].
  - cbn [assignSlots] in Hs, Hs'. case_bool_decide as Hcur.
    + by apply (IH n current i s s' k k').
    + apply (IH (S n) (Some k0) i s s' k k'); try done. intros _. lia.
Qed.

End Adjacent.

Section RowsOfABatch.

Context {Acc : Type}.
Implicit Types (op : Operator Acc) (rc : RowContainer Acc).

(** X15. [assignGroups] groups the rows of the batch by their keys. In a
    state whose live slots are distinct rows of the container, and for a
    well-formed pending batch, it returns, gives every row of the batch a
    live slot, gives two neighbouring rows the same slot exactly when their
    grouping keys are equal, and puts the first row into a slot that was
    live before exactly when the retained previous batch ends with the same
    keys. *)
Theorem assignGroups_groups_rows_by_key (width : nat) op (input : RowVector)
    rc (V : list (Row Acc)) (current : option (list Value)) :
  input_ op = Some input ->
  wellFormedBatch width input = true ->
  channelsBelow width (groupingKeys_ op) ->
  length (decodedKeys_ op) = length (groupingKeys_ op) ->
  rows_ op = Some rc ->
  keyCount rc = length (groupingKeys_ op) ->
  pool rc (groups_ op) (numGroups_ op) V ->
  seam width op current ->
  exists op',
    assignGroups op = Ok op'
    /\ length (inputGroups_ op') = rowCount input
    /\ (forall i p,
          inputGroups_ op' !! i = Some p ->
          p ∈ take (numGroups_ op') (groups_ op'))
    /\ (forall i,
          S i < rowCount input ->
          inputGroups_ op' !! i = inputGroups_ op' !! S i
          <-> keyAt (groupingKeys_ op) input i
              = keyAt (groupingKeys_ op) input (S i))
    /\ (forall p,
          inputGroups_ op' !! 0 = Some p ->
          p ∈ take (numGroups_ op) (groups_ op)
          <-> current = Some (keyAt (groupingKeys_ op) input 0)).
Proof.
  intros Hinput Hwf HK HD Hrc Hcount HP Hseam.
  destruct (assignGroups_spec width op input rc V current Hinput Hwf HK HD Hrc
              Hcount HP Hseam)
    as (c & rc' & G' & ig' & D' & -> & _ & HP' & _ & _ & Hlen & Hslots & Htake).
  set (ks := batchKeys (groupingKeys_ op) input) in *.
  set (n := numGroups_ op) in *.
  assert (Hn : is_Some current -> 1 <= n).
  { unfold seam in Hseam. destruct (prevInput_ op).
    - intros _. by destruct Hseam as (_ & _ & ? & _).
    - destruct Hseam as (_ & ->). by intros [? ?]. }
  assert (Hks : forall i, i < rowCount input ->
            ks !! i = Some (keyAt (groupingKeys_ op) input i)).
  { intros i Hi. unfold ks, batchKeys.
    by rewrite list_lookup_fmap, lookup_seq_lt. }
  pose proof (assignSlots_bound ks n current Hn) as Hbound.
  pose proof (pool_nodup _ _ _ _ HP') as Hnodup.
  assert (Hrow : forall i p, ig' !! i = Some p ->
            exists s, assignSlots n current ks !! i = Some s
                      /\ G' !! s = Some p
                      /\ s < n + length (openedKeys current ks)).
  { intros i p Hp.
    destruct (Forall2_lookup_l _ _ _ _ _ Hslots Hp) as (s & Hs & HG).
    exists s. split; [done|]. split; [done|].
    by apply (list.Forall_lookup_1 _ _ _ _ Hbound Hs). }
  eexists. split; [reflexivity|]. op_simpl.
  split; [done|]. split; [|split].
  - intros i p (s & _ & HG & Hs)%Hrow.
    apply list_elem_of_lookup. exists s. by rewrite lookup_take_lt.
  - intros i Hi.
    destruct (lookup_lt_is_Some_2 ig' i) as [p Hp]; [lia|].
    destruct (lookup_lt_is_Some_2 ig' (S i)) as [p' Hp']; [lia|].
    destruct (Hrow _ _ Hp) as (s & Hs & HG & _).
    destruct (Hrow _ _ Hp') as (s' & Hs' & HG' & _).
    rewrite Hp, Hp'.
    rewrite <- (assignSlots_neighbours ks n current i s s' _ _ Hn Hs Hs'
                  (Hks i ltac:(lia)) (Hks (S i) Hi)).
    split.
    + intros [= <-]. by apply (NoDup_lookup G' s s' p).
    + intros <-. congruence.
  - intros p Hp.
    destruct (Hrow _ _ Hp) as (s & Hs & HG & _).
    assert (Hpos : 0 < rowCount input).
    { apply lookup_lt_Some in Hp. lia. }
    pose proof (Hks 0 Hpos) as Hk0.
    destruct ks as [|k0 ks'] eqn:Eks; [done|]. injection Hk0 as ->.
    rewrite assignSlots_first in Hs. injection Hs as <-.
    rewrite <- Htake. case_bool_decide as Hcur.
    + split; [done|]. intros _.
      assert (1 <= n) by (apply Hn; by eexists).
      apply list_elem_of_lookup. exists (n - 1).
      by rewrite lookup_take_lt by lia.
    + split; [|done]. intros (j & Hj)%list_elem_of_lookup.
      assert (j < n).
      { apply lookup_lt_Some in Hj. rewrite length_take in Hj. lia. }
      rewrite lookup_take_lt in Hj by done.
      pose proof (NoDup_lookup G' j n p Hnodup Hj HG). lia.
Qed.

End RowsOfABatch.

(** ** Streams in any order *)

Section AnyOrder.

Context {Acc : Type}.
Variable createAggregate : string -> Step -> Aggregate Acc.

(** X16. The operator does not need, and does not check, that the input is
    sorted on the grouping keys. For every stream of non-empty well-formed
    batches it returns one row per maximal run of rows with equal keys: the
    keys it emits are the keys of the input rows with every repetition of the
    key just before dropped, so that two neighbouring output rows never have
    the same key, and a key that comes back after another key is emitted
    again. *)
Theorem unsorted_stream_gives_one_row_per_run (node : AggregationNode)
    (width size : nat) (stream : list RowVector) :
  isSupported node = true ->
  wellFormedNode width node = true ->
  Forall (isInputBatch width) stream ->
  exists outputs,
    run createAggregate size node stream = Ok outputs
    /\ rowsOf outputs = referenceGroupBy createAggregate node (rowsOf stream)
    /\ emittedKeys node (rowsOf outputs)
       = openedKeys None (map (keyOf (nodeKeys node)) (rowsOf stream))
    /\ neighboursDiffer None (emittedKeys node (rowsOf outputs)).
Proof.
  intros Hsupported Hnode Hstream.
  destruct (run_reference createAggregate node width size Hnode stream
              Hsupported Hstream) as (outputs & Hrun & Hrows).
  exists outputs. split; [done|]. split; [done|].
  rewrite Hrows, emittedKeys_reference.
  split; [done|]. apply openedKeys_neighbours.
Qed.

End AnyOrder.

(** * The further properties on the sum example *)

(** Rows 0 and 1 of the first batch have the key 1. *)
Lemma equalKeys_compares_every_key_column_witness :
  exists equal,
    equalKeys [0%N] firstBatch 0 firstBatch 1 = Ok equal /\ equal = true.
Proof.
  destruct (equalKeys_compares_every_key_column 2 [0%N] firstBatch firstBatch
              0 1) as (equal & Hequal & Hiff).
  - repeat constructor.
  - reflexivity.
  - reflexivity.
  - simpl. lia.
  - simpl. lia.
  - exists equal. split; [exact Hequal|]. apply Hiff.
    intros c Hc. apply list_elem_of_singleton in Hc. subst c. reflexivity.
Defined.

(** Three rows with the key 7, in two batches. *)
Definition oneKeyStream : list RowVector :=
  [batchOf 2 [[7; 7]; [1; 2]]; batchOf 1 [[7]; [3]]]%Z.

Lemma one_key_stream_gives_one_row_witness :
  exists outputs,
    run createSum 1 (sumNode kSingle None) oneKeyStream = Ok outputs
    /\ rowsOf outputs = [[Some 7; Some 6]]%Z.
Proof.
  destruct (one_key_stream_gives_one_row createSum (sumNode kSingle None) 2 1
              oneKeyStream [Some 7%Z]) as (outputs & Hrun & Hrows).
  - reflexivity.
  - reflexivity.
  - discriminate.
  - repeat constructor.
  - vm_compute. repeat constructor.
  - exists outputs. split; [exact Hrun|]. rewrite Hrows. reflexivity.
Defined.


(** The flush of the two groups that are open after the first batch. *)
Lemma flush_finishes_the_operator_witness :
  exists output op',
    getOutput (noMoreInput twoGroups) = Ok (output, op')
    /\ isFinished op' = true
    /\ output <> None.
Proof.
  destruct (getOutput (noMoreInput twoGroups)) as [[output op']|e] eqn:Hget;
    [|vm_compute in Hget; discriminate].
  destruct (flush_finishes_the_operator twoGroups output op' eq_refl Hget)
    as (Hfinished & Hnone & _).
  exists output, op'. split; [reflexivity|]. split; [exact Hfinished|].
  intros Houtput. apply Hnone in Houtput. vm_compute in Houtput. discriminate.
Defined.

(** A distinct sum in a plan that also ignores null keys: the distinct
    modifier is reported. *)
Definition distinctSum : PlanAggregate :=
  {| callName := "sum";
     callInputs := [FieldAccessTypedExpr 1%N];
     sortingKeys := [];
     distinct := true;
     mask := None |}.

Definition distinctSumNode : AggregationNode :=
  {| step := kSingle;
     groupingKeys := [FieldAccessTypedExpr 0%N];
     aggregates := [distinctSum];
     ignoreNullKeys := true |}.

Lemma initialize_reports_the_first_unsupported_feature_witness :
  initialize createSum (construct 8 distinctSumNode)
  = Raise (Unsupported
      "Streaming aggregation doesn't support aggregations over distinct inputs yet").
Proof.
  destruct (initialize_reports_the_first_unsupported_feature createSum 8
              distinctSumNode) as [Haggregate _].
  exact (Haggregate [] distinctSum [] eq_refl eq_refl eq_refl).
Defined.

(** The sum with a literal as second argument, in a partial step. *)
Definition sumWithLiteralNode : AggregationNode :=
  {| step := kPartial;
     groupingKeys := [FieldAccessTypedExpr 0%N];
     aggregates := [{| callName := "sum";
                       callInputs := [FieldAccessTypedExpr 1%N;
                                      ConstantTypedExpr (Some 5%Z)];
                       sortingKeys := [];
                       distinct := false;
                       mask := None |}];
     ignoreNullKeys := false |}.

Lemma initialize_builds_the_kernels_and_constants_witness :
  exists op,
    initialize createSum (construct 8 sumWithLiteralNode) = Ok op
    /\ groupingKeys_ op = [0%N]
    /\ args_ op = [[1%N; kConstantChannel]]
    /\ constantArgs_ op = [[None; Some (ConstantVector (Some 5%Z) 1)]].
Proof.
  destruct (initialize createSum (construct 8 sumWithLiteralNode))
    as [op|e] eqn:Hinit; [|vm_compute in Hinit; discriminate].
  destruct (initialize_builds_the_kernels_and_constants createSum 8
              sumWithLiteralNode op Hinit)
    as (_ & _ & Hkeys & _ & _ & _ & _ & _ & _).
  exists op. split; [reflexivity|]. split; [exact Hkeys|].
  vm_compute in Hinit. injection Hinit as <-. split; reflexivity.
Defined.

(** The update of the two open groups with the first batch: the sum is
    entered with the column of the values and changes the rows. *)
Lemma evaluateAggregates_passes_columns_and_constants_witness :
  exists op' kernel rows before after,
    evaluateAggregates (addInput firstBatch twoGroups) = Ok op'
    /\ rows_ (addInput firstBatch twoGroups) = Some before
    /\ rows_ op' = Some after
    /\ kernelUpdate kSingle kernel 0
         (inputGroups_ (addInput firstBatch twoGroups)) rows
         [Some (FlatVector [Some 1; Some 2; Some 3; Some 4]%Z)] before
       = Ok after
    /\ before <> after.
Proof.
  destruct (evaluateAggregates (addInput firstBatch twoGroups))
    as [op'|e] eqn:Heval; [|vm_compute in Heval; discriminate].
  destruct (evaluateAggregates_passes_columns_and_constants
              (addInput firstBatch twoGroups) firstBatch op' eq_refl Heval)
    as (updates & states & _ & _ & Hlength & _ & Hfirst & Hlast & Hmade).
  destruct updates as [|e updates]; [discriminate Hlength|].
  destruct (Hmade 0 e eq_refl)
    as (kernel & rows & args & channels & before & after & _ & _ & Hbefore
        & Hafter & Hupdate & Hchannels & Hargs & Hpassed).
  injection Hchannels as <-.
  destruct (Hpassed 0 1%N eq_refl) as (arg & Harg & column & Hcolumn & ->).
  injection Hcolumn as <-.
  destruct args as [|arg [|? ?]]; try discriminate Hargs.
  injection Harg as ->.
  assert (Hrows : rows_ (addInput firstBatch twoGroups) = Some before)
    by congruence.
  assert (Hrows' : rows_ op' = Some after).
  { change (length (aggregates_ (addInput firstBatch twoGroups))) with 1
      in Hlast. congruence. }
  exists op', kernel, rows, before, after.
  split; [reflexivity|]. split; [exact Hrows|]. split; [exact Hrows'|].
  split; [exact Hupdate|].
  vm_compute in Heval. injection Heval as <-.
  vm_compute in Hrows. injection Hrows as <-.
  vm_compute in Hrows'. injection Hrows' as <-.
  discriminate.
Defined.

(** The first batch is retained once it was processed. *)
Lemma getOutput_retains_the_processed_batch_witness :
  exists output op',
    getOutput (addInput firstBatch (startOf 8 (sumNode kSingle None)))
    = Ok (output, op')
    /\ input_ op' = None
    /\ prevInput_ op' = Some firstBatch.
Proof.
  destruct (getOutput (addInput firstBatch (startOf 8 (sumNode kSingle None))))
    as [[output op']|e] eqn:Hget; [|vm_compute in Hget; discriminate].
  destruct (getOutput_retains_the_processed_batch _ output op' Hget)
    as (Hinput & Hprev & _).
  exists output, op'. split; [reflexivity|]. split; [exact Hinput|].
  exact Hprev.
Defined.

(** With a target of one row, the first batch gives a batch of one row and
    two columns. *)
Lemma returned_batches_are_rectangular_witness :
  exists batch op',
    getOutput (addInput firstBatch (startOf 1 (sumNode kSingle None)))
    = Ok (Some batch, op')
    /\ wellFormedBatch 2 batch = true
    /\ rowCount batch = 1.
Proof.
  destruct (getOutput (addInput firstBatch (startOf 1 (sumNode kSingle None))))
    as [[[batch|] op']|e] eqn:Hget;
    [|vm_compute in Hget; discriminate|vm_compute in Hget; discriminate].
  destruct (returned_batches_are_rectangular _ batch op' Hget)
    as (Hwf & Hrows).
  exists batch, op'. split; [reflexivity|]. split; [exact Hwf|exact Hrows].
Defined.

(** The second batch after a retained batch without rows. *)
Lemma getOutput_faults_after_an_empty_batch_witness :
  prevInput_ pendingAfterEmptyBatch = Some emptyBatch
  /\ getOutput pendingAfterEmptyBatch = Raise OutOfBounds.
Proof.
  split; [reflexivity|].
  eapply (getOutput_faults_after_an_empty_batch pendingAfterEmptyBatch
            secondBatch emptyBatch _ _ 0%N [] []).
  - reflexivity.
  - simpl. lia.
  - reflexivity.
  - reflexivity.
  - reflexivity.
  - reflexivity.
  - reflexivity.
  - vm_compute. reflexivity.
Defined.

(** The state with the second batch pending: its slots are the two rows of
    the container. *)
Lemma slots_are_the_rows_of_the_container_witness :
  exists rc,
    rows_ secondBatchPending = Some rc
    /\ NoDup (groups_ secondBatchPending)
    /\ length (groups_ secondBatchPending) = length (storage rc).
Proof.
  destruct (slots_are_the_rows_of_the_container createSum 8
              (sumNode kSingle None) (startOf 8 (sumNode kSingle None))
              secondBatchPending) as (rc & Hrows & Hperm & Hnodup & _).
  - vm_compute. reflexivity.
  - apply reach_addInput; [|exact I|reflexivity|reflexivity].
    apply (reach_getOutput _ _ (addInput firstBatch
                                  (startOf 8 (sumNode kSingle None))) None);
      [|vm_compute; reflexivity].
    apply reach_addInput; [apply reach_start|exact I|reflexivity|reflexivity].
  - exists rc. split; [exact Hrows|]. split; [exact Hnodup|].
    rewrite Hperm. apply length_seq.
Defined.

(** With a target of one row, the second batch reuses the row of the group
    that was emitted after the first batch: two rows are enough. *)
Definition secondBatchPendingOne : Operator Z :=
  addInput secondBatch
    (pull (addInput firstBatch (startOf 1 (sumNode kSingle None)))).

Lemma getOutput_allocates_only_beyond_the_free_slots_witness :
  exists output op' rc rc',
    getOutput secondBatchPendingOne = Ok (output, op')
    /\ rows_ secondBatchPendingOne = Some rc
    /\ rows_ op' = Some rc'
    /\ length (storage rc) = 2
    /\ length (storage rc') = 2.
Proof.
  destruct (getOutput secondBatchPendingOne) as [[output op']|e] eqn:Hget;
    [|vm_compute in Hget; discriminate].
  destruct (getOutput_allocates_only_beyond_the_free_slots createSum 1
              (sumNode kSingle None) (startOf 1 (sumNode kSingle None))
              secondBatchPendingOne output op')
    as (rc & rc' & Hrows & Hrows' & Hlength).
  - vm_compute. reflexivity.
  - apply reach_addInput; [|exact I|reflexivity|reflexivity].
    apply (reach_getOutput _ _ (addInput firstBatch
                                  (startOf 1 (sumNode kSingle None)))
             (Some (batchOf 1 [[1]; [3]]%Z)));
      [|vm_compute; reflexivity].
    apply reach_addInput; [apply reach_start|exact I|reflexivity|reflexivity].
  - exact Hget.
  - exists output, op', rc, rc'. split; [reflexivity|].
    split; [exact Hrows|]. split; [exact Hrows'|].
    vm_compute in Hget. injection Hget as <- <-.
    vm_compute in Hrows. injection Hrows as <-.
    vm_compute in Hrows'. injection Hrows' as <-.
    split; reflexivity.
Defined.

(** Keys [1,2] with values [10,20], and a mask that no row passes. *)
Definition allMaskedBatch : RowVector :=
  batchOf 2 [[1; 2]; [10; 20]; [0; 0]]%Z.

Lemma masked_rows_still_open_groups_witness :
  exists outputs,
    run createSum 8 (sumNode kSingle (Some 2%N)) [allMaskedBatch] = Ok outputs
    /\ emittedKeys (sumNode kSingle (Some 2%N)) (rowsOf outputs)
       = [[Some 1]; [Some 2]]%Z.
Proof.
  destruct (masked_rows_still_open_groups createSum (sumNode kSingle (Some 2%N))
              3 8 [allMaskedBatch] 0
              {| callName := "sum";
                 callInputs := [FieldAccessTypedExpr 1%N];
                 sortingKeys := [];
                 distinct := false;
                 mask := Some 2%N |})
    as (outputs & Hrun & Hkeys & _).
  - reflexivity.
  - reflexivity.
  - repeat constructor.
  - reflexivity.
  - vm_compute. repeat constructor.
  - exists outputs. split; [exact Hrun|]. rewrite Hkeys. reflexivity.
Defined.

(** The sum kernel adds the partial sum to zero. *)
Lemma partial_then_final_is_single_witness :
  exists partials outputs single,
    run createSum 1 (withStep kPartial (sumNode kSingle None))
      [firstBatch; secondBatch] = Ok partials
    /\ run createSum 2 (finalStage (sumNode kSingle None)) partials = Ok outputs
    /\ run createSum 8 (withStep kSingle (sumNode kSingle None))
         [firstBatch; secondBatch] = Ok single
    /\ rowsOf outputs = rowsOf single.
Proof.
  apply (partial_then_final_is_single createSum (sumNode kSingle None) 2 1 2 8
           [firstBatch; secondBatch]).
  - intros name inputs. simpl. reflexivity.
  - reflexivity.
  - reflexivity.
  - repeat constructor.
  - lia.
  - vm_compute. discriminate.
Defined.

(** The first batch in a fresh operator: its first two rows have the key 1
    and get the same slot. *)
Lemma assignGroups_groups_rows_by_key_witness :
  exists op',
    assignGroups (addInput firstBatch (startOf 8 (sumNode kSingle None))) = Ok op'
    /\ length (inputGroups_ op') = 4
    /\ inputGroups_ op' !! 0 = inputGroups_ op' !! 1.
Proof.
  destruct (assignGroups_groups_rows_by_key 2
              (addInput firstBatch (startOf 8 (sumNode kSingle None)))
              firstBatch
              {| keyCount := 1; accumulatorCount := 1; storage := [] |}
              [] None)
    as (op' & Hassign & Hlength & _ & Hrows & _).
  - reflexivity.
  - reflexivity.
  - repeat constructor.
  - reflexivity.
  - reflexivity.
  - reflexivity.
  - split; [reflexivity|simpl; lia|constructor| |].
    + intros p Hp. by apply elem_of_nil in Hp.
    + intros s row Hrow. discriminate.
  - split; reflexivity.
  - exists op'. split; [exact Hassign|]. split; [exact Hlength|].
    apply (Hrows 0); [simpl; lia|reflexivity].
Defined.

(** The keys 1, 2, 1: the key 1 is emitted twice. *)
Definition unsortedBatch : RowVector :=
  batchOf 3 [[1; 2; 1]; [10; 20; 30]]%Z.

Lemma unsorted_stream_gives_one_row_per_run_witness :
  exists outputs,
    run createSum 8 (sumNode kSingle None) [unsortedBatch] = Ok outputs
    /\ rowsOf outputs
       = [[Some 1; Some 10]; [Some 2; Some 20]; [Some 1; Some 30]]%Z.
Proof.
  destruct (unsorted_stream_gives_one_row_per_run createSum
              (sumNode kSingle None) 2 8 [unsortedBatch])
    as (outputs & Hrun & Hrows & _).
  - reflexivity.
  - reflexivity.
  - repeat constructor.
  - exists outputs. split; [exact Hrun|]. rewrite Hrows. reflexivity.
Defined.
